(** * VECTOR-LOAD: the constructive packer and the GA driver of
      [engine/src/ga_packer.cpp]

    The code is embedded twice.

    In the exact model the C++ [double] is a rational of [Q]: every
    comparison, sum, product and quotient of the source is kept, with the
    tolerances of the source ([kEps], [1e-6], [1e-9], [1e-12]) as rational
    constants.  The general theorems are proved on this model; they are
    stated on what the code itself computes and tests (the outcome of its
    guards, its running totals as it accumulates them), so that they do not
    rest on the algebra of exact numbers.

    In the module [B64] the same definitions run on binary64 numbers, with
    the rounding, the infinities and the NaN of IEEE-754.  It is evaluated
    where rounding decides what a claim says.

    [size_t] values stored in vectors are [N], positions walked by loops
    are [nat], [int] is [Z].

    [std::sort] leaves the order of equivalent elements open; the model
    fixes it to the stable one, the order [std::stable_sort] gives.  The
    standard random engine and its distributions are a parameter of the GA
    driver. *)

From Stdlib Require Import String QArith Qabs ZArith NArith List Bool Lia Lqa.
From Stdlib Require Import Permutation Sorting.Sorted.
From Stdlib Require Import Floats.
Import ListNotations.

Local Open Scope Q_scope.

(** ** Numbers *)

Module Num.

Definition Qleb (a b : Q) : bool := Qle_bool a b.
Definition Qltb (a b : Q) : bool := negb (Qle_bool b a).
Definition Qeqb (a b : Q) : bool := Qeq_bool a b.

(** [std::max(a, b)] is [(a < b) ? b : a]; [std::min(a, b)] is
    [(b < a) ? b : a]. *)
Definition std_max (a b : Q) : Q := if Qltb a b then b else a.
Definition std_min (a b : Q) : Q := if Qltb b a then b else a.

(** [std::llround]: nearest integer, halfway cases away from zero. *)
Definition llround (v : Q) : Z :=
  if Qleb 0 v
  then ((2 * Qnum v + Z.pos (Qden v)) / (2 * Z.pos (Qden v)))%Z
  else (- ((2 * (- Qnum v) + Z.pos (Qden v)) / (2 * Z.pos (Qden v))))%Z.

End Num.
Import Num.

(** ** Data model ([engine_types.h] and the structs of [ga_packer.cpp]) *)

Record Box := mkBox {
  box_id : string;
  box_w : Q;
  box_h : Q;
  box_d : Q;
  box_weight : Q;
  box_priority : Z
}.

Record Truck := mkTruck {
  truck_w : Q;
  truck_h : Q;
  truck_d : Q;
  truck_max_weight : Q
}.

Record Placement := mkPlacement {
  pl_id : string;
  pl_x : Q;
  pl_y : Q;
  pl_z : Q;
  pl_w : Q;
  pl_h : Q;
  pl_d : Q
}.

Record Result := mkResult {
  placed : list Placement;
  unplaced : list string;
  used_volume : Q;
  total_volume : Q;
  utilization : Q;
  total_weight : Q
}.

Record AABB := mkAABB {
  ax : Q;
  ay : Q;
  az : Q;
  aw : Q;
  ah : Q;
  ad : Q
}.

Record Candidate := mkCandidate {
  cx : Q;
  cy : Q;
  cz : Q
}.

Record PlacedState := mkPlacedState {
  ps_box : AABB;
  ps_id : string;
  ps_weight : Q;
  max_load : Q;
  load_on_top : Q
}.

(** ** Constants *)

Definition kEps : Q := 1 # 100000000.
Definition kMinSupportRatio : Q := 90 # 100.
Definition kMaxStackMultiplier : Q := 6.
Definition kMaxPressure : Q := 2500.
Definition kMaxCandidates : nat := 350.
(** The literals [1e-6], [1e-9] and [1e-12] of the source. *)
Definition yFaceEps : Q := 1 # 1000000.
Definition loadEps : Q := 1 # 1000000000.
Definition volTieEps : Q := 1 # 1000000000000.

(** ** Geometry primitives *)

Definition volume (w h d : Q) : Q := w * h * d.

Definition intersects (a b : AABB) : bool :=
  let sep_x := Qleb (ax a + aw a) (ax b) || Qleb (ax b + aw b) (ax a) in
  let sep_y := Qleb (ay a + ah a) (ay b) || Qleb (ay b + ah b) (ay a) in
  let sep_z := Qleb (az a + ad a) (az b) || Qleb (az b + ad b) (az a) in
  negb (sep_x || sep_y || sep_z).

Definition inside_truck (t : Truck) (b : AABB) : bool :=
  Qleb 0 (ax b) && Qleb 0 (ay b) && Qleb 0 (az b)
  && Qleb (ax b + aw b) (truck_w t)
  && Qleb (ay b + ah b) (truck_h t)
  && Qleb (az b + ad b) (truck_d t).

Definition overlap_1d (a0 a1 b0 b1 : Q) : Q :=
  let lo := std_max a0 b0 in
  let hi := std_min a1 b1 in
  std_max 0 (hi - lo).

Definition overlap_area_xz (top bottom : AABB) : Q :=
  let ox := overlap_1d (ax top) (ax top + aw top) (ax bottom) (ax bottom + aw bottom) in
  let oz := overlap_1d (az top) (az top + ad top) (az bottom) (az bottom + ad bottom) in
  ox * oz.

Definition point_in_overlap_xz (px pz : Q) (top bottom : AABB) : bool :=
  let x0 := std_max (ax top) (ax bottom) in
  let x1 := std_min (ax top + aw top) (ax bottom + aw bottom) in
  let z0 := std_max (az top) (az bottom) in
  let z1 := std_min (az top + ad top) (az bottom + ad bottom) in
  Qleb x0 (px + kEps) && Qleb (px - kEps) x1
  && Qleb z0 (pz + kEps) && Qleb (pz - kEps) z1.

Definition max_load_for (weight base_area : Q) : Q :=
  let by_weight := weight * kMaxStackMultiplier in
  let by_pressure := base_area * kMaxPressure in
  std_max kEps (std_min by_weight by_pressure).

(** ** Vector helpers *)

(** [v[idx] = f(v[idx])] for [idx] in range; the source never indexes
    outside the vector, and so the case leaves the list alone. *)
Fixpoint update_at {A : Type} (idx : nat) (f : A -> A) (l : list A) : list A :=
  match l, idx with
  | [], _ => []
  | s :: r, O => f s :: r
  | s :: r, S k => s :: update_at k f r
  end.

Definition set_load (s : PlacedState) (v : Q) : PlacedState :=
  mkPlacedState (ps_box s) (ps_id s) (ps_weight s) (max_load s) v.

Definition default_state : PlacedState :=
  mkPlacedState (mkAABB 0 0 0 0 0 0) EmptyString 0 0 0.

(** [placed[idx]]. *)
Definition state_at (placed : list PlacedState) (idx : nat) : PlacedState :=
  nth idx placed default_state.

(** [std::sort] and [std::stable_sort] with a strict comparator [lt]:
    insertion from the right keeps equivalent elements in their order. *)
Section Sorting.
Context {A : Type} (lt : A -> A -> bool).

Fixpoint insert_sorted (x : A) (l : list A) : list A :=
  match l with
  | [] => [x]
  | y :: r => if lt y x then y :: insert_sorted x r else x :: y :: r
  end.

Definition stable_sort (l : list A) : list A :=
  fold_right insert_sorted [] l.
End Sorting.

(** [std::unique] with an equivalence [eqv]: of every run of consecutive
    equivalent elements the first is kept. *)
Section Unique.
Context {A : Type} (eqv : A -> A -> bool).

Fixpoint unique_from (x : A) (r : list A) : list A :=
  match r with
  | [] => [x]
  | y :: r' => if eqv x y then unique_from x r' else x :: unique_from y r'
  end.

Definition std_unique (l : list A) : list A :=
  match l with
  | [] => []
  | x :: r => unique_from x r
  end.
End Unique.

(** ** Support and crush kernel *)

Record SupportScan := mkScan {
  supported_area : Q;
  centroid_supported : bool;
  supports : list (nat * Q)
}.

(** The first loop of [support_ok_and_apply_load], at index [i] with the
    states [rest] still to visit. *)
Fixpoint scan_supports (candidate : AABB) (ccx ccz : Q) (i : nat)
    (rest : list PlacedState) (acc : SupportScan) : SupportScan :=
  match rest with
  | [] => acc
  | s :: rest' =>
      let top_y := ay (ps_box s) + ah (ps_box s) in
      if Qltb yFaceEps (Qabs (top_y - ay candidate))
      then scan_supports candidate ccx ccz (S i) rest' acc
      else
        let area := overlap_area_xz candidate (ps_box s) in
        if Qleb area kEps
        then scan_supports candidate ccx ccz (S i) rest' acc
        else
          scan_supports candidate ccx ccz (S i) rest'
            (mkScan (supported_area acc + area)
               (if negb (centroid_supported acc)
                   && point_in_overlap_xz ccx ccz candidate (ps_box s)
                then true else centroid_supported acc)
               (supports acc ++ [(i, area)]))
  end.

Definition load_share (weight base_area area : Q) : Q :=
  let share := std_min 1 (std_max 0 (area / base_area)) in
  weight * share.

(** The crush loop: [false] as soon as one support would exceed its budget. *)
Fixpoint crush_ok (weight base_area : Q) (placed : list PlacedState)
    (sup : list (nat * Q)) : bool :=
  match sup with
  | [] => true
  | (idx, area) :: sup' =>
      let added := load_share weight base_area area in
      if Qltb (max_load (state_at placed idx) + loadEps)
              (load_on_top (state_at placed idx) + added)
      then false
      else crush_ok weight base_area placed sup'
  end.

(** The apply loop: the loads are added and logged in [applied]. *)
Fixpoint apply_loads (weight base_area : Q) (sup : list (nat * Q))
    (placed : list PlacedState) (applied : list (nat * Q))
    : list PlacedState * list (nat * Q) :=
  match sup with
  | [] => (placed, applied)
  | (idx, area) :: sup' =>
      let added := load_share weight base_area area in
      apply_loads weight base_area sup'
        (update_at idx (fun s => set_load s (load_on_top s + added)) placed)
        (applied ++ [(idx, added)])
  end.

Definition candidate_scan (candidate : AABB) (placed : list PlacedState) : SupportScan :=
  scan_supports candidate
    (ax candidate + aw candidate / 2) (az candidate + ad candidate / 2)
    0%nat placed (mkScan 0 false []).

(** The result is the returned flag, the vector [placed] after the call and
    what the call pushed on [*applied] (the caller passes an empty vector). *)
Definition support_ok_and_apply_load (candidate : AABB) (weight : Q)
    (placed : list PlacedState) : bool * list PlacedState * list (nat * Q) :=
  if Qleb (ay candidate) kEps then (true, placed, [])
  else
    let base_area := std_max kEps (aw candidate * ad candidate) in
    let sc := candidate_scan candidate placed in
    if negb (centroid_supported sc) then (false, placed, [])
    else if Qltb (supported_area sc + loadEps) (kMinSupportRatio * base_area)
    then (false, placed, [])
    else if negb (crush_ok weight base_area placed (supports sc))
    then (false, placed, [])
    else
      let '(placed', applied) :=
        apply_loads weight base_area (supports sc) placed [] in
      (true, placed', applied).

Fixpoint rollback_loads (placed : list PlacedState) (applied : list (nat * Q))
    : list PlacedState :=
  match applied with
  | [] => placed
  | (idx, added) :: applied' =>
      rollback_loads
        (update_at idx (fun s => set_load s (load_on_top s - added)) placed)
        applied'
  end.

(** ** Candidate point store *)

Definition CandKey : Type := (Z * Z * Z)%type.

Definition quantize (v : Q) : Z := llround (v * 100000).

Definition key (c : Candidate) : CandKey :=
  (quantize (cx c), quantize (cy c), quantize (cz c)).

(** [operator<] and [operator==] of [std::tuple<long long, long long, long long>]. *)
Definition key_lt (a b : CandKey) : bool :=
  let '(a1, a2, a3) := a in
  let '(b1, b2, b3) := b in
  if (a1 <? b1)%Z then true
  else if (b1 <? a1)%Z then false
  else if (a2 <? b2)%Z then true
  else if (b2 <? a2)%Z then false
  else (a3 <? b3)%Z.

Definition key_eq (a b : CandKey) : bool :=
  let '(a1, a2, a3) := a in
  let '(b1, b2, b3) := b in
  (a1 =? b1)%Z && (a2 =? b2)%Z && (a3 =? b3)%Z.

(** The comparator of the [stable_sort] that precedes the truncation. *)
Definition cand_yzx_lt (a b : Candidate) : bool :=
  if negb (Qeqb (cy a) (cy b)) then Qltb (cy a) (cy b)
  else if negb (Qeqb (cz a) (cz b)) then Qltb (cz a) (cz b)
  else Qltb (cx a) (cx b).

(** The [std::sort] by quantized key followed by [erase(unique(...))]. *)
Definition dedup_candidates (candidates : list Candidate) : list Candidate :=
  std_unique (fun a b => key_eq (key a) (key b))
    (stable_sort (fun a b => key_lt (key a) (key b)) candidates).

(** [candidates.resize(kMaxCandidates)] on a longer vector keeps its first
    [kMaxCandidates] elements. *)
Definition unique_candidates (candidates : list Candidate) : list Candidate :=
  let cs := dedup_candidates candidates in
  if (kMaxCandidates <? length cs)%nat
  then firstn kMaxCandidates (stable_sort cand_yzx_lt cs)
  else cs.

Definition add_candidate (candidates : list Candidate) (x y z : Q) : list Candidate :=
  if Qltb x (- kEps) || Qltb y (- kEps) || Qltb z (- kEps) then candidates
  else candidates ++ [mkCandidate x y z].

(** ** Constructive packer *)

Definition collides_any (placed : list PlacedState) (a : AABB) : bool :=
  existsb (fun p => intersects a (ps_box p)) placed.

Definition rots (box : Box) : list (Q * Q * Q) :=
  [ (box_w box, box_h box, box_d box);
    (box_w box, box_d box, box_h box);
    (box_h box, box_w box, box_d box);
    (box_h box, box_d box, box_w box);
    (box_d box, box_w box, box_h box);
    (box_d box, box_h box, box_w box) ].

Definition better (a b : AABB) : bool :=
  if negb (Qeqb (ay a) (ay b)) then Qltb (ay a) (ay b)
  else if negb (Qeqb (az a) (az b)) then Qltb (az a) (az b)
  else Qltb (ax a) (ax b).

(** The variables the candidate sweep of one box mutates. *)
Record Sweep := mkSweep {
  sw_found : bool;
  sw_best : AABB;
  sw_best_loads : list (nat * Q);
  sw_placed : list PlacedState
}.

(** The body of the two nested loops for one candidate AABB. *)
Definition try_candidate (truck : Truck) (weight : Q) (st : Sweep)
    (candidate : AABB) : Sweep :=
  if negb (inside_truck truck candidate) then st
  else if collides_any (sw_placed st) candidate then st
  else
    let '(ok, placed1, applied) :=
      support_ok_and_apply_load candidate weight (sw_placed st) in
    if negb ok
    then mkSweep (sw_found st) (sw_best st) (sw_best_loads st)
           (rollback_loads placed1 applied)
    else if negb (sw_found st) || better candidate (sw_best st)
    then mkSweep true candidate applied
           (if sw_found st then rollback_loads placed1 (sw_best_loads st)
            else placed1)
    else mkSweep (sw_found st) (sw_best st) (sw_best_loads st)
           (rollback_loads placed1 applied).

Definition oriented (cand : Candidate) (r : Q * Q * Q) : AABB :=
  let '(r0, r1, r2) := r in
  mkAABB (cx cand) (cy cand) (cz cand) r0 r1 r2.

(** All tentative AABBs of a box, in the order the loops visit them. *)
Definition attempts (box : Box) (candidates : list Candidate) : list AABB :=
  flat_map (fun cand => map (oriented cand) (rots box)) candidates.

Definition sweep (truck : Truck) (box : Box) (candidates : list Candidate)
    (placed0 : list PlacedState) : Sweep :=
  fold_left (try_candidate truck (box_weight box)) (attempts box candidates)
    (mkSweep false (mkAABB 0 0 0 0 0 0) [] placed0).

(** The state of [pack_by_order] between two iterations of its main loop. *)
Record PackState := mkPackState {
  pk_result : Result;
  pk_placed : list PlacedState;
  pk_candidates : list Candidate;
  pk_remaining_weight : Q
}.

Definition push_unplaced (r : Result) (id : string) : Result :=
  mkResult (placed r) (unplaced r ++ [id]) (used_volume r) (total_volume r)
    (utilization r) (total_weight r).

Definition push_placed (r : Result) (id : string) (best : AABB) (weight : Q) : Result :=
  mkResult
    (placed r ++ [mkPlacement id (ax best) (ay best) (az best)
                    (aw best) (ah best) (ad best)])
    (unplaced r)
    (used_volume r + volume (aw best) (ah best) (ad best))
    (total_volume r) (utilization r) (total_weight r + weight).

Definition default_box : Box := mkBox EmptyString 0 0 0 0 0.

(** [boxes[idx]]; an [order] that is a permutation of the indices never
    reaches the default. *)
Definition box_at (boxes : list Box) (idx : N) : Box :=
  nth (N.to_nat idx) boxes default_box.

Definition pack_step (truck : Truck) (boxes : list Box) (st : PackState)
    (idx : N) : PackState :=
  let box := box_at boxes idx in
  if Qltb (pk_remaining_weight st + loadEps) (box_weight box)
  then mkPackState (push_unplaced (pk_result st) (box_id box))
         (pk_placed st) (pk_candidates st) (pk_remaining_weight st)
  else
    let candidates := unique_candidates (pk_candidates st) in
    let sw := sweep truck box candidates (pk_placed st) in
    if negb (sw_found sw)
    then mkPackState (push_unplaced (pk_result st) (box_id box))
           (sw_placed sw) candidates (pk_remaining_weight st)
    else
      let best := sw_best sw in
      let placed1 :=
        sw_placed sw ++
        [mkPlacedState best (box_id box) (box_weight box)
           (max_load_for (box_weight box) (aw best * ad best)) 0] in
      let c1 := add_candidate candidates (ax best + aw best) (ay best) (az best) in
      let c2 := add_candidate c1 (ax best) (ay best) (az best + ad best) in
      let c3 := add_candidate c2 (ax best) (ay best + ah best) (az best) in
      mkPackState (push_placed (pk_result st) (box_id box) best (box_weight box))
        placed1 c3 (pk_remaining_weight st - box_weight box).

Definition pack_init (truck : Truck) (boxes : list Box) : PackState :=
  mkPackState
    (mkResult [] []
       0 (fold_left (fun acc box => acc + volume (box_w box) (box_h box) (box_d box)) boxes 0)
       0 0)
    [] [mkCandidate 0 0 0] (truck_max_weight truck).

(** The main loop, with the internal vectors still visible. *)
Definition pack_run (truck : Truck) (boxes : list Box) (order : list N) : PackState :=
  fold_left (pack_step truck boxes) order (pack_init truck boxes).

Definition finish (truck : Truck) (r : Result) : Result :=
  mkResult (placed r) (unplaced r) (used_volume r) (total_volume r)
    (if Qltb 0 (truck_w truck * truck_h truck * truck_d truck)
     then used_volume r / (truck_w truck * truck_h truck * truck_d truck)
     else 0)
    (total_weight r).

Definition pack_by_order (truck : Truck) (boxes : list Box) (order : list N) : Result :=
  finish truck (pk_result (pack_run truck boxes order)).

Definition score_result (r : Result) : Q :=
  utilization r * 100 - inject_Z (Z.of_nat (length (unplaced r))) * (1 # 2).

(** ** GA driver *)

(** [std::mt19937], [std::uniform_real_distribution<double>(0, 1)],
    [std::uniform_int_distribution] on a closed range and [std::shuffle]
    belong to the standard library: the driver is parameterised by them,
    each call returning its value with the engine's next state. *)
Class RandomEngine := {
  rng : Type;
  mt19937 : N -> rng;
  uniform_real : rng -> Q * rng;
  uniform_int : Z -> Z -> rng -> Z * rng;
  std_shuffle : list N -> rng -> list N * rng
}.

Record Individual := mkIndividual {
  ind_order : list N;
  ind_score : Q;
  ind_result : Result
}.

Definition empty_result : Result := mkResult [] [] 0 0 0 0.

Definition default_individual : Individual := mkIndividual [] 0 empty_result.

(** [static_cast<size_t>(-1)] on a 64-bit [size_t]. *)
Definition npos : N := 18446744073709551615.

(** The comparator of the heuristic seed. *)
Definition heuristic_lt (boxes : list Box) (a b : N) : bool :=
  let A := box_at boxes a in
  let B := box_at boxes b in
  let va := volume (box_w A) (box_h A) (box_d A) in
  let vb := volume (box_w B) (box_h B) (box_d B) in
  if Qltb volTieEps (Qabs (va - vb)) then Qltb vb va
  else (box_priority B <? box_priority A)%Z.

Definition base_order (n : nat) : list N := map N.of_nat (seq 0 n).

Definition heuristic_order (boxes : list Box) : list N :=
  stable_sort (heuristic_lt boxes) (base_order (length boxes)).

(** The workload caps, followed by the two lower bounds. *)
Definition cap_budget (n : nat) (population generations : Z) : Z * Z :=
  let '(p, g) :=
    if (250 <? n)%nat then (Z.min population 10, Z.min generations 6)
    else if (150 <? n)%nat then (Z.min population 18, Z.min generations 12)
    else (Z.min population 30, Z.min generations 25) in
  (Z.max p 4, Z.max g 1).

(** [x.score > y.score], the comparator of both sorts of the population. *)
Definition by_score_desc (x y : Individual) : bool :=
  Qltb (ind_score y) (ind_score x).

(** *** Ordered crossover, for given cut points *)

Definition used_mem (gene : N) (used : list N) : bool :=
  existsb (N.eqb gene) used.

(** [for (k = i; k <= j; ++k) { child[k] = a.order[k]; used.insert(child[k]); }]
    with [cnt] iterations left. *)
Fixpoint copy_slice (a : list N) (k cnt : nat) (child used : list N)
    : list N * list N :=
  match cnt with
  | O => (child, used)
  | S cnt' =>
      let gene := nth k a 0%N in
      copy_slice a (S k) cnt' (update_at k (fun _ => gene) child) (gene :: used)
  end.

(** [while (write < n && child[write] != -1) ++write;] the loop leaves at
    the latest when [write = n], after at most [fuel = n - write] steps. *)
Fixpoint skip_filled (fuel n : nat) (child : list N) (write : nat) : nat :=
  match fuel with
  | O => write
  | S fuel' =>
      if (write <? n)%nat && negb (N.eqb (nth write child npos) npos)
      then skip_filled fuel' n child (S write)
      else write
  end.

(** The second loop, over the genes [b.order[0]], ..., [b.order[n-1]]. *)
Fixpoint fill_rest (n : nat) (genes used child : list N) (write : nat) : list N :=
  match genes with
  | [] => child
  | gene :: genes' =>
      if used_mem gene used then fill_rest n genes' used child write
      else
        let write' := skip_filled (n - write) n child write in
        if (write' <? n)%nat
        then fill_rest n genes' used (update_at write' (fun _ => gene) child) write'
        else fill_rest n genes' used child write'
  end.

Definition genes_of (b : list N) (n : nat) : list N :=
  map (fun k => nth k b 0%N) (seq 0 n).

Definition crossover_at (n : nat) (a b : list N) (i j : nat) : list N :=
  let '(child, used) := copy_slice a i (S j - i) (repeat npos n) [] in
  fill_rest n (genes_of b n) used child 0.

Section Driver.
Context {RE : RandomEngine}.
Variable truck : Truck.
Variable boxes : list Box.

Definition evaluate (order : list N) : Individual :=
  let r := pack_by_order truck boxes order in
  mkIndividual order (score_result r) r.

Definition make_individual (shuffle : bool) (g : rng) : Individual * rng :=
  if shuffle
  then let '(order, g') := std_shuffle (base_order (length boxes)) g in
       (evaluate order, g')
  else (evaluate (heuristic_order boxes), g).

(** [while (pop.size() < population) pop.push_back(make_individual(true))]:
    one individual per iteration, [k] iterations left. *)
Fixpoint fill_random (k : nat) (pop : list Individual) (g : rng)
    : list Individual * rng :=
  match k with
  | O => (pop, g)
  | S k' =>
      let '(ind, g') := make_individual true g in
      fill_random k' (pop ++ [ind]) g'
  end.

Variable population : Z.

(** The tournament loop of [select_parent], [k] rounds left. *)
Fixpoint tournament (k : nat) (pop : list Individual)
    (best : option Individual) (g : rng) : option Individual * rng :=
  match k with
  | O => (best, g)
  | S k' =>
      let '(i, g') := uniform_int 0 (population - 1) g in
      let cand := nth (Z.to_nat i) pop default_individual in
      let best' :=
        match best with
        | None => Some cand
        | Some b => if Qltb (ind_score b) (ind_score cand) then Some cand else Some b
        end in
      tournament k' pop best' g'
  end.

Definition select_parent (pop : list Individual) (g : rng) : Individual * rng :=
  let '(best, g') := tournament 3 pop None g in
  (match best with Some b => b | None => default_individual end, g').

Definition crossover (a b : Individual) (g : rng) : list N * rng :=
  let n := length boxes in
  let '(i, g1) := uniform_int 0 (Z.of_nat n - 1) g in
  let '(j, g2) := uniform_int 0 (Z.of_nat n - 1) g1 in
  let '(i, j) := if (j <? i)%Z then (j, i) else (i, j) in
  (crossover_at n (ind_order a) (ind_order b) (Z.to_nat i) (Z.to_nat j), g2).

Variable mutation_rate : Q.

Definition swap_at (a b : nat) (order : list N) : list N :=
  let va := nth a order 0%N in
  let vb := nth b order 0%N in
  update_at b (fun _ => va) (update_at a (fun _ => vb) order).

Definition mutate (order : list N) (g : rng) : list N * rng :=
  let '(u, g1) := uniform_real g in
  if Qltb mutation_rate u then (order, g1)
  else
    let n := length boxes in
    let '(a, g2) := uniform_int 0 (Z.of_nat n - 1) g1 in
    let '(b, g3) := uniform_int 0 (Z.of_nat n - 1) g2 in
    (swap_at (Z.to_nat a) (Z.to_nat b) order, g3).

(** [while (next.size() < population)]: one child per iteration, [k] left. *)
Fixpoint offspring (k : nat) (pop next : list Individual) (g : rng)
    : list Individual * rng :=
  match k with
  | O => (next, g)
  | S k' =>
      let '(p1, g1) := select_parent pop g in
      let '(p2, g2) := select_parent pop g1 in
      let '(child, g3) := crossover p1 p2 g2 in
      let '(child', g4) := mutate child g3 in
      offspring k' pop (next ++ [evaluate child']) g4
  end.

Definition generation (pop : list Individual) (g : rng) : list Individual * rng :=
  let sorted := stable_sort by_score_desc pop in
  let elite := Z.max 1 (Z.quot population 10) in
  let next := firstn (Z.to_nat elite) sorted in
  offspring (Z.to_nat population - length next) sorted next g.

Fixpoint generations_loop (gens : nat) (pop : list Individual) (g : rng)
    : list Individual * rng :=
  match gens with
  | O => (pop, g)
  | S gens' =>
      let '(pop', g') := generation pop g in
      generations_loop gens' pop' g'
  end.

Definition initial_population (g : rng) : list Individual * rng :=
  let '(ind0, g0) := make_individual false g in
  fill_random (Z.to_nat population - 1) [ind0] g0.
End Driver.

Definition optimize_ga {RE : RandomEngine} (truck : Truck) (boxes : list Box)
    (population generations : Z) (mutation_rate : Q) (seed : N) : Result :=
  match boxes with
  | [] => empty_result
  | _ :: _ =>
      let '(population, generations) :=
        cap_budget (length boxes) population generations in
      let '(pop, g) := initial_population truck boxes population (mt19937 seed) in
      let '(pop', _) :=
        generations_loop truck boxes population mutation_rate
          (Z.to_nat generations) pop g in
      ind_result (hd default_individual (stable_sort by_score_desc pop'))
  end.

(** ** Request parsing ([truck_from_dict], [box_from_any]) *)

(** A [py::dict] with string keys is read only through [contains] and
    [operator[]]: it is modelled by its lookup, [None] for an absent key
    (where [d[key]] raises [KeyError]).  The conversions [py::float_(obj)]
    read as a double, [py::str(obj)] read as a [std::string] and
    [py::int_(obj).cast<int>()] belong to pybind11 and Python; they are
    parameters, [None] when the conversion raises.  A parsing function
    returns [None] when an exception leaves it. *)
Section Bindings.
Variable PyObj : Type.
Variable py_float : PyObj -> option Q.
Variable py_str : PyObj -> option string.
Variable py_int : PyObj -> option Z.

Definition PyDict : Type := string -> option PyObj.

(** [conv(d[key])]. *)
Definition item {A : Type} (conv : PyObj -> option A) (d : PyDict) (key : string)
    : option A :=
  match d key with
  | Some obj => conv obj
  | None => None
  end.

(** [d.contains(key) ? conv(d[key]) : dflt]. *)
Definition item_or {A : Type} (conv : PyObj -> option A) (d : PyDict) (key : string)
    (dflt : A) : option A :=
  match d key with
  | Some obj => conv obj
  | None => Some dflt
  end.

Definition truck_from_dict (d : PyDict) : option Truck :=
  match item py_float d "w"%string, item py_float d "h"%string, item py_float d "d"%string,
        item_or py_float d "max_weight"%string 12000 with
  | Some w, Some h, Some dd, Some mw => Some (mkTruck w h dd mw)
  | _, _, _, _ => None
  end.

Definition box_from_any (d : PyDict) : option Box :=
  match (match d "id"%string with
         | Some obj => py_str obj
         | None => item py_str d "sku"%string
         end),
        item py_float d "w"%string, item py_float d "h"%string, item py_float d "d"%string,
        item_or py_float d "weight"%string 1, item_or py_int d "priority"%string 1%Z with
  | Some id, Some w, Some h, Some dd, Some weight, Some priority =>
      Some (mkBox id w h dd weight priority)
  | _, _, _, _, _, _ => None
  end.

(** [for (auto item : boxes) b.push_back(box_from_any(item))]. *)
Fixpoint boxes_from_list (items : list PyDict) : option (list Box) :=
  match items with
  | [] => Some []
  | d :: items' =>
      match box_from_any d, boxes_from_list items' with
      | Some b, Some bs => Some (b :: bs)
      | _, _ => None
      end
  end.
End Bindings.

(** ** The adapter [optimize] of [engine_bindings.cpp] *)

(** The request after [truck_from_dict] and [box_from_any]; an absent
    [params] key is [None]. *)
Record Params := mkParams {
  par_population : option Z;
  par_generations : option Z;
  par_mutation_rate : option Q;
  par_seed : option N
}.

(** How a call can end.  Neither the adapter nor the driver has a [throw]
    or a status code: the error kinds are the ones the specification
    names, and the code never produces them. *)
Inductive ErrorKind := InvalidGeometry | InvalidParams | DuplicateId.

Inductive Outcome :=
  | Returned (r : Result)
  | Failed (e : ErrorKind).

Definition optimize {RE : RandomEngine} (truck : Truck) (boxes : list Box)
    (params : Params) : Outcome :=
  let population := match par_population params with Some p => p | None => 40%Z end in
  let generations := match par_generations params with Some g => g | None => 40%Z end in
  let mutation_rate :=
    match par_mutation_rate params with Some m => m | None => 8 # 100 end in
  let seed := match par_seed params with Some s => s | None => 12345%N end in
  Returned (optimize_ga truck boxes population generations mutation_rate seed).

(** ** The input fields of the viewer ([App.jsx]) *)

(** A JavaScript string is a sequence of UTF-16 code units; a regular
    expression without the [u] flag works on the code units one by one.
    [raw] is a string, [null] or [undefined] ([None]), and
    [String(raw ?? '')] is the string itself or the empty string. *)
Abbreviation JsString := (list N).

Definition js_string (raw : option JsString) : JsString :=
  match raw with Some s => s | None => [] end.

Definition is_digit (c : N) : bool := (N.leb 48 c && N.leb c 57)%bool.
Definition dot : N := 46%N.
Definition comma : N := 44%N.

(** [s.indexOf(c)], with [None] for -1. *)
Fixpoint indexOf (c : N) (s : JsString) : option nat :=
  match s with
  | [] => None
  | x :: r =>
      if N.eqb x c then Some 0%nat
      else match indexOf c r with Some k => Some (S k) | None => None end
  end.

Definition sanitizeDigits (raw : option JsString) : JsString :=
  filter is_digit (js_string raw).

Definition sanitizeDecimalDot (raw : option JsString) : JsString :=
  let cleaned :=
    filter (fun c => is_digit c || N.eqb c dot || N.eqb c comma)%bool (js_string raw) in
  let normalized := map (fun c => if N.eqb c comma then dot else c) cleaned in
  match indexOf dot normalized with
  | None => normalized
  | Some d =>
      firstn (d + 1) normalized
      ++ filter (fun c => negb (N.eqb c dot)) (skipn (d + 1) normalized)
  end.

(** ** The viewer's load order ([buildSupportAwareLoadOrder]) *)

(** A placement as the viewer receives it: numbers are exact rationals as
    for the engine, [weight] may be absent.  [Number(v || 0)] and
    [String(id ?? '')] leave such fields as they are. *)
Record Item := mkItem {
  it_id : string;
  it_x : Q;
  it_y : Q;
  it_z : Q;
  it_w : Q;
  it_h : Q;
  it_d : Q;
  it_weight : option Q
}.

Definition default_item : Item := mkItem EmptyString 0 0 0 0 0 0 None.

(** [Math.round]: the nearest integer, halfway cases upwards. *)
Definition js_round (v : Q) : Z :=
  ((2 * Qnum v + Z.pos (Qden v)) / (2 * Z.pos (Qden v)))%Z.

Definition toMicro (value : Q) : Z := js_round (value * 1000000).

Definition overlap1d (a0 a1 b0 b1 : Q) : Q :=
  std_max 0 (std_min a1 b1 - std_max a0 b0).

Definition overlapAreaXZ (top bottom : Item) : Q :=
  let overlapX :=
    overlap1d (it_x top) (it_x top + it_w top) (it_x bottom) (it_x bottom + it_w bottom) in
  let overlapZ :=
    overlap1d (it_z top) (it_z top + it_d top) (it_z bottom) (it_z bottom + it_d bottom) in
  overlapX * overlapZ.

Definition viewer_yEps : Q := 1 # 1000000.
Definition minSupportArea : Q := 1 # 10000000000.

Record Rank := mkRank {
  rk_z : Z;
  rk_y : Z;
  rk_x : Z;
  serpentineFlip : bool;
  rk_weight : Q;
  rk_id : string
}.

Definition default_rank : Rank := mkRank 0 0 0 false 0 EmptyString.

(** [(zBucket & 1) === 1] reads the lowest bit of the integer. *)
Definition rank (box : Item) : Rank :=
  let zBucket := js_round (it_z box * 100) in
  mkRank (toMicro (it_z box)) (toMicro (it_y box)) (toMicro (it_x box))
    (Z.odd zBucket)
    (match it_weight box with Some w => w | None => - (1) end)
    (it_id box).

(** [adjacency[bottomIndex].push(topIndex); inDegree[topIndex] += 1]. *)
Definition link (st : list (list nat) * list Z) (bottomIndex topIndex : nat)
    : list (list nat) * list Z :=
  (update_at bottomIndex (fun l => l ++ [topIndex]) (fst st),
   update_at topIndex (fun v => (v + 1)%Z) (snd st)).

(** The tests of the inner loop that come after the index test. *)
Definition rests_on (top bottom : Item) : bool :=
  if Qltb viewer_yEps (Qabs (it_y bottom + it_h bottom - it_y top)) then false
  else if Qleb (overlapAreaXZ top bottom) minSupportArea then false
  else true.

Definition scan_bottoms (items : list Item) (topIndex : nat)
    (st : list (list nat) * list Z) : list (list nat) * list Z :=
  fold_left
    (fun st bottomIndex =>
       if Nat.eqb bottomIndex topIndex then st
       else if rests_on (nth topIndex items default_item)
                 (nth bottomIndex items default_item)
       then link st bottomIndex topIndex
       else st)
    (seq 0 (length items)) st.

Definition build_graph (items : list Item) : list (list nat) * list Z :=
  fold_left
    (fun st topIndex =>
       if Qleb (it_y (nth topIndex items default_item)) viewer_yEps then st
       else scan_bottoms items topIndex st)
    (seq 0 (length items))
    (repeat [] (length items), repeat 0%Z (length items)).

Section LoadOrder.
(** [String.prototype.localeCompare] depends on the host's locale. *)
Variable localeCompare : string -> string -> Z.

Definition compareRank (a b : Rank) : Q :=
  if negb (Z.eqb (rk_z a) (rk_z b)) then inject_Z (rk_z b - rk_z a)
  else if negb (Z.eqb (rk_y a) (rk_y b)) then inject_Z (rk_y a - rk_y b)
  else if negb (Z.eqb (rk_x a) (rk_x b))
  then (if serpentineFlip a then inject_Z (rk_x b - rk_x a)
        else inject_Z (rk_x a - rk_x b))
  else if negb (Qeqb (rk_weight a) (rk_weight b)) then rk_weight b - rk_weight a
  else inject_Z (localeCompare (rk_id a) (rk_id b)).

(** The loop of [takeNext] at position [i], over the entries [rest] of
    [available] from that position on. *)
Fixpoint best_position (ranked : list Rank) (available rest : list nat)
    (i bestPos : nat) : nat :=
  match rest with
  | [] => bestPos
  | a :: rest' =>
      best_position ranked available rest' (S i)
        (if Qltb (compareRank (nth a ranked default_rank)
                    (nth (nth bestPos available 0%nat) ranked default_rank)) 0
         then i else bestPos)
  end.

(** The index taken and [available] after [splice(bestPos, 1)]. *)
Definition takeNext (ranked : list Rank) (available : list nat) : nat * list nat :=
  let bestPos := best_position ranked available (tl available) 1 0 in
  (nth bestPos available 0%nat, firstn bestPos available ++ skipn (S bestPos) available).

(** [for (const dependent of adjacency[current])]. *)
Fixpoint release (dependents : list nat) (inDegree : list Z) (available : list nat)
    : list Z * list nat :=
  match dependents with
  | [] => (inDegree, available)
  | dependent :: rest =>
      let inDegree' := update_at dependent (fun v => (v - 1)%Z) inDegree in
      release rest inDegree'
        (if Z.eqb (nth dependent inDegree' 0%Z) 0 then available ++ [dependent]
         else available)
  end.

Record Kahn := mkKahn {
  k_available : list nat;
  k_inDegree : list Z;
  orderedIndices : list nat
}.

(** [while (available.length)]: every iteration moves one index into
    [orderedIndices], so that [fuel] iterations are enough when [fuel] is
    the number of items. *)
Fixpoint kahn_loop (fuel : nat) (adjacency : list (list nat)) (ranked : list Rank)
    (st : Kahn) : Kahn :=
  match fuel with
  | O => st
  | S fuel' =>
      match k_available st with
      | [] => st
      | _ :: _ =>
          let '(current, available1) := takeNext ranked (k_available st) in
          let '(inDegree', available') :=
            release (nth current adjacency []) (k_inDegree st) available1 in
          kahn_loop fuel' adjacency ranked
            (mkKahn available' inDegree' (orderedIndices st ++ [current]))
      end
  end.

Definition start (items : list Item) : Kahn :=
  let '(_, inDegree0) := build_graph items in
  mkKahn (filter (fun i => Z.eqb (nth i inDegree0 0%Z) 0) (seq 0 (length items)))
    inDegree0 [].

Definition buildSupportAwareLoadOrder (placements : list Item) : list Item :=
  let items := placements in
  let n := length items in
  let ranked := map rank items in
  let final := kahn_loop n (fst (build_graph items)) ranked (start items) in
  if negb (Nat.eqb (length (orderedIndices final)) n)
  then stable_sort (fun a b => Qltb (compareRank (rank a) (rank b)) 0) items
  else map (fun i => nth i items default_item) (orderedIndices final).
End LoadOrder.

(** A small congruential engine on which the driver can be run; any engine
    can take its place. *)
Module Lcg.

Definition next (g : Z) : Z := ((1103515245 * g + 12345) mod 2147483648)%Z.

Definition rotate (l : list N) (k : nat) : list N := skipn k l ++ firstn k l.

#[export] Instance engine : RandomEngine := {|
  rng := Z;
  mt19937 := fun seed => Z.of_N seed;
  uniform_real := fun g => (inject_Z (g mod 1000) / 1000, next g);
  uniform_int := fun lo hi g => ((lo + g mod (hi - lo + 1))%Z, next g);
  std_shuffle := fun l g => (rotate l (Z.to_nat (g mod Z.of_nat (length l))), next g)
|}.

End Lcg.

(** * The same code on binary64

    The packer and the GA driver once more, now on the numbers of the
    machine: a [double] is a binary64 number ([PrimFloat]) and [+], [-],
    [*], [/] and the comparisons are the IEEE-754 operations, rounding to
    nearest, with infinities and NaN.  The definitions are those of the
    exact model with the numbers exchanged; the integer code (vector
    helpers, sorts, keys, crossover) is shared.  The module is run where
    rounding decides what a claim says. *)

Module B64.

Local Open Scope float_scope.
#[local] Set Warnings "-inexact-float".

Definition leb (a b : float) : bool := PrimFloat.leb a b.
Definition ltb (a b : float) : bool := PrimFloat.ltb a b.
Definition eqb (a b : float) : bool := PrimFloat.eqb a b.
Definition abs (a : float) : float := PrimFloat.abs a.

Definition std_max (a b : float) : float := if ltb a b then b else a.
Definition std_min (a b : float) : float := if ltb b a then b else a.

(** The rational that a finite number stands for (0 for an infinity or
    NaN). *)
Definition exact (v : float) : Q :=
  match Prim2SF v with
  | S754_finite s m e =>
      ((if s then inject_Z (Z.neg m) else inject_Z (Z.pos m)) * Qpower 2 e)%Q
  | _ => 0%Q
  end.

(** [std::llround] of a finite number. *)
Definition llround (v : float) : Z := Num.llround (exact v).

(** [static_cast<double>(n)] for a size below 2^53. *)
Definition of_nat (n : nat) : float := PrimFloat.of_uint63 (Uint63.of_Z (Z.of_nat n)).

(** ** Data model ([engine_types.h] and the structs of [ga_packer.cpp]) *)

Record Box := mkBox {
  box_id : string;
  box_w : float;
  box_h : float;
  box_d : float;
  box_weight : float;
  box_priority : Z
}.

Record Truck := mkTruck {
  truck_w : float;
  truck_h : float;
  truck_d : float;
  truck_max_weight : float
}.

Record Placement := mkPlacement {
  pl_id : string;
  pl_x : float;
  pl_y : float;
  pl_z : float;
  pl_w : float;
  pl_h : float;
  pl_d : float
}.

Record Result := mkResult {
  placed : list Placement;
  unplaced : list string;
  used_volume : float;
  total_volume : float;
  utilization : float;
  total_weight : float
}.

Record AABB := mkAABB {
  ax : float;
  ay : float;
  az : float;
  aw : float;
  ah : float;
  ad : float
}.

Record Candidate := mkCandidate {
  cx : float;
  cy : float;
  cz : float
}.

Record PlacedState := mkPlacedState {
  ps_box : AABB;
  ps_id : string;
  ps_weight : float;
  max_load : float;
  load_on_top : float
}.

(** ** Constants *)

Definition kEps : float := 1e-8.
Definition kMinSupportRatio : float := 0.90.
Definition kMaxStackMultiplier : float := 6.
Definition kMaxPressure : float := 2500.
(** The literals [1e-6], [1e-9] and [1e-12] of the source. *)
Definition yFaceEps : float := 1e-6.
Definition loadEps : float := 1e-9.
Definition volTieEps : float := 1e-12.

(** ** Geometry primitives *)

Definition volume (w h d : float) : float := w * h * d.

Definition intersects (a b : AABB) : bool :=
  let sep_x := leb (ax a + aw a) (ax b) || leb (ax b + aw b) (ax a) in
  let sep_y := leb (ay a + ah a) (ay b) || leb (ay b + ah b) (ay a) in
  let sep_z := leb (az a + ad a) (az b) || leb (az b + ad b) (az a) in
  negb (sep_x || sep_y || sep_z).

Definition inside_truck (t : Truck) (b : AABB) : bool :=
  leb 0 (ax b) && leb 0 (ay b) && leb 0 (az b)
  && leb (ax b + aw b) (truck_w t)
  && leb (ay b + ah b) (truck_h t)
  && leb (az b + ad b) (truck_d t).

Definition overlap_1d (a0 a1 b0 b1 : float) : float :=
  let lo := std_max a0 b0 in
  let hi := std_min a1 b1 in
  std_max 0 (hi - lo).

Definition overlap_area_xz (top bottom : AABB) : float :=
  let ox := overlap_1d (ax top) (ax top + aw top) (ax bottom) (ax bottom + aw bottom) in
  let oz := overlap_1d (az top) (az top + ad top) (az bottom) (az bottom + ad bottom) in
  ox * oz.

Definition point_in_overlap_xz (px pz : float) (top bottom : AABB) : bool :=
  let x0 := std_max (ax top) (ax bottom) in
  let x1 := std_min (ax top + aw top) (ax bottom + aw bottom) in
  let z0 := std_max (az top) (az bottom) in
  let z1 := std_min (az top + ad top) (az bottom + ad bottom) in
  leb x0 (px + kEps) && leb (px - kEps) x1
  && leb z0 (pz + kEps) && leb (pz - kEps) z1.

Definition max_load_for (weight base_area : float) : float :=
  let by_weight := weight * kMaxStackMultiplier in
  let by_pressure := base_area * kMaxPressure in
  std_max kEps (std_min by_weight by_pressure).

Definition set_load (s : PlacedState) (v : float) : PlacedState :=
  mkPlacedState (ps_box s) (ps_id s) (ps_weight s) (max_load s) v.

Definition default_state : PlacedState :=
  mkPlacedState (mkAABB 0 0 0 0 0 0) EmptyString 0 0 0.

(** [placed[idx]]. *)
Definition state_at (placed : list PlacedState) (idx : nat) : PlacedState :=
  nth idx placed default_state.

(** ** Support and crush kernel *)

Record SupportScan := mkScan {
  supported_area : float;
  centroid_supported : bool;
  supports : list (nat * float)
}.

(** The first loop of [support_ok_and_apply_load], at index [i] with the
    states [rest] still to visit. *)
Fixpoint scan_supports (candidate : AABB) (ccx ccz : float) (i : nat)
    (rest : list PlacedState) (acc : SupportScan) : SupportScan :=
  match rest with
  | [] => acc
  | s :: rest' =>
      let top_y := ay (ps_box s) + ah (ps_box s) in
      if ltb yFaceEps (abs (top_y - ay candidate))
      then scan_supports candidate ccx ccz (S i) rest' acc
      else
        let area := overlap_area_xz candidate (ps_box s) in
        if leb area kEps
        then scan_supports candidate ccx ccz (S i) rest' acc
        else
          scan_supports candidate ccx ccz (S i) rest'
            (mkScan (supported_area acc + area)
               (if negb (centroid_supported acc)
                   && point_in_overlap_xz ccx ccz candidate (ps_box s)
                then true else centroid_supported acc)
               (supports acc ++ [(i, area)]))
  end.

Definition load_share (weight base_area area : float) : float :=
  let share := std_min 1 (std_max 0 (area / base_area)) in
  weight * share.

(** The crush loop: [false] as soon as one support would exceed its budget. *)
Fixpoint crush_ok (weight base_area : float) (placed : list PlacedState)
    (sup : list (nat * float)) : bool :=
  match sup with
  | [] => true
  | (idx, area) :: sup' =>
      let added := load_share weight base_area area in
      if ltb (max_load (state_at placed idx) + loadEps)
              (load_on_top (state_at placed idx) + added)
      then false
      else crush_ok weight base_area placed sup'
  end.

(** The apply loop: the loads are added and logged in [applied]. *)
Fixpoint apply_loads (weight base_area : float) (sup : list (nat * float))
    (placed : list PlacedState) (applied : list (nat * float))
    : list PlacedState * list (nat * float) :=
  match sup with
  | [] => (placed, applied)
  | (idx, area) :: sup' =>
      let added := load_share weight base_area area in
      apply_loads weight base_area sup'
        (update_at idx (fun s => set_load s (load_on_top s + added)) placed)
        (applied ++ [(idx, added)])
  end.

Definition candidate_scan (candidate : AABB) (placed : list PlacedState) : SupportScan :=
  scan_supports candidate
    (ax candidate + aw candidate / 2) (az candidate + ad candidate / 2)
    0%nat placed (mkScan 0 false []).

(** The result is the returned flag, the vector [placed] after the call and
    what the call pushed on [*applied] (the caller passes an empty vector). *)
Definition support_ok_and_apply_load (candidate : AABB) (weight : float)
    (placed : list PlacedState) : bool * list PlacedState * list (nat * float) :=
  if leb (ay candidate) kEps then (true, placed, [])
  else
    let base_area := std_max kEps (aw candidate * ad candidate) in
    let sc := candidate_scan candidate placed in
    if negb (centroid_supported sc) then (false, placed, [])
    else if ltb (supported_area sc + loadEps) (kMinSupportRatio * base_area)
    then (false, placed, [])
    else if negb (crush_ok weight base_area placed (supports sc))
    then (false, placed, [])
    else
      let '(placed', applied) :=
        apply_loads weight base_area (supports sc) placed [] in
      (true, placed', applied).

Fixpoint rollback_loads (placed : list PlacedState) (applied : list (nat * float))
    : list PlacedState :=
  match applied with
  | [] => placed
  | (idx, added) :: applied' =>
      rollback_loads
        (update_at idx (fun s => set_load s (load_on_top s - added)) placed)
        applied'
  end.

(** ** Candidate point store *)

Definition quantize (v : float) : Z := llround (v * 100000).

Definition key (c : Candidate) : CandKey :=
  (quantize (cx c), quantize (cy c), quantize (cz c)).

(** The comparator of the [stable_sort] that precedes the truncation. *)
Definition cand_yzx_lt (a b : Candidate) : bool :=
  if negb (eqb (cy a) (cy b)) then ltb (cy a) (cy b)
  else if negb (eqb (cz a) (cz b)) then ltb (cz a) (cz b)
  else ltb (cx a) (cx b).

(** The [std::sort] by quantized key followed by [erase(unique(...))]. *)
Definition dedup_candidates (candidates : list Candidate) : list Candidate :=
  std_unique (fun a b => key_eq (key a) (key b))
    (stable_sort (fun a b => key_lt (key a) (key b)) candidates).

(** [candidates.resize(kMaxCandidates)] on a longer vector keeps its first
    [kMaxCandidates] elements. *)
Definition unique_candidates (candidates : list Candidate) : list Candidate :=
  let cs := dedup_candidates candidates in
  if (kMaxCandidates <? length cs)%nat
  then firstn kMaxCandidates (stable_sort cand_yzx_lt cs)
  else cs.

Definition add_candidate (candidates : list Candidate) (x y z : float) : list Candidate :=
  if ltb x (- kEps) || ltb y (- kEps) || ltb z (- kEps) then candidates
  else candidates ++ [mkCandidate x y z].

(** ** Constructive packer *)

Definition collides_any (placed : list PlacedState) (a : AABB) : bool :=
  existsb (fun p => intersects a (ps_box p)) placed.

Definition rots (box : Box) : list (float * float * float) :=
  [ (box_w box, box_h box, box_d box);
    (box_w box, box_d box, box_h box);
    (box_h box, box_w box, box_d box);
    (box_h box, box_d box, box_w box);
    (box_d box, box_w box, box_h box);
    (box_d box, box_h box, box_w box) ].

Definition better (a b : AABB) : bool :=
  if negb (eqb (ay a) (ay b)) then ltb (ay a) (ay b)
  else if negb (eqb (az a) (az b)) then ltb (az a) (az b)
  else ltb (ax a) (ax b).

(** The variables the candidate sweep of one box mutates. *)
Record Sweep := mkSweep {
  sw_found : bool;
  sw_best : AABB;
  sw_best_loads : list (nat * float);
  sw_placed : list PlacedState
}.

(** The body of the two nested loops for one candidate AABB. *)
Definition try_candidate (truck : Truck) (weight : float) (st : Sweep)
    (candidate : AABB) : Sweep :=
  if negb (inside_truck truck candidate) then st
  else if collides_any (sw_placed st) candidate then st
  else
    let '(ok, placed1, applied) :=
      support_ok_and_apply_load candidate weight (sw_placed st) in
    if negb ok
    then mkSweep (sw_found st) (sw_best st) (sw_best_loads st)
           (rollback_loads placed1 applied)
    else if negb (sw_found st) || better candidate (sw_best st)
    then mkSweep true candidate applied
           (if sw_found st then rollback_loads placed1 (sw_best_loads st)
            else placed1)
    else mkSweep (sw_found st) (sw_best st) (sw_best_loads st)
           (rollback_loads placed1 applied).

Definition oriented (cand : Candidate) (r : float * float * float) : AABB :=
  let '(r0, r1, r2) := r in
  mkAABB (cx cand) (cy cand) (cz cand) r0 r1 r2.

(** All tentative AABBs of a box, in the order the loops visit them. *)
Definition attempts (box : Box) (candidates : list Candidate) : list AABB :=
  flat_map (fun cand => map (oriented cand) (rots box)) candidates.

Definition sweep (truck : Truck) (box : Box) (candidates : list Candidate)
    (placed0 : list PlacedState) : Sweep :=
  fold_left (try_candidate truck (box_weight box)) (attempts box candidates)
    (mkSweep false (mkAABB 0 0 0 0 0 0) [] placed0).

(** The state of [pack_by_order] between two iterations of its main loop. *)
Record PackState := mkPackState {
  pk_result : Result;
  pk_placed : list PlacedState;
  pk_candidates : list Candidate;
  pk_remaining_weight : float
}.

Definition push_unplaced (r : Result) (id : string) : Result :=
  mkResult (placed r) (unplaced r ++ [id]) (used_volume r) (total_volume r)
    (utilization r) (total_weight r).

Definition push_placed (r : Result) (id : string) (best : AABB) (weight : float) : Result :=
  mkResult
    (placed r ++ [mkPlacement id (ax best) (ay best) (az best)
                    (aw best) (ah best) (ad best)])
    (unplaced r)
    (used_volume r + volume (aw best) (ah best) (ad best))
    (total_volume r) (utilization r) (total_weight r + weight).

Definition default_box : Box := mkBox EmptyString 0 0 0 0 0.

(** [boxes[idx]]; an [order] that is a permutation of the indices never
    reaches the default. *)
Definition box_at (boxes : list Box) (idx : N) : Box :=
  nth (N.to_nat idx) boxes default_box.

Definition pack_step (truck : Truck) (boxes : list Box) (st : PackState)
    (idx : N) : PackState :=
  let box := box_at boxes idx in
  if ltb (pk_remaining_weight st + loadEps) (box_weight box)
  then mkPackState (push_unplaced (pk_result st) (box_id box))
         (pk_placed st) (pk_candidates st) (pk_remaining_weight st)
  else
    let candidates := unique_candidates (pk_candidates st) in
    let sw := sweep truck box candidates (pk_placed st) in
    if negb (sw_found sw)
    then mkPackState (push_unplaced (pk_result st) (box_id box))
           (sw_placed sw) candidates (pk_remaining_weight st)
    else
      let best := sw_best sw in
      let placed1 :=
        sw_placed sw ++
        [mkPlacedState best (box_id box) (box_weight box)
           (max_load_for (box_weight box) (aw best * ad best)) 0] in
      let c1 := add_candidate candidates (ax best + aw best) (ay best) (az best) in
      let c2 := add_candidate c1 (ax best) (ay best) (az best + ad best) in
      let c3 := add_candidate c2 (ax best) (ay best + ah best) (az best) in
      mkPackState (push_placed (pk_result st) (box_id box) best (box_weight box))
        placed1 c3 (pk_remaining_weight st - box_weight box).

Definition pack_init (truck : Truck) (boxes : list Box) : PackState :=
  mkPackState
    (mkResult [] []
       0 (fold_left (fun acc box => acc + volume (box_w box) (box_h box) (box_d box)) boxes 0)
       0 0)
    [] [mkCandidate 0 0 0] (truck_max_weight truck).

(** The main loop, with the internal vectors still visible. *)
Definition pack_run (truck : Truck) (boxes : list Box) (order : list N) : PackState :=
  fold_left (pack_step truck boxes) order (pack_init truck boxes).

Definition finish (truck : Truck) (r : Result) : Result :=
  mkResult (placed r) (unplaced r) (used_volume r) (total_volume r)
    (if ltb 0 (truck_w truck * truck_h truck * truck_d truck)
     then used_volume r / (truck_w truck * truck_h truck * truck_d truck)
     else 0)
    (total_weight r).

Definition pack_by_order (truck : Truck) (boxes : list Box) (order : list N) : Result :=
  finish truck (pk_result (pack_run truck boxes order)).

Definition score_result (r : Result) : float :=
  utilization r * 100 - of_nat (length (unplaced r)) * 0.5.

(** ** GA driver *)

(** [std::mt19937], [std::uniform_real_distribution<double>(0, 1)],
    [std::uniform_int_distribution] on a closed range and [std::shuffle]
    belong to the standard library: the driver is parameterised by them,
    each call returning its value with the engine's next state. *)
Class RandomEngine := {
  rng : Type;
  mt19937 : N -> rng;
  uniform_real : rng -> float * rng;
  uniform_int : Z -> Z -> rng -> Z * rng;
  std_shuffle : list N -> rng -> list N * rng
}.

Record Individual := mkIndividual {
  ind_order : list N;
  ind_score : float;
  ind_result : Result
}.

Definition empty_result : Result := mkResult [] [] 0 0 0 0.

Definition default_individual : Individual := mkIndividual [] 0 empty_result.

(** The comparator of the heuristic seed. *)
Definition heuristic_lt (boxes : list Box) (a b : N) : bool :=
  let A := box_at boxes a in
  let B := box_at boxes b in
  let va := volume (box_w A) (box_h A) (box_d A) in
  let vb := volume (box_w B) (box_h B) (box_d B) in
  if ltb volTieEps (abs (va - vb)) then ltb vb va
  else (box_priority B <? box_priority A)%Z.

Definition heuristic_order (boxes : list Box) : list N :=
  stable_sort (heuristic_lt boxes) (base_order (length boxes)).

(** [x.score > y.score], the comparator of both sorts of the population. *)
Definition by_score_desc (x y : Individual) : bool :=
  ltb (ind_score y) (ind_score x).

Section Driver.
Context {RE : RandomEngine}.
Variable truck : Truck.
Variable boxes : list Box.

Definition evaluate (order : list N) : Individual :=
  let r := pack_by_order truck boxes order in
  mkIndividual order (score_result r) r.

Definition make_individual (shuffle : bool) (g : rng) : Individual * rng :=
  if shuffle
  then let '(order, g') := std_shuffle (base_order (length boxes)) g in
       (evaluate order, g')
  else (evaluate (heuristic_order boxes), g).

(** [while (pop.size() < population) pop.push_back(make_individual(true))]:
    one individual per iteration, [k] iterations left. *)
Fixpoint fill_random (k : nat) (pop : list Individual) (g : rng)
    : list Individual * rng :=
  match k with
  | O => (pop, g)
  | S k' =>
      let '(ind, g') := make_individual true g in
      fill_random k' (pop ++ [ind]) g'
  end.

Variable population : Z.

(** The tournament loop of [select_parent], [k] rounds left. *)
Fixpoint tournament (k : nat) (pop : list Individual)
    (best : option Individual) (g : rng) : option Individual * rng :=
  match k with
  | O => (best, g)
  | S k' =>
      let '(i, g') := uniform_int 0 (population - 1) g in
      let cand := nth (Z.to_nat i) pop default_individual in
      let best' :=
        match best with
        | None => Some cand
        | Some b => if ltb (ind_score b) (ind_score cand) then Some cand else Some b
        end in
      tournament k' pop best' g'
  end.

Definition select_parent (pop : list Individual) (g : rng) : Individual * rng :=
  let '(best, g') := tournament 3 pop None g in
  (match best with Some b => b | None => default_individual end, g').

Definition crossover (a b : Individual) (g : rng) : list N * rng :=
  let n := length boxes in
  let '(i, g1) := uniform_int 0 (Z.of_nat n - 1) g in
  let '(j, g2) := uniform_int 0 (Z.of_nat n - 1) g1 in
  let '(i, j) := if (j <? i)%Z then (j, i) else (i, j) in
  (crossover_at n (ind_order a) (ind_order b) (Z.to_nat i) (Z.to_nat j), g2).

Variable mutation_rate : float.

Definition mutate (order : list N) (g : rng) : list N * rng :=
  let '(u, g1) := uniform_real g in
  if ltb mutation_rate u then (order, g1)
  else
    let n := length boxes in
    let '(a, g2) := uniform_int 0 (Z.of_nat n - 1) g1 in
    let '(b, g3) := uniform_int 0 (Z.of_nat n - 1) g2 in
    (swap_at (Z.to_nat a) (Z.to_nat b) order, g3).

(** [while (next.size() < population)]: one child per iteration, [k] left. *)
Fixpoint offspring (k : nat) (pop next : list Individual) (g : rng)
    : list Individual * rng :=
  match k with
  | O => (next, g)
  | S k' =>
      let '(p1, g1) := select_parent pop g in
      let '(p2, g2) := select_parent pop g1 in
      let '(child, g3) := crossover p1 p2 g2 in
      let '(child', g4) := mutate child g3 in
      offspring k' pop (next ++ [evaluate child']) g4
  end.

Definition generation (pop : list Individual) (g : rng) : list Individual * rng :=
  let sorted := stable_sort by_score_desc pop in
  let elite := Z.max 1 (Z.quot population 10) in
  let next := firstn (Z.to_nat elite) sorted in
  offspring (Z.to_nat population - length next) sorted next g.

Fixpoint generations_loop (gens : nat) (pop : list Individual) (g : rng)
    : list Individual * rng :=
  match gens with
  | O => (pop, g)
  | S gens' =>
      let '(pop', g') := generation pop g in
      generations_loop gens' pop' g'
  end.

Definition initial_population (g : rng) : list Individual * rng :=
  let '(ind0, g0) := make_individual false g in
  fill_random (Z.to_nat population - 1) [ind0] g0.
End Driver.

Definition optimize_ga {RE : RandomEngine} (truck : Truck) (boxes : list Box)
    (population generations : Z) (mutation_rate : float) (seed : N) : Result :=
  match boxes with
  | [] => empty_result
  | _ :: _ =>
      let '(population, generations) :=
        cap_budget (length boxes) population generations in
      let '(pop, g) := initial_population truck boxes population (mt19937 seed) in
      let '(pop', _) :=
        generations_loop truck boxes population mutation_rate
          (Z.to_nat generations) pop g in
      ind_result (hd default_individual (stable_sort by_score_desc pop'))
  end.

(** The congruential engine of the exact model, its real numbers divided
    in binary64. *)
Module Lcg.

#[export] Instance engine : RandomEngine := {|
  rng := Z;
  mt19937 := fun seed => Z.of_N seed;
  uniform_real := fun g =>
    (PrimFloat.of_uint63 (Uint63.of_Z (g mod 1000)) / 1000, Lcg.next g);
  uniform_int := fun lo hi g => ((lo + g mod (hi - lo + 1))%Z, Lcg.next g);
  std_shuffle := fun l g =>
    (Lcg.rotate l (Z.to_nat (g mod Z.of_nat (length l))), Lcg.next g)
|}.

End Lcg.

(** ** Worked instances *)

(** Two boxes of 7e-9 kg before a box that weighs as much as the cap. *)
Definition heavy_truck : Truck := mkTruck 10 1 1 1e8.
Definition heavy_boxes : list Box :=
  [mkBox "a" 1 1 1 7e-9 1; mkBox "b" 1 1 1 7e-9 1; mkBox "c" 1 1 1 1e8 1].

(** A cube of side 1e103 in a truck of side 1e104. *)
Definition huge_truck : Truck := mkTruck 1e104 1e104 1e104 100.
Definition huge_boxes : list Box := [mkBox "a" 1e103 1e103 1e103 1 1].

End B64.

(** * Vocabulary of the properties *)

Definition frame (s : PlacedState) : AABB * string * Q * Q :=
  (ps_box s, ps_id s, ps_weight s, max_load s).





(** The weights of the placed boxes, in the order of their placement. *)
Definition placed_weights (l : list PlacedState) : list Q := map ps_weight l.

(** [remaining_weight] as the loop has it once boxes of the weights [ws]
    are placed: the cap, with the weights subtracted one after the other. *)
Definition remaining_after (t : Truck) (ws : list Q) : Q :=
  fold_left Qminus ws (truck_max_weight t).

(** [total_weight] as the loop has it: the weights added one after the
    other, from 0. *)
Definition running_total (ws : list Q) : Q := fold_left Qplus ws 0.

(** The running totals are the ones of the placed states, and every placed
    box found the guard [box.weight > remaining_weight + 1e-9] false when
    its turn came. *)
Definition weight_guarded (t : Truck) (st : PackState) : Prop :=
  map ps_id (pk_placed st) = map pl_id (placed (pk_result st))
  /\ total_weight (pk_result st) = running_total (placed_weights (pk_placed st))
  /\ pk_remaining_weight st = remaining_after t (placed_weights (pk_placed st))
  /\ forall k w, nth_error (placed_weights (pk_placed st)) k = Some w ->
       Qltb (remaining_after t (firstn k (placed_weights (pk_placed st))) + loadEps) w
       = false.

(** Some support would carry more than its budget, with the slack. *)
Definition crush_exceeded (weight base_area : Q) (placed : list PlacedState)
    (sup : list (nat * Q)) : Prop :=
  exists idx area,
    In (idx, area) sup
    /\ max_load (state_at placed idx) + loadEps
       < load_on_top (state_at placed idx) + load_share weight base_area area.

Definition within_budget (s : PlacedState) : Prop :=
  load_on_top s <= max_load s + loadEps.

Definition nonneg_loads (applied : list (nat * Q)) : Prop :=
  Forall (fun p => 0 <= snd p) applied.

Definition nonneg_weights (boxes : list Box) : Prop :=
  Forall (fun b => 0 <= box_weight b) boxes.

(** The budget recorded with a placed state is the one [max_load_for]
    gives for its weight and the area of the top face of its box. *)
Definition budget_recorded (s : PlacedState) : Prop :=
  max_load s = max_load_for (ps_weight s) (aw (ps_box s) * ad (ps_box s)).




Definition cand_key_lt (a b : Candidate) : bool := key_lt (key a) (key b).
Definition cand_key_eq (a b : Candidate) : bool := key_eq (key a) (key b).

Definition key_below (a b : Candidate) : Prop := cand_key_lt a b = true.

(** Empty slots filled left to right with the genes of a list. *)
Fixpoint fill_slots (child genes : list N) : list N :=
  match child with
  | [] => []
  | c :: r =>
      if N.eqb c npos
      then match genes with
           | [] => c :: r
           | g :: genes' => g :: fill_slots r genes'
           end
      else c :: fill_slots r genes
  end.

Definition filled (c : N) : Prop := c <> npos.

Definition fresh_gene (used : list N) (g : N) : bool := negb (used_mem g used).

(** The slice of parent [a] that the child inherits. *)
Definition slice (a : list N) (i j : nat) : list N := firstn (S j - i) (skipn i a).

(** The genes of parent [b] that are not in the slice, in [b]'s order. *)
Definition remainder (a b : list N) (i j : nat) : list N :=
  filter (fun g => negb (used_mem g (slice a i j))) b.

Definition reported_ids (r : Result) : list string :=
  map pl_id (placed r) ++ unplaced r.

Definition loads_within (l : list PlacedState) : Prop := Forall within_budget l.

(** [x] may stay in front of [y] under the strict comparator [lt]. *)
Definition not_after {A : Type} (lt : A -> A -> bool) (x y : A) : Prop :=
  lt y x = false.

(** The individual was produced by evaluating some order with the packer. *)
Definition evaluated (truck : Truck) (boxes : list Box) (ind : Individual) : Prop :=
  exists order, ind = evaluate truck boxes order.

(** Extents of at most 1e100 in magnitude: the volumes of such boxes and
    trucks are finite on the machine, and no score computed from them is
    NaN. *)
Definition moderate (v : Q) : Prop := Qabs v <= inject_Z (10 ^ 100).

Definition moderate_box (b : Box) : Prop :=
  moderate (box_w b) /\ moderate (box_h b) /\ moderate (box_d b).

Definition moderate_truck (t : Truck) : Prop :=
  moderate (truck_w t) /\ moderate (truck_h t) /\ moderate (truck_d t).

(** Some individual of the population scores at least [s]. *)
Definition reaches (s : Q) (pop : list Individual) : Prop :=
  exists ind, In ind pop /\ s <= ind_score ind.

(** ** Worked instances *)

Module Scenario.

Local Open Scope string_scope.

(** A floor box [A] carrying [C]; box [B] then has two spots on top of [A]. *)
Definition stack_truck : Truck := mkTruck 2 3 2 100.
Definition stack_boxes : list Box :=
  [mkBox "A" 2 1 2 1 1; mkBox "C" 1 1 1 2 1; mkBox "B" 1 1 1 3 1].
Definition stack_order : list N := [0%N; 1%N; 2%N].

(** A box of weight 1 under a box of weight [6 + 5e-10]. *)
Definition slack_truck : Truck := mkTruck 1 2 1 100.
Definition slack_boxes : list Box :=
  [mkBox "A" 1 1 1 1 1; mkBox "B" 1 1 1 (12000000001 # 2000000000) 1].
Definition slack_order : list N := [0%N; 1%N].

(** Two boxes with the same id. *)
Definition twin_truck : Truck := mkTruck 2 1 1 10.
Definition twin_boxes : list Box := [mkBox "A" 1 1 1 1 1; mkBox "A" 1 1 1 1 1].

(** Three unit boxes of weight 1 for a cap of 2. *)
Definition cap_truck : Truck := mkTruck 10 1 1 2.
Definition cap_boxes : list Box :=
  [mkBox "a" 1 1 1 1 1; mkBox "b" 1 1 1 1 1; mkBox "c" 1 1 1 1 1].


(** The floor is covered by [A], which carries [C]; a third box [B] of
    weight 5 has no place on the floor, is too heavy for [A] and too high
    on [C]. *)
Definition low_truck : Truck := mkTruck 2 2 2 100.
Definition low_boxes : list Box :=
  [mkBox "A" 2 1 2 1 1; mkBox "C" 1 1 1 2 1; mkBox "B" 1 1 1 5 1].

End Scenario.
Import Scenario.

(** Valid inputs: positive extents, a positive weight cap, non-negative
    weights. *)
Definition valid_truck (t : Truck) : Prop :=
  0 < truck_w t /\ 0 < truck_h t /\ 0 < truck_d t /\ 0 < truck_max_weight t.

Definition valid_box (b : Box) : Prop :=
  0 < box_w b /\ 0 < box_h b /\ 0 < box_d b /\ 0 <= box_weight b.

(** The bound of the crush rule without the floor [1e-8] and the slack. *)
Definition strict_budget (s : PlacedState) : Q :=
  std_min (ps_weight s * 6) (aw (ps_box s) * ad (ps_box s) * 2500).

(** ** Vocabulary of the further properties *)

(** The elements of [l] whose flag in [mask] is set, in their order. *)
Fixpoint pick {A : Type} (mask : list bool) (l : list A) : list A :=
  match mask, l with
  | m :: mask', x :: l' => if m then x :: pick mask' l' else pick mask' l'
  | _, _ => []
  end.

Definition id_at (boxes : list Box) (idx : N) : string := box_id (box_at boxes idx).


(** [used_volume] as the loop accumulates it: the volumes of the
    placements added one after the other, from 0. *)
Definition running_volume (ps : list Placement) : Q :=
  fold_left (fun acc p => acc + volume (pl_w p) (pl_h p) (pl_d p)) ps 0.

(** The totals of the result against its placements and the input. *)
Definition volume_accounted (boxes : list Box) (r : Result) : Prop :=
  used_volume r = running_volume (placed r)
  /\ total_volume r
     = fold_left (fun acc box => acc + volume (box_w box) (box_h box) (box_d box))
         boxes 0.

(** The two support tests of the kernel for a box [c] resting on the states
    [below]: the centroid lies over some support and the supports cover
    the required share of the base. *)
Definition well_supported (c : AABB) (below : list PlacedState) : Prop :=
  centroid_supported (candidate_scan c below) = true
  /\ kMinSupportRatio * std_max kEps (aw c * ad c)
     <= supported_area (candidate_scan c below) + loadEps.

(** Every placed state above the floor passes the support tests against the
    states placed before it. *)
Definition supports_recorded (l : list PlacedState) : Prop :=
  forall (k : nat) (s : PlacedState),
    nth_error l k = Some s -> kEps < ay (ps_box s) ->
    well_supported (ps_box s) (firstn k l).

(** The first candidate point, and the first orientation of a box that fits
    in the truck when put there. *)
Definition origin : Candidate := mkCandidate 0 0 0.

Definition first_fit (t : Truck) (box : Box) : option (Q * Q * Q) :=
  find (fun r => inside_truck t (oriented origin r)) (rots box).

(** What the C++ standard promises of the distributions: a value of the
    closed range, and a rearrangement of the range given to [std::shuffle]. *)
Class LawfulEngine (RE : RandomEngine) : Prop := {
  uniform_int_range :
    forall (lo hi : Z) (g : rng),
      (lo <= hi)%Z -> (lo <= fst (uniform_int lo hi g) <= hi)%Z;
  std_shuffle_perm :
    forall (l : list N) (g : rng), Permutation (fst (std_shuffle l g)) l
}.

(** An individual whose order is a permutation of the box indices and whose
    score and result are those of packing that order. *)
Definition valid_individual (truck : Truck) (boxes : list Box) (ind : Individual) : Prop :=
  Permutation (ind_order ind) (base_order (length boxes))
  /\ ind = evaluate truck boxes (ind_order ind).

(** The number of individuals copied unchanged into the next generation. *)
Definition elite_count (population : Z) : nat :=
  Z.to_nat (Z.max 1 (Z.quot population 10)).




(** ** The viewer's load order *)

(** [carries items b t]: the loops of [buildSupportAwareLoadOrder] link
    index [b] to index [t], that is, box [t] is off the floor and its base
    lies on the top face of another box [b], over more than
    [minSupportArea]. *)
Definition carries (items : list Item) (b t : nat) : bool :=
  negb (Qleb (it_y (nth t items default_item)) viewer_yEps)
  && (negb (Nat.eqb b t)
      && rests_on (nth t items default_item) (nth b items default_item)).

(** [b] comes before [t] in the list. *)
Definition precedes (l : list nat) (b t : nat) : Prop :=
  exists l1 l2 l3, l = l1 ++ b :: l2 ++ t :: l3.

(** The indices linked to [t] that are not yet in [ordered]. *)
Definition waiting (items : list Item) (ordered : list nat) (t : nat) : list nat :=
  filter (fun b => carries items b t && negb (existsb (Nat.eqb b) ordered))
    (seq 0 (length items)).

(** What the loop of [buildSupportAwareLoadOrder] keeps: no index is
    listed twice, every counter counts the supporters that are still to
    come, an index is listed once none is, and every listed index comes
    after the indices linked to it. *)
Definition kahn_ok (items : list Item) (st : Kahn) : Prop :=
  NoDup (orderedIndices st ++ k_available st)
  /\ (forall x, In x (orderedIndices st ++ k_available st) -> (x < length items)%nat)
  /\ length (k_inDegree st) = length items
  /\ (forall t, (t < length items)%nat ->
        nth t (k_inDegree st) 0%Z
        = Z.of_nat (length (waiting items (orderedIndices st) t)))
  /\ (forall t, (t < length items)%nat ->
        In t (orderedIndices st ++ k_available st)
        <-> waiting items (orderedIndices st) t = [])
  /\ (forall b t, (b < length items)%nat -> carries items b t = true ->
        In t (orderedIndices st) -> precedes (orderedIndices st) b t).

(** ** Attempts that fit *)

(** [fits t weight placed c]: the tentative box [c] passes the three tests
    of the inner loop of [pack_by_order] against the placed states: it is
    inside the truck, it meets no placed box, and the support kernel
    accepts it. *)
Definition fits (t : Truck) (weight : Q) (placed : list PlacedState) (c : AABB) : bool :=
  inside_truck t c
  && negb (collides_any placed c)
  && fst (fst (support_ok_and_apply_load c weight placed)).

(** ** Extreme points *)

(** [(x, y, z)] is the corner of the truck or one of the three points that
    [pack_by_order] records for a placement of [ps]: next to it along x,
    next to it along z, on top of it. *)
Definition extreme_point (ps : list Placement) (x y z : Q) : Prop :=
  (x = 0 /\ y = 0 /\ z = 0)
  \/ exists q, In q ps
       /\ ((x = pl_x q + pl_w q /\ y = pl_y q /\ z = pl_z q)
           \/ (x = pl_x q /\ y = pl_y q /\ z = pl_z q + pl_d q)
           \/ (x = pl_x q /\ y = pl_y q + pl_h q /\ z = pl_z q)).

(** Every candidate point is an extreme point of the placements, and every
    placement sits at an extreme point of the placements before it. *)
Definition extreme_ok (st : PackState) : Prop :=
  (forall c, In c (pk_candidates st) ->
     extreme_point (placed (pk_result st)) (cx c) (cy c) (cz c))
  /\ (forall k p, nth_error (placed (pk_result st)) k = Some p ->
        extreme_point (firstn k (placed (pk_result st))) (pl_x p) (pl_y p) (pl_z p)).

(** * Properties *)

(** ** Comparisons on [Q] *)

Lemma Qleb_le (a b : Q) : Qleb a b = true <-> a <= b.
Proof. unfold Qleb. apply Qle_bool_iff. Qed.

Lemma Qleb_gt (a b : Q) : Qleb a b = false <-> b < a.
Proof.
  unfold Qleb. split; intro H.
  - apply Qnot_le_lt. intro Hle. apply Qle_bool_iff in Hle. congruence.
  - destruct (Qle_bool a b) eqn:E; [|reflexivity].
    apply Qle_bool_iff in E. exfalso. exact (Qlt_not_le _ _ H E).
Qed.

Lemma Qltb_lt (a b : Q) : Qltb a b = true <-> a < b.
Proof.
  unfold Qltb. rewrite negb_true_iff. apply (Qleb_gt b a).
Qed.

Lemma Qltb_ge (a b : Q) : Qltb a b = false <-> b <= a.
Proof.
  unfold Qltb. rewrite negb_false_iff. apply (Qleb_le b a).
Qed.

Lemma std_max_lub (a b : Q) : a <= std_max a b /\ b <= std_max a b.
Proof.
  unfold std_max. destruct (Qltb a b) eqn:E.
  - apply Qltb_lt in E. split; lra.
  - apply Qltb_ge in E. split; lra.
Qed.

Lemma std_min_glb (a b : Q) : std_min a b <= a /\ std_min a b <= b.
Proof.
  unfold std_min. destruct (Qltb b a) eqn:E.
  - apply Qltb_lt in E. split; lra.
  - apply Qltb_ge in E. split; lra.
Qed.

(** ** Loops as folds *)

Lemma fold_left_invariant {S X : Type} (P : S -> Prop) (f : S -> X -> S)
    (l : list X) (s : S) :
  P s -> (forall st x, In x l -> P st -> P (f st x)) -> P (fold_left f l s).
Proof.
  revert s. induction l as [|x l IH]; intros s Hs Hstep; simpl.
  - exact Hs.
  - apply IH.
    + apply Hstep; [left; reflexivity | exact Hs].
    + intros st y Hy. apply Hstep. right. exact Hy.
Qed.

(** ** What load updates leave alone *)

Lemma update_at_length {A : Type} (idx : nat) (f : A -> A) (l : list A) :
  length (update_at idx f l) = length l.
Proof.
  revert idx. induction l as [|s r IH]; intros [|k]; simpl; auto.
Qed.

Lemma update_at_map {A B : Type} (g : A -> B) (idx : nat) (f : A -> A) (l : list A) :
  (forall s, g (f s) = g s) -> map g (update_at idx f l) = map g l.
Proof.
  intro Hf. revert idx. induction l as [|s r IH]; intros [|k]; simpl; auto.
  - now rewrite Hf.
  - now rewrite IH.
Qed.

Lemma update_at_nth {A : Type} (idx k : nat) (f : A -> A) (l : list A) (dflt : A) :
  nth k (update_at idx f l) dflt =
  if (Nat.eqb k idx && (k <? length l)%nat)%bool then f (nth k l dflt) else nth k l dflt.
Proof.
  revert idx k. induction l as [|s r IH]; intros idx k.
  - simpl. rewrite andb_false_r. now destruct idx, k.
  - destruct idx as [|i], k as [|k]; simpl; auto.
Qed.

Lemma rollback_loads_frame (applied : list (nat * Q)) (l : list PlacedState) :
  map frame (rollback_loads l applied) = map frame l.
Proof.
  revert l. induction applied as [|[idx added] r IH]; intro l; simpl; auto.
  rewrite IH. now apply update_at_map.
Qed.

Lemma apply_loads_frame (w ba : Q) (sup : list (nat * Q)) (l : list PlacedState)
    (acc : list (nat * Q)) :
  map frame (fst (apply_loads w ba sup l acc)) = map frame l.
Proof.
  revert l acc. induction sup as [|[idx area] r IH]; intros l acc; simpl; auto.
  rewrite IH. now apply update_at_map.
Qed.

Lemma support_frame (c : AABB) (w : Q) (l : list PlacedState) :
  map frame (snd (fst (support_ok_and_apply_load c w l))) = map frame l.
Proof.
  unfold support_ok_and_apply_load.
  destruct (Qleb (ay c) kEps); simpl; auto.
  destruct (negb _); simpl; auto.
  destruct (Qltb _ _); simpl; auto.
  destruct (negb _); simpl; auto.
  destruct (apply_loads _ _ _ l []) as [p a] eqn:E. simpl.
  change p with (fst (p, a)). rewrite <- E. apply apply_loads_frame.
Qed.

Lemma frame_boxes (l l' : list PlacedState) :
  map frame l = map frame l' -> map ps_box l = map ps_box l'.
Proof.
  intro H.
  assert (E : forall m, map ps_box m = map (fun t => fst (fst (fst t))) (map frame m)).
  { intro m. rewrite map_map. reflexivity. }
  rewrite (E l), (E l'), H. reflexivity.
Qed.

Lemma collides_any_boxes (l : list PlacedState) (a : AABB) :
  collides_any l a = existsb (intersects a) (map ps_box l).
Proof.
  unfold collides_any. induction l as [|s r IH]; simpl; auto. now rewrite IH.
Qed.

(** ** The candidate sweep *)

Ltac case_try_candidate t w st c E :=
  unfold try_candidate;
  let Hin := fresh "Hinside" in
  let Hcol := fresh "Hcollide" in
  destruct (inside_truck t c) eqn:Hin; simpl negb; cbv iota;
  [ destruct (collides_any (sw_placed st) c) eqn:Hcol;
    [ | destruct (support_ok_and_apply_load c w (sw_placed st))
          as [[?ok ?placed1] ?applied] eqn:E;
        destruct ok; simpl negb; cbv iota;
        [ destruct (negb (sw_found st) || better c (sw_best st)) | ] ]
  | ].

Lemma try_candidate_frame (t : Truck) (w : Q) (st : Sweep) (c : AABB) :
  map frame (sw_placed (try_candidate t w st c)) = map frame (sw_placed st).
Proof.
  assert (Hs := support_frame c w (sw_placed st)).
  case_try_candidate t w st c E; simpl; auto; simpl in Hs.
  - destruct (sw_found st); auto. now rewrite rollback_loads_frame.
  - now rewrite rollback_loads_frame.
  - now rewrite rollback_loads_frame.
Qed.

Lemma sweep_frame (t : Truck) (box : Box) (cs : list Candidate)
    (placed0 : list PlacedState) :
  map frame (sw_placed (sweep t box cs placed0)) = map frame placed0.
Proof.
  unfold sweep.
  apply (fold_left_invariant
           (fun st => map frame (sw_placed st) = map frame placed0)).
  - reflexivity.
  - intros st c _ H. now rewrite try_candidate_frame.
Qed.

(** An accepted placement passed the containment and the collision test,
    and is one of the tentative AABBs of the box. *)
Lemma sweep_best_checked (t : Truck) (box : Box) (cs : list Candidate)
    (placed0 : list PlacedState) :
  let sw := sweep t box cs placed0 in
  sw_found sw = true ->
  inside_truck t (sw_best sw) = true
  /\ collides_any placed0 (sw_best sw) = false
  /\ In (sw_best sw) (attempts box cs).
Proof.
  unfold sweep.
  apply (fold_left_invariant
           (fun st => map frame (sw_placed st) = map frame placed0 /\
                      (sw_found st = true ->
                       inside_truck t (sw_best st) = true
                       /\ collides_any placed0 (sw_best st) = false
                       /\ In (sw_best st) (attempts box cs)))).
  - split; [reflexivity | discriminate].
  - intros st c Hc [Hfr Hbest]. split.
    + now rewrite try_candidate_frame.
    + assert (Hcol' : collides_any (sw_placed st) c = collides_any placed0 c).
      { rewrite !collides_any_boxes. now rewrite (frame_boxes _ _ Hfr). }
      case_try_candidate t (box_weight box) st c E; simpl; auto.
Qed.

(** ** Non-overlap *)








(** ** Weight guard *)

Lemma frame_weights (l l' : list PlacedState) :
  map frame l = map frame l' ->
  placed_weights l = placed_weights l' /\ map ps_id l = map ps_id l'.
Proof.
  intro H.
  assert (Ew : forall m, placed_weights m = map (fun f => snd (fst f)) (map frame m)).
  { intro m. unfold placed_weights. rewrite map_map. reflexivity. }
  assert (Ei : forall m, map ps_id m = map (fun f => snd (fst (fst f))) (map frame m)).
  { intro m. rewrite map_map. reflexivity. }
  split.
  - rewrite (Ew l), (Ew l'), H. reflexivity.
  - rewrite (Ei l), (Ei l'), H. reflexivity.
Qed.

Lemma pack_step_guarded (t : Truck) (boxes : list Box) (st : PackState) (idx : N) :
  weight_guarded t st -> weight_guarded t (pack_step t boxes st idx).
Proof.
  intros (Hid & Htot & Hrem & Hguard). unfold pack_step.
  destruct (Qltb (pk_remaining_weight st + loadEps) (box_weight (box_at boxes idx)))
    eqn:Hw.
  { split; [exact Hid|]. split; [exact Htot|]. split; [exact Hrem|exact Hguard]. }
  set (cs := unique_candidates (pk_candidates st)).
  set (box := box_at boxes idx) in *.
  destruct (frame_weights _ _ (sweep_frame t box cs (pk_placed st))) as [Hws Hids].
  destruct (sw_found (sweep t box cs (pk_placed st))); cbn [negb]; cbv iota zeta;
    unfold weight_guarded;
    cbn [pk_placed pk_result pk_remaining_weight push_placed push_unplaced placed
         total_weight].
  - unfold placed_weights in *. rewrite !map_app, Hws, Hids. cbn [map ps_weight ps_id pl_id].
    split; [now rewrite Hid|]. split; [|split].
    + unfold running_total in *. rewrite fold_left_app. cbn [fold_left]. now rewrite Htot.
    + unfold remaining_after in *. rewrite fold_left_app. cbn [fold_left]. now rewrite Hrem.
    + intros k w Hk.
      destruct (Nat.lt_ge_cases k (length (map ps_weight (pk_placed st)))) as [Hlt|Hge].
      * rewrite nth_error_app1 in Hk by exact Hlt.
        rewrite firstn_app.
        replace (k - length (map ps_weight (pk_placed st)))%nat with 0%nat by lia.
        cbn [firstn]. rewrite app_nil_r. now apply Hguard.
      * rewrite nth_error_app2 in Hk by exact Hge.
        destruct (k - length (map ps_weight (pk_placed st)))%nat as [|k'] eqn:Hd;
          [|destruct k'; discriminate].
        cbn [nth_error] in Hk. injection Hk as <-.
        assert (Hk : k = length (map ps_weight (pk_placed st))) by lia.
        rewrite Hk, firstn_app, firstn_all, Nat.sub_diag. cbn [firstn].
        rewrite app_nil_r, <- Hrem. exact Hw.
  - rewrite Hws, Hids. split; [exact Hid|]. split; [exact Htot|].
    split; [exact Hrem|exact Hguard].
Qed.

Lemma pack_run_guarded (t : Truck) (boxes : list Box) (order : list N) :
  weight_guarded t (pack_run t boxes order).
Proof.
  unfold pack_run. apply fold_left_invariant.
  - split; [reflexivity|]. split; [reflexivity|]. split; [reflexivity|].
    intros [|k] w H; discriminate.
  - intros st idx _. apply pack_step_guarded.
Qed.

(** C1, as amended.  Every box placed by [pack_by_order] found the guard
    [box.weight > remaining_weight + 1e-9] false at its turn, where
    [remaining_weight] is [truck.max_weight] with the weights of the boxes
    placed before it subtracted one after the other, as the loop computes
    it; the reported [total_weight] is the weights of the placed boxes
    added one after the other; and a box that finds the guard true only has
    its id pushed on [unplaced]: the placements, the placed states with
    their loads, the candidates and the budget stay as they were. *)
Theorem pack_by_order_weight_guard (t : Truck) (boxes : list Box) (order : list N) :
  let ws := placed_weights (pk_placed (pack_run t boxes order)) in
  map ps_id (pk_placed (pack_run t boxes order))
  = map pl_id (placed (pack_by_order t boxes order))
  /\ total_weight (pack_by_order t boxes order) = running_total ws
  /\ (forall k w, nth_error ws k = Some w ->
        Qltb (remaining_after t (firstn k ws) + loadEps) w = false)
  /\ (forall (st : PackState) (idx : N),
        Qltb (pk_remaining_weight st + loadEps) (box_weight (box_at boxes idx)) = true ->
        unplaced (pk_result (pack_step t boxes st idx))
        = unplaced (pk_result st) ++ [box_id (box_at boxes idx)]
        /\ placed (pk_result (pack_step t boxes st idx)) = placed (pk_result st)
        /\ pk_placed (pack_step t boxes st idx) = pk_placed st
        /\ pk_candidates (pack_step t boxes st idx) = pk_candidates st
        /\ pk_remaining_weight (pack_step t boxes st idx) = pk_remaining_weight st).
Proof.
  intro ws. subst ws.
  destruct (pack_run_guarded t boxes order) as (Hid & Htot & _ & Hguard).
  split; [exact Hid|]. split; [exact Htot|]. split; [exact Hguard|].
  intros st idx Hheavy. unfold pack_step. rewrite Hheavy.
  cbn [pk_result pk_placed pk_candidates pk_remaining_weight push_unplaced
       placed unplaced].
  repeat split.
Qed.

(** ** The kernel is transactional *)

Lemma crush_ok_false_iff (w ba : Q) (placed : list PlacedState) (sup : list (nat * Q)) :
  crush_ok w ba placed sup = false <-> crush_exceeded w ba placed sup.
Proof.
  unfold crush_exceeded. induction sup as [|[idx area] r IH]; simpl.
  - split; [discriminate | intros (? & ? & [] & _)].
  - destruct (Qltb _ _) eqn:E.
    + split; [|reflexivity]. intros _. exists idx, area.
      apply Qltb_lt in E. auto.
    + rewrite IH. split.
      * intros (i & a & Hin & H). exists i, a. auto.
      * intros (i & a & [Heq|Hin] & H).
        -- injection Heq as <- <-. apply Qltb_lt in H. congruence.
        -- exists i, a. auto.
Qed.

Lemma crush_ok_true (w ba : Q) (placed : list PlacedState) (sup : list (nat * Q)) :
  crush_ok w ba placed sup = true ->
  forall idx area, In (idx, area) sup ->
  load_on_top (state_at placed idx) + load_share w ba area
    <= max_load (state_at placed idx) + loadEps.
Proof.
  intros Hok idx area Hin.
  apply Qnot_lt_le. intro Hlt.
  assert (Hf : crush_ok w ba placed sup = false).
  { apply crush_ok_false_iff. exists idx, area. auto. }
  congruence.
Qed.

Lemma support_failure_no_mutation (c : AABB) (w : Q) (placed : list PlacedState) :
  fst (fst (support_ok_and_apply_load c w placed)) = false ->
  support_ok_and_apply_load c w placed = (false, placed, []).
Proof.
  unfold support_ok_and_apply_load.
  destruct (Qleb (ay c) kEps); [discriminate|].
  destruct (negb (centroid_supported _)); [reflexivity|].
  destruct (Qltb _ _); [reflexivity|].
  destruct (negb (crush_ok _ _ _ _)); [reflexivity|].
  destruct (apply_loads _ _ _ _ _). discriminate.
Qed.

(** C5.  For a candidate above the floor ([y > 1e-8]): when the centroid
    test fails, or the 90% coverage test fails, or some support's crush
    check fails, the call returns failure with [placed] itself, every
    [load_on_top] as before, and nothing logged; loads are committed only on
    success: whenever the call returns failure, [placed] is returned
    unchanged, and a successful call passed all three tests. *)
Theorem support_ok_and_apply_load_transactional (c : AABB) (w : Q)
    (placed : list PlacedState) :
  kEps < ay c ->
  let base_area := std_max kEps (aw c * ad c) in
  let sc := candidate_scan c placed in
  let failing :=
    centroid_supported sc = false
    \/ supported_area sc + loadEps < kMinSupportRatio * base_area
    \/ crush_exceeded w base_area placed (supports sc) in
  (failing -> support_ok_and_apply_load c w placed = (false, placed, []))
  /\ (fst (fst (support_ok_and_apply_load c w placed)) = false ->
      support_ok_and_apply_load c w placed = (false, placed, []))
  /\ (fst (fst (support_ok_and_apply_load c w placed)) = true -> ~ failing).
Proof.
  intros Hy base_area sc failing.
  assert (Hfloor : Qleb (ay c) kEps = false) by now apply Qleb_gt.
  assert (Hiff : failing <-> fst (fst (support_ok_and_apply_load c w placed)) = false).
  { unfold failing, support_ok_and_apply_load. rewrite Hfloor.
    fold base_area. fold sc.
    rewrite <- crush_ok_false_iff, <- Qltb_lt.
    destruct (centroid_supported sc); simpl.
    - destruct (Qltb _ _); simpl.
      + intuition congruence.
      + destruct (crush_ok _ _ _ _); simpl.
        * destruct (apply_loads _ _ _ _ _). simpl. intuition congruence.
        * intuition congruence.
    - intuition congruence. }
  split; [|split].
  - intro Hf. apply support_failure_no_mutation. now apply Hiff.
  - apply support_failure_no_mutation.
  - intros Hok Hf. apply Hiff in Hf. congruence.
Qed.

(** ** Crush budget *)

Lemma Forall_update_at {A : Type} (P : A -> Prop) (idx : nat) (f : A -> A)
    (l : list A) (dflt : A) :
  Forall P l -> ((idx < length l)%nat -> P (f (nth idx l dflt))) ->
  Forall P (update_at idx f l).
Proof.
  intro H. revert idx. induction H as [|s r Hs Hr IH]; intros idx Hf.
  - destruct idx; constructor.
  - destruct idx as [|k]; simpl.
    + constructor; [apply Hf; simpl; lia | exact Hr].
    + constructor; [exact Hs|]. apply IH. intro Hk. apply Hf. simpl. lia.
Qed.

Lemma rollback_loads_within (applied : list (nat * Q)) (l : list PlacedState) :
  nonneg_loads applied -> loads_within l -> loads_within (rollback_loads l applied).
Proof.
  intro Hnn. revert l. induction Hnn as [|[idx added] r Hadd Hr IH]; intros l Hl; simpl.
  - exact Hl.
  - apply IH. apply (Forall_update_at _ _ _ _ default_state); [exact Hl|].
    intro Hidx. unfold loads_within in Hl. rewrite Forall_forall in Hl.
    specialize (Hl (nth idx l default_state) (nth_In _ _ Hidx)).
    unfold within_budget in *. simpl in *. lra.
Qed.

Lemma load_share_nonneg (w ba area : Q) : 0 <= w -> 0 <= load_share w ba area.
Proof.
  intro Hw. unfold load_share.
  apply Qmult_le_0_compat; [exact Hw|].
  unfold std_min. destruct (Qltb _ _); [|lra].
  apply (std_max_lub 0 (area / ba)).
Qed.

Lemma apply_loads_log (w ba : Q) (sup : list (nat * Q)) (l : list PlacedState)
    (acc : list (nat * Q)) :
  snd (apply_loads w ba sup l acc)
  = acc ++ map (fun p => (fst p, load_share w ba (snd p))) sup.
Proof.
  revert l acc. induction sup as [|[idx area] r IH]; intros l acc; simpl.
  - now rewrite app_nil_r.
  - rewrite IH, <- app_assoc. reflexivity.
Qed.

Lemma apply_loads_within (w ba : Q) (orig : list PlacedState) (sup : list (nat * Q)) :
  forall (cur : list PlacedState) (acc : list (nat * Q)),
  NoDup (map fst sup) ->
  loads_within cur ->
  (forall idx area, In (idx, area) sup ->
     load_on_top (state_at cur idx) + load_share w ba area
       <= max_load (state_at cur idx) + loadEps) ->
  loads_within (fst (apply_loads w ba sup cur acc)).
Proof.
  induction sup as [|[idx area] r IH]; intros cur acc Hnd Hcur Hroom; simpl.
  - exact Hcur.
  - inversion Hnd as [|? ? Hnotin Hnd']; subst.
    apply IH; [exact Hnd'| |].
    + apply (Forall_update_at _ _ _ _ default_state); [exact Hcur|].
      intros _. unfold within_budget. simpl.
      apply (Hroom idx area). now left.
    + intros idx' area' Hin. unfold state_at. rewrite update_at_nth.
      destruct (Nat.eqb idx' idx) eqn:E.
      * apply Nat.eqb_eq in E. subst idx'. exfalso. apply Hnotin.
        change idx with (fst (idx, area')). now apply in_map.
      * simpl. apply (Hroom idx' area'). now right.
Qed.

Lemma scan_supports_indices (c : AABB) (ccx ccz : Q) (rest : list PlacedState) :
  forall (i : nat) (acc : SupportScan),
  NoDup (map fst (supports acc)) ->
  (forall k, In k (map fst (supports acc)) -> (k < i)%nat) ->
  NoDup (map fst (supports (scan_supports c ccx ccz i rest acc))).
Proof.
  induction rest as [|s r IH]; intros i acc Hnd Hlt; simpl.
  - exact Hnd.
  - destruct (Qltb _ _).
    { apply IH; [exact Hnd|]. intros k Hk. specialize (Hlt k Hk). lia. }
    destruct (Qleb _ _).
    { apply IH; [exact Hnd|]. intros k Hk. specialize (Hlt k Hk). lia. }
    apply IH; simpl.
    + rewrite map_app. simpl.
      apply NoDup_app; [exact Hnd | repeat constructor; intros [] |].
      intros k Hk [Hi|[]]. subst. specialize (Hlt k Hk). lia.
    + intros k Hk. rewrite map_app, in_app_iff in Hk. simpl in Hk.
      destruct Hk as [Hk|[Hk|[]]]; [specialize (Hlt k Hk)|]; lia.
Qed.

(** A successful call keeps every load within its budget, and logs only
    non-negative loads when the box has a non-negative weight. *)
Lemma support_success_within (c : AABB) (w : Q) (l : list PlacedState) :
  0 <= w -> loads_within l ->
  loads_within (snd (fst (support_ok_and_apply_load c w l)))
  /\ nonneg_loads (snd (support_ok_and_apply_load c w l)).
Proof.
  intros Hw Hl. unfold support_ok_and_apply_load.
  destruct (Qleb (ay c) kEps); [split; [exact Hl | constructor]|].
  destruct (negb (centroid_supported _)); [split; [exact Hl | constructor]|].
  destruct (Qltb _ _); [split; [exact Hl | constructor]|].
  destruct (crush_ok _ _ _ _) eqn:Hok; simpl negb; cbv iota;
    [|split; [exact Hl | constructor]].
  set (ba := std_max kEps (aw c * ad c)) in *.
  set (sup := supports (candidate_scan c l)) in *.
  assert (Hwithin := apply_loads_within w ba l sup l []).
  assert (Hlog := apply_loads_log w ba sup l []).
  destruct (apply_loads w ba sup l []) as [p a]. simpl in *. split.
  - apply Hwithin; [|exact Hl|].
    + apply scan_supports_indices; simpl; [constructor | intros k []].
    + apply crush_ok_true. exact Hok.
  - subst a. unfold nonneg_loads. rewrite Forall_map. apply Forall_forall.
    intros p' _. simpl. now apply load_share_nonneg.
Qed.

Lemma try_candidate_within (t : Truck) (w : Q) (st : Sweep) (c : AABB) :
  0 <= w ->
  loads_within (sw_placed st) /\ nonneg_loads (sw_best_loads st) ->
  loads_within (sw_placed (try_candidate t w st c))
  /\ nonneg_loads (sw_best_loads (try_candidate t w st c)).
Proof.
  intros Hw [Hl Hb].
  destruct (support_success_within c w (sw_placed st) Hw Hl) as [Hl1 Ha].
  case_try_candidate t w st c E; simpl in *; auto.
  - split; [|exact Ha]. destruct (sw_found st); [|exact Hl1].
    now apply rollback_loads_within.
  - split; [|exact Hb]. now apply rollback_loads_within.
  - split; [|exact Hb]. now apply rollback_loads_within.
Qed.

Lemma sweep_within (t : Truck) (box : Box) (cs : list Candidate)
    (placed0 : list PlacedState) :
  0 <= box_weight box -> loads_within placed0 ->
  loads_within (sw_placed (sweep t box cs placed0)).
Proof.
  intros Hw Hl. unfold sweep.
  apply (fold_left_invariant
           (fun st => loads_within (sw_placed st) /\ nonneg_loads (sw_best_loads st))).
  - split; [exact Hl | constructor].
  - intros st c _. now apply try_candidate_within.
Qed.

Lemma max_load_for_floor (w ba : Q) : kEps <= max_load_for w ba.
Proof. unfold max_load_for. apply std_max_lub. Qed.

Lemma box_at_weight (boxes : list Box) (idx : N) :
  nonneg_weights boxes -> 0 <= box_weight (box_at boxes idx).
Proof.
  intro H. unfold box_at.
  destruct (nth_in_or_default (N.to_nat idx) boxes default_box) as [Hin | ->].
  - unfold nonneg_weights in H. rewrite Forall_forall in H. now apply H.
  - simpl. lra.
Qed.

Lemma budget_recorded_frame (l l' : list PlacedState) :
  map frame l = map frame l' -> Forall budget_recorded l' -> Forall budget_recorded l.
Proof.
  revert l'. induction l as [|s r IH]; intros [|s' r'] H Hl'; try discriminate.
  - constructor.
  - simpl in H. unfold frame at 1 3 in H. injection H as Hb _ Hw Hm Hr.
    inversion Hl'; subst. constructor; [|eapply IH; eauto].
    unfold budget_recorded in *. congruence.
Qed.

Lemma pack_step_within (t : Truck) (boxes : list Box) (st : PackState) (idx : N) :
  nonneg_weights boxes ->
  loads_within (pk_placed st) /\ Forall budget_recorded (pk_placed st) ->
  loads_within (pk_placed (pack_step t boxes st idx))
  /\ Forall budget_recorded (pk_placed (pack_step t boxes st idx)).
Proof.
  intros Hnn [Hl Hb]. unfold pack_step.
  destruct (Qltb _ _); [split; assumption|].
  set (cs := unique_candidates (pk_candidates st)).
  set (box := box_at boxes idx).
  assert (Hw : 0 <= box_weight box) by now apply box_at_weight.
  assert (Hsw := sweep_within t box cs (pk_placed st) Hw Hl).
  assert (Hfr := sweep_frame t box cs (pk_placed st)).
  assert (Hb' := budget_recorded_frame _ _ Hfr Hb).
  destruct (sw_found _); simpl negb; cbv iota; simpl; [|split; assumption].
  split; apply Forall_app; split; auto; constructor; try constructor.
  - unfold within_budget. simpl.
    assert (Hfl := max_load_for_floor (box_weight box)
                     (aw (sw_best (sweep t box cs (pk_placed st)))
                      * ad (sw_best (sweep t box cs (pk_placed st))))).
    unfold kEps, loadEps in *. lra.
Qed.

(** C2, as the code has it.  With non-negative box weights, in the final
    state of [pack_by_order] the load accumulated on every placed box is at
    most its budget plus the slack [1e-9], where the budget is
    [max(1e-8, min(6·weight, base_area·2500))] for the weight of the box and
    the area [w·d] of its top face. *)
Theorem pack_by_order_crush_budget (t : Truck) (boxes : list Box) (order : list N)
    (s : PlacedState) :
  nonneg_weights boxes ->
  In s (pk_placed (pack_run t boxes order)) ->
  load_on_top s
  <= std_max kEps
       (std_min (ps_weight s * 6) (aw (ps_box s) * ad (ps_box s) * 2500))
     + loadEps.
Proof.
  intros Hnn Hin.
  assert (H : loads_within (pk_placed (pack_run t boxes order))
              /\ Forall budget_recorded (pk_placed (pack_run t boxes order))).
  { unfold pack_run. apply fold_left_invariant.
    - split; constructor.
    - intros st x _. now apply pack_step_within. }
  destruct H as [Hl Hb]. unfold loads_within in Hl.
  rewrite Forall_forall in Hl, Hb.
  specialize (Hl s Hin). specialize (Hb s Hin).
  unfold within_budget, budget_recorded in *. rewrite Hb in Hl. exact Hl.
Qed.

(** ** Sorting and duplicate removal *)

Section SortFacts.
Context {A : Type} (lt : A -> A -> bool).

Local Abbreviation not_after := (not_after lt).

Lemma insert_sorted_perm (x : A) (l : list A) :
  Permutation (insert_sorted lt x l) (x :: l).
Proof.
  induction l as [|y r IH]; simpl.
  - apply Permutation_refl.
  - destruct (lt y x).
    + apply perm_trans with (y :: x :: r).
      * now apply perm_skip.
      * apply perm_swap.
    + apply Permutation_refl.
Qed.

Lemma stable_sort_perm (l : list A) : Permutation (stable_sort lt l) l.
Proof.
  induction l as [|x r IH]; simpl.
  - apply perm_nil.
  - apply perm_trans with (x :: stable_sort lt r).
    + apply insert_sorted_perm.
    + now apply perm_skip.
Qed.

Lemma stable_sort_length (l : list A) : length (stable_sort lt l) = length l.
Proof. apply Permutation_length, stable_sort_perm. Qed.

Lemma stable_sort_in (l : list A) (x : A) : In x (stable_sort lt l) <-> In x l.
Proof.
  split; apply Permutation_in;
    [apply stable_sort_perm | apply Permutation_sym, stable_sort_perm].
Qed.

Hypothesis lt_asym : forall x y, lt x y = true -> lt y x = false.
Hypothesis not_after_trans :
  forall x y z, not_after x y -> not_after y z -> not_after x z.

Lemma insert_sorted_sorted (x : A) (l : list A) :
  StronglySorted not_after l -> StronglySorted not_after (insert_sorted lt x l).
Proof.
  induction 1 as [|y r Hr IH Hy]; simpl.
  - constructor; constructor.
  - destruct (lt y x) eqn:E.
    + constructor; [exact IH|].
      apply Forall_forall. intros z Hz.
      apply (Permutation_in _ (insert_sorted_perm x r)) in Hz.
      destruct Hz as [<-|Hz].
      * apply lt_asym. exact E.
      * rewrite Forall_forall in Hy. now apply Hy.
    + constructor; [now constructor|].
      constructor; [exact E|].
      apply Forall_forall. intros z Hz. rewrite Forall_forall in Hy.
      apply not_after_trans with y; [exact E | now apply Hy].
Qed.

Lemma stable_sort_sorted (l : list A) : StronglySorted not_after (stable_sort lt l).
Proof.
  induction l as [|x r IH]; simpl.
  - constructor.
  - now apply insert_sorted_sorted.
Qed.
End SortFacts.

Section UniqueFacts.
Context {A : Type} (eqv : A -> A -> bool).

Lemma unique_from_head (x : A) (r : list A) :
  exists tail, unique_from eqv x r = x :: tail.
Proof.
  revert x. induction r as [|y r IH]; intro x; simpl.
  - now exists [].
  - destruct (eqv x y); [apply IH|]. now exists (unique_from eqv y r).
Qed.

Lemma unique_from_incl (x : A) (r : list A) :
  incl (unique_from eqv x r) (x :: r).
Proof.
  revert x. induction r as [|y r IH]; intro x; simpl.
  - apply incl_refl.
  - destruct (eqv x y).
    + intros z Hz. apply IH in Hz. destruct Hz; [now left | now right; right].
    + intros z [<-|Hz]; [now left|]. right. now apply IH.
Qed.

Lemma unique_from_length (x : A) (r : list A) :
  (length (unique_from eqv x r) <= S (length r))%nat.
Proof.
  revert x. induction r as [|y r IH]; intro x; simpl.
  - lia.
  - destruct (eqv x y); [specialize (IH x) | specialize (IH y); simpl]; lia.
Qed.

(** Every element keeps a representative that [eqv] identifies with it,
    when [eqv] is an equality of images under [k]. *)
Lemma unique_from_represents {K : Type} (k : A -> K) (x : A) (r : list A) :
  (forall a b, eqv a b = true -> k a = k b) ->
  forall c, In c (x :: r) -> In (k c) (map k (unique_from eqv x r)).
Proof.
  intro Heq. revert x. induction r as [|y r IH]; intros x c Hc.
  - destruct Hc as [<-|[]]. now left.
  - simpl. destruct (eqv x y) eqn:E.
    + destruct Hc as [<-|[<-|Hc]].
      * apply IH. now left.
      * rewrite <- (Heq _ _ E). apply IH. now left.
      * apply IH. now right.
    + destruct Hc as [<-|Hc]; [now left|]. right. now apply IH.
Qed.
End UniqueFacts.

Lemma NoDup_firstn {A : Type} (n : nat) (l : list A) : NoDup l -> NoDup (firstn n l).
Proof.
  intro H. rewrite <- (firstn_skipn n l) in H. now apply NoDup_app_remove_r in H.
Qed.


(** ** The candidate store is deduplicated and bounded *)

Ltac key_order :=
  repeat match goal with k : CandKey |- _ => destruct k as [[? ?] ?] end;
  unfold key_lt, key_eq in *;
  repeat match goal with
    | H : context [(?a <? ?b)%Z] |- _ => destruct (Z.ltb_spec a b)
    | |- context [(?a <? ?b)%Z] => destruct (Z.ltb_spec a b)
    | H : context [(?a =? ?b)%Z] |- _ => destruct (Z.eqb_spec a b)
    | |- context [(?a =? ?b)%Z] => destruct (Z.eqb_spec a b)
    end;
  simpl in *; try congruence; try lia.

Lemma key_lt_asym (a b : CandKey) : key_lt a b = true -> key_lt b a = false.
Proof. intros; key_order. Qed.

Lemma key_not_after_trans (a b c : CandKey) :
  key_lt b a = false -> key_lt c b = false -> key_lt c a = false.
Proof. intros; key_order. Qed.

Lemma key_lt_not_after (a b c : CandKey) :
  key_lt a b = true -> key_lt c b = false -> key_lt a c = true.
Proof. intros; key_order. Qed.

Lemma key_trichotomy (a b : CandKey) :
  key_lt b a = false -> key_eq a b = false -> key_lt a b = true.
Proof. intros; key_order. Qed.

Lemma key_eq_eq (a b : CandKey) : key_eq a b = true -> a = b.
Proof. intros; key_order. Qed.

Lemma key_lt_neq (a b : CandKey) : key_lt a b = true -> a <> b.
Proof. intros H E; subst; key_order. Qed.

Lemma unique_from_strict (x : Candidate) (r : list Candidate) :
  StronglySorted (not_after cand_key_lt) (x :: r) ->
  StronglySorted key_below (unique_from cand_key_eq x r).
Proof.
  revert x. induction r as [|y r IH]; intros x Hs; simpl.
  - constructor; constructor.
  - inversion Hs as [|? ? Hyr Hx]; subst.
    inversion Hx as [|? ? Hxy Hxr]; subst.
    destruct (cand_key_eq x y) eqn:E.
    + apply IH. constructor; [now inversion Hyr | exact Hxr].
    + specialize (IH y Hyr).
      constructor; [exact IH|].
      assert (Hlt : key_below x y).
      { apply key_trichotomy; [exact Hxy | exact E]. }
      apply Forall_forall. intros z Hz.
      apply (unique_from_incl cand_key_eq) in Hz.
      destruct Hz as [<-|Hz]; [exact Hlt|].
      inversion Hyr as [|? ? _ Hy]; subst. rewrite Forall_forall in Hy.
      unfold key_below, cand_key_lt in *.
      apply key_lt_not_after with (key y); [exact Hlt | now apply Hy].
Qed.

Lemma key_below_nodup (l : list Candidate) :
  StronglySorted key_below l -> NoDup (map key l).
Proof.
  induction 1 as [|x r Hr IH Hx]; simpl; constructor; [|exact IH].
  intro Hin. apply in_map_iff in Hin. destruct Hin as (z & Hk & Hz).
  rewrite Forall_forall in Hx. specialize (Hx z Hz).
  apply key_lt_neq in Hx. congruence.
Qed.

Lemma dedup_candidates_spec (cs : list Candidate) :
  NoDup (map key (dedup_candidates cs))
  /\ incl (dedup_candidates cs) cs
  /\ (forall c, In c cs -> In (key c) (map key (dedup_candidates cs)))
  /\ (length (dedup_candidates cs) <= length cs)%nat.
Proof.
  unfold dedup_candidates.
  change (fun a b : Candidate => key_lt (key a) (key b)) with cand_key_lt.
  change (fun a b : Candidate => key_eq (key a) (key b)) with cand_key_eq.
  assert (Hsorted := stable_sort_sorted cand_key_lt
            (fun x y => key_lt_asym (key x) (key y))
            (fun x y z => key_not_after_trans (key x) (key y) (key z)) cs).
  assert (Hin := stable_sort_in cand_key_lt cs).
  assert (Hlen := stable_sort_length cand_key_lt cs).
  destruct (stable_sort cand_key_lt cs) as [|x r]; simpl in *.
  - repeat split; try constructor; try lia.
    + intros c [].
    + intros c Hc. now apply Hin in Hc.
  - repeat split.
    + apply key_below_nodup. now apply unique_from_strict.
    + intros c Hc. apply Hin. now apply (unique_from_incl cand_key_eq).
    + intros c Hc. apply (unique_from_represents cand_key_eq key).
      * intros a b. apply key_eq_eq.
      * now apply Hin.
    + rewrite <- Hlen. apply unique_from_length.
Qed.





Lemma attempts_origin (box : Box) (cs : list Candidate) (a : AABB) :
  In a (attempts box cs) ->
  exists c, In c cs /\ ax a = cx c /\ ay a = cy c /\ az a = cz c.
Proof.
  unfold attempts. rewrite in_flat_map. intros (c & Hc & Ha).
  apply in_map_iff in Ha. destruct Ha as ([[r0 r1] r2] & <- & _).
  exists c. simpl. auto.
Qed.







(** ** Ordered crossover *)

Lemma update_at_split {A : Type} (k : nat) (v : A) (l : list A) :
  (k < length l)%nat ->
  update_at k (fun _ => v) l = firstn k l ++ v :: skipn (S k) l.
Proof.
  revert k. induction l as [|x r IH]; intros [|k] H; simpl in *; try lia; auto.
  rewrite IH by lia. reflexivity.
Qed.

Lemma skipn_nth_cons {A : Type} (k : nat) (l : list A) (dflt : A) :
  (k < length l)%nat -> skipn k l = nth k l dflt :: skipn (S k) l.
Proof.
  revert k. induction l as [|x r IH]; intros [|k] H; simpl in *; try lia; auto.
  apply IH. lia.
Qed.

Lemma firstn_succ_middle {A : Type} (pre post : list A) (g : A) :
  firstn (S (length pre)) (pre ++ g :: post) = pre ++ [g].
Proof. induction pre as [|x r IH]; simpl; [reflexivity | f_equal; exact IH]. Qed.

Lemma skipn_past_middle {A : Type} (pre post : list A) (g : A) (cnt : nat) :
  skipn (S (length pre) + cnt) (pre ++ g :: post) = skipn cnt post.
Proof. induction pre as [|x r IH]; simpl; [reflexivity | exact IH]. Qed.

Lemma firstn_succ_nth {A : Type} (k : nat) (l : list A) (dflt : A) :
  (k < length l)%nat -> firstn (S k) l = firstn k l ++ [nth k l dflt].
Proof.
  revert k. induction l as [|x r IH]; intros [|k] H; simpl in *; try lia; auto.
  rewrite <- IH by lia. reflexivity.
Qed.

Lemma copy_slice_spec (a : list N) :
  forall (cnt k : nat) (child used : list N),
  (k + cnt <= length child)%nat -> (k + cnt <= length a)%nat ->
  copy_slice a k cnt child used
  = (firstn k child ++ firstn cnt (skipn k a) ++ skipn (k + cnt) child,
     rev (firstn cnt (skipn k a)) ++ used).
Proof.
  induction cnt as [|cnt IH]; intros k child used Hc Ha.
  - simpl. rewrite Nat.add_0_r, firstn_skipn. reflexivity.
  - cbn [copy_slice]. rewrite IH by (rewrite ?update_at_length; lia).
    rewrite (skipn_nth_cons k a 0%N) by lia.
    rewrite update_at_split by lia.
    set (gene := nth k a 0%N).
    assert (Hlen : length (firstn k child) = k) by (rewrite length_firstn; lia).
    f_equal.
    + rewrite <- Hlen at 1. rewrite firstn_succ_middle.
      rewrite <- Hlen at 3. rewrite skipn_past_middle.
      rewrite skipn_skipn.
      replace (cnt + S k)%nat with (k + S cnt)%nat by lia.
      cbn [firstn]. rewrite <- !app_assoc. reflexivity.
    + cbn [firstn rev]. rewrite <- app_assoc. reflexivity.
Qed.

Lemma fill_slots_nil (child : list N) : fill_slots child [] = child.
Proof.
  induction child as [|c r IH]; simpl; auto.
  destruct (N.eqb c npos); [reflexivity | now rewrite IH].
Qed.

Lemma fill_slots_full (child genes : list N) :
  Forall filled child -> fill_slots child genes = child.
Proof.
  induction 1 as [|c r Hc Hr IH]; simpl; auto.
  apply N.eqb_neq in Hc. now rewrite Hc, IH.
Qed.

Lemma fill_slots_filled_prefix (pre child genes : list N) :
  Forall filled pre -> fill_slots (pre ++ child) genes = pre ++ fill_slots child genes.
Proof.
  induction 1 as [|c r Hc Hr IH]; simpl; auto.
  apply N.eqb_neq in Hc. now rewrite Hc, IH.
Qed.

Lemma fill_slots_empty_prefix (k : nat) (child genes : list N) :
  (k <= length genes)%nat ->
  fill_slots (repeat npos k ++ child) genes
  = firstn k genes ++ fill_slots child (skipn k genes).
Proof.
  revert genes. induction k as [|k IH]; intros genes Hk; simpl; auto.
  destruct genes as [|g genes]; simpl in *; [lia|].
  rewrite IH by lia. reflexivity.
Qed.

(** Writing the next gene into the first empty slot. *)
Lemma fill_slots_first (child : list N) (w : nat) (g : N) (genes : list N) :
  filled g -> Forall filled (firstn w child) -> nth w child 0%N = npos ->
  (w < length child)%nat ->
  fill_slots child (g :: genes) = fill_slots (update_at w (fun _ => g) child) genes.
Proof.
  intros Hg. revert w. induction child as [|c r IH]; intros w Hpre Hw Hlen;
    simpl in *; [lia|].
  destruct w as [|w]; simpl in *.
  - subst c. simpl. apply N.eqb_neq in Hg. now rewrite Hg.
  - inversion Hpre as [|? ? Hc Hr]; subst.
    apply N.eqb_neq in Hc. rewrite Hc. f_equal. apply IH; auto. lia.
Qed.

Lemma skip_filled_spec (n : nat) (child : list N) :
  length child = n ->
  forall (fuel write : nat),
  fuel = (n - write)%nat -> (write <= n)%nat ->
  Forall filled (firstn write child) ->
  let w := skip_filled fuel n child write in
  (write <= w <= n)%nat
  /\ Forall filled (firstn w child)
  /\ ((w < n)%nat -> nth w child 0%N = npos).
Proof.
  intros Hlen. induction fuel as [|fuel IH]; intros write Hfuel Hle Hpre; simpl.
  - repeat split; auto; lia.
  - destruct (write <? n)%nat eqn:Hlt; simpl.
    2:{ apply Nat.ltb_ge in Hlt. repeat split; auto; lia. }
    apply Nat.ltb_lt in Hlt.
    destruct (N.eqb (nth write child npos) npos) eqn:E; simpl.
    + apply N.eqb_eq in E. repeat split; auto; try lia.
      intros _. rewrite (nth_indep child 0%N npos) by lia. exact E.
    + apply N.eqb_neq in E.
      destruct (IH (S write)) as (H1 & H2 & H3); try lia.
      * rewrite (firstn_succ_nth write child npos) by lia.
        apply Forall_app. split; [exact Hpre|]. constructor; [exact E | constructor].
      * repeat split; auto; lia.
Qed.

Lemma firstn_update_at {A : Type} (k : nat) (f : A -> A) (l : list A) :
  firstn k (update_at k f l) = firstn k l.
Proof.
  revert k. induction l as [|x r IH]; intros [|k]; simpl; auto.
  now rewrite IH.
Qed.

Lemma fill_rest_spec (n : nat) (used : list N) :
  forall (genes child : list N) (write : nat),
  length child = n -> (write <= n)%nat ->
  Forall filled (firstn write child) -> Forall filled genes ->
  fill_rest n genes used child write
  = fill_slots child (filter (fresh_gene used) genes).
Proof.
  induction genes as [|g genes IH]; intros child write Hlen Hw Hpre Hgenes.
  - simpl. now rewrite fill_slots_nil.
  - inversion Hgenes as [|g' genes' Hg Hrest]; subst g' genes'.
    cbn [fill_rest filter]. unfold fresh_gene at 1.
    destruct (used_mem g used); simpl negb; cbv iota.
    + now apply IH.
    + destruct (skip_filled_spec n child Hlen (n - write) write eq_refl Hw Hpre)
        as (Hrange & Hfilled & Hfree).
      set (w := skip_filled (n - write) n child write) in *.
      destruct (w <? n)%nat eqn:Hlt.
      * apply Nat.ltb_lt in Hlt.
        rewrite IH.
        -- symmetry. apply fill_slots_first; auto. lia.
        -- now rewrite update_at_length.
        -- lia.
        -- now rewrite firstn_update_at.
        -- exact Hrest.
      * apply Nat.ltb_ge in Hlt.
        assert (Hall : Forall filled child).
        { replace w with (length child) in Hfilled by lia.
          now rewrite firstn_all in Hfilled. }
        rewrite IH.
        -- now rewrite !fill_slots_full.
        -- exact Hlen.
        -- lia.
        -- replace w with (length child) by lia. now rewrite firstn_all.
        -- exact Hrest.
Qed.

Lemma firstn_repeat_le {A : Type} (x : A) (k n : nat) :
  (k <= n)%nat -> firstn k (repeat x n) = repeat x k.
Proof.
  revert n. induction k as [|k IH]; intros [|n] H; simpl; try lia; auto.
  rewrite IH by lia. reflexivity.
Qed.

Lemma skipn_repeat_le {A : Type} (x : A) (k n : nat) :
  (k <= n)%nat -> skipn k (repeat x n) = repeat x (n - k).
Proof.
  revert n. induction k as [|k IH]; intros [|n] H; simpl; try lia; auto.
  apply IH. lia.
Qed.

Lemma genes_of_all (b : list N) : genes_of b (length b) = b.
Proof.
  unfold genes_of. apply (nth_ext _ _ 0%N 0%N).
  - now rewrite length_map, length_seq.
  - intros k Hk. rewrite length_map, length_seq in Hk.
    transitivity (nth k (map (fun k => nth k b 0%N) (seq 0 (length b)))
                    ((fun k => nth k b 0%N) 0%nat)).
    { apply nth_indep. now rewrite length_map, length_seq. }
    rewrite (map_nth (fun k => nth k b 0%N)), seq_nth by exact Hk. reflexivity.
Qed.

Lemma filter_split_perm {A : Type} (f : A -> bool) (l : list A) :
  Permutation l (filter f l ++ filter (fun x => negb (f x)) l).
Proof.
  induction l as [|x r IH]; simpl.
  - apply perm_nil.
  - destruct (f x); simpl.
    + now apply perm_skip.
    + apply Permutation_cons_app. exact IH.
Qed.

Lemma used_mem_in (g : N) (used : list N) : used_mem g used = true <-> In g used.
Proof.
  unfold used_mem. rewrite existsb_exists. split.
  - intros (x & Hx & E). apply N.eqb_eq in E. now subst.
  - intro H. exists g. split; [exact H | apply N.eqb_refl].
Qed.

Lemma slice_length (a : list N) (i j : nat) :
  (i <= j)%nat -> (j < length a)%nat -> length (slice a i j) = (S j - i)%nat.
Proof.
  intros Hij Hj. unfold slice. rewrite length_firstn, length_skipn. lia.
Qed.

Lemma slice_incl (a : list N) (i j : nat) : incl (slice a i j) a.
Proof.
  unfold slice. intros x Hx.
  rewrite <- (firstn_skipn i a). apply in_or_app. right.
  rewrite <- (firstn_skipn (S j - i) (skipn i a)). apply in_or_app. now left.
Qed.

Lemma slice_nodup (a : list N) (i j : nat) : NoDup a -> NoDup (slice a i j).
Proof.
  intro H. unfold slice. apply NoDup_firstn.
  rewrite <- (firstn_skipn i a) in H. now apply NoDup_app_remove_l in H.
Qed.

Lemma crossover_at_shape (n : nat) (a b : list N) (i j : nat) :
  length a = n -> length b = n -> (i <= j)%nat -> (j < n)%nat ->
  Forall filled a -> Forall filled b ->
  (i <= length (remainder a b i j))%nat ->
  crossover_at n a b i j
  = firstn i (remainder a b i j) ++ slice a i j
    ++ fill_slots (repeat npos (n - S j)) (skipn i (remainder a b i j)).
Proof.
  intros Ha Hb Hij Hj Hfa Hfb Hroom. unfold crossover_at.
  rewrite copy_slice_spec by (rewrite ?repeat_length; lia).
  fold (slice a i j).
  rewrite firstn_repeat_le, skipn_repeat_le by lia.
  replace (n - (i + (S j - i)))%nat with (n - S j)%nat by lia.
  rewrite <- Hb at 2. rewrite genes_of_all.
  rewrite fill_rest_spec; auto; try lia.
  2:{ rewrite !length_app, !repeat_length, slice_length by lia. lia. }
  replace (filter (fresh_gene (rev (slice a i j) ++ [])) b) with (remainder a b i j).
  2:{ unfold remainder. apply filter_ext. intro g. unfold fresh_gene. f_equal.
      rewrite app_nil_r.
      destruct (used_mem g (slice a i j)) eqn:E1, (used_mem g (rev (slice a i j))) eqn:E2;
        auto.
      - apply used_mem_in in E1. apply in_rev in E1. apply used_mem_in in E1. congruence.
      - apply used_mem_in in E2. apply in_rev in E2. apply used_mem_in in E2. congruence. }
  rewrite fill_slots_empty_prefix by exact Hroom.
  rewrite fill_slots_filled_prefix; [reflexivity|].
  apply Forall_forall. intros x Hx. rewrite Forall_forall in Hfa.
  apply Hfa. now apply (slice_incl a i j).
Qed.

Lemma base_order_length (n : nat) : length (base_order n) = n.
Proof. unfold base_order. now rewrite length_map, length_seq. Qed.

Lemma base_order_nodup (n : nat) : NoDup (base_order n).
Proof.
  unfold base_order. apply Finite.Injective_map_NoDup.
  - intros x y. apply Nat2N.inj.
  - apply seq_NoDup.
Qed.

Lemma base_order_filled (n : nat) :
  (N.of_nat n <= npos)%N -> Forall filled (base_order n).
Proof.
  intro Hn. unfold base_order. apply Forall_forall. intros g Hg.
  apply in_map_iff in Hg. destruct Hg as (k & <- & Hk).
  apply in_seq in Hk. unfold filled. lia.
Qed.

Lemma fill_slots_exact (m : nat) (genes : list N) :
  length genes = m -> fill_slots (repeat npos m) genes = genes.
Proof.
  intro H.
  rewrite <- (app_nil_r (repeat npos m)).
  rewrite fill_slots_empty_prefix by lia.
  subst m. rewrite firstn_all, skipn_all. simpl. apply app_nil_r.
Qed.

Lemma remainder_perm (a b : list N) (i j : nat) :
  NoDup a -> NoDup b -> incl a b ->
  Permutation b (slice a i j ++ remainder a b i j).
Proof.
  intros Hna Hnb Hincl.
  apply perm_trans with
    (filter (fun g => used_mem g (slice a i j)) b ++ remainder a b i j).
  - apply filter_split_perm.
  - apply Permutation_app_tail. apply NoDup_Permutation.
    + now apply NoDup_filter.
    + now apply slice_nodup.
    + intro x. rewrite filter_In, used_mem_in. split; [tauto|].
      intro Hx. split; [|exact Hx]. apply Hincl. now apply (slice_incl a i j).
Qed.

(** C10.  For parents that are permutations of the indices [0 .. n-1] (with
    [n] within the range of [size_t], so that no gene is the sentinel) and
    cut points [i <= j < n], the child is again a permutation of the
    indices: positions [i .. j] hold parent [a]'s genes of those positions,
    the other positions hold, left to right, the genes of parent [b] that
    are not in that slice, in [b]'s order; no position keeps the sentinel
    and no gene occurs twice. *)
Theorem crossover_is_permutation (n : nat) (a b : list N) (i j : nat) :
  (N.of_nat n <= npos)%N ->
  Permutation a (base_order n) -> Permutation b (base_order n) ->
  (i <= j)%nat -> (j < n)%nat ->
  Permutation (crossover_at n a b i j) (base_order n)
  /\ (forall k, (i <= k <= j)%nat ->
        nth k (crossover_at n a b i j) npos = nth k a npos)
  /\ crossover_at n a b i j
     = firstn i (remainder a b i j) ++ slice a i j ++ skipn i (remainder a b i j)
  /\ Forall filled (crossover_at n a b i j)
  /\ NoDup (crossover_at n a b i j).
Proof.
  intros Hn Hpa Hpb Hij Hj.
  assert (Hla : length a = n).
  { rewrite (Permutation_length Hpa). apply base_order_length. }
  assert (Hlb : length b = n).
  { rewrite (Permutation_length Hpb). apply base_order_length. }
  assert (Hna : NoDup a).
  { apply (Permutation_NoDup (Permutation_sym Hpa)), base_order_nodup. }
  assert (Hnb : NoDup b).
  { apply (Permutation_NoDup (Permutation_sym Hpb)), base_order_nodup. }
  assert (Hfa : Forall filled a).
  { apply (Permutation_Forall (Permutation_sym Hpa)), base_order_filled, Hn. }
  assert (Hfb : Forall filled b).
  { apply (Permutation_Forall (Permutation_sym Hpb)), base_order_filled, Hn. }
  assert (Hab : incl a b).
  { intros x Hx. apply (Permutation_in _ (Permutation_sym Hpb)).
    now apply (Permutation_in _ Hpa). }
  assert (Hsplit := remainder_perm a b i j Hna Hnb Hab).
  assert (Hlen : length (remainder a b i j) = (i + (n - S j))%nat).
  { apply Permutation_length in Hsplit.
    rewrite length_app, slice_length in Hsplit by lia. lia. }
  assert (Hshape : crossover_at n a b i j
                   = firstn i (remainder a b i j) ++ slice a i j
                     ++ skipn i (remainder a b i j)).
  { rewrite crossover_at_shape by (auto; lia).
    rewrite fill_slots_exact; [reflexivity|]. rewrite length_skipn. lia. }
  assert (Hperm : Permutation (crossover_at n a b i j) b).
  { rewrite Hshape. apply perm_trans with
      (slice a i j ++ firstn i (remainder a b i j) ++ skipn i (remainder a b i j)).
    - apply Permutation_app_swap_app.
    - rewrite firstn_skipn. apply Permutation_sym. exact Hsplit. }
  split; [|split; [|split; [|split]]].
  - apply perm_trans with b; assumption.
  - intros k Hk. rewrite Hshape.
    assert (Hpre : length (firstn i (remainder a b i j)) = i).
    { rewrite length_firstn. lia. }
    rewrite app_nth2 by lia. rewrite Hpre.
    rewrite app_nth1 by (rewrite slice_length; lia).
    unfold slice. rewrite nth_firstn.
    replace (k - i <? S j - i)%nat with true by (symmetry; apply Nat.ltb_lt; lia).
    rewrite nth_skipn. f_equal. lia.
  - exact Hshape.
  - apply (Permutation_Forall (Permutation_sym Hperm)). exact Hfb.
  - apply (Permutation_NoDup (Permutation_sym Hperm)). exact Hnb.
Qed.

(** ** The GA driver keeps its best individual *)

Section DriverFacts.
Context {RE : RandomEngine}.
Variable truck : Truck.
Variable boxes : list Box.

Local Abbreviation evaluated := (evaluated truck boxes).

Lemma reaches_incl (s : Q) (pop pop' : list Individual) :
  incl pop pop' -> reaches s pop -> reaches s pop'.
Proof. intros Hincl (ind & Hin & Hs). exists ind. auto. Qed.

Lemma make_individual_evaluated (shuffle : bool) (g : rng) :
  evaluated (fst (make_individual truck boxes shuffle g)).
Proof.
  unfold make_individual. destruct shuffle.
  - destruct (std_shuffle _ g) as [order g']. now exists order.
  - now exists (heuristic_order boxes).
Qed.

Lemma fill_random_spec (k : nat) :
  forall (pop : list Individual) (g : rng),
  incl pop (fst (fill_random truck boxes k pop g))
  /\ (Forall evaluated pop -> Forall evaluated (fst (fill_random truck boxes k pop g))).
Proof.
  induction k as [|k IH]; intros pop g; cbn [fill_random].
  - split; [apply incl_refl | auto].
  - assert (Hev := make_individual_evaluated true g).
    destruct (make_individual truck boxes true g) as [ind g']. simpl in Hev.
    destruct (IH (pop ++ [ind]) g') as [Hincl Hall]. split.
    + intros x Hx. apply Hincl. apply in_or_app. now left.
    + intro Hpop. apply Hall. apply Forall_app. split; [exact Hpop|].
      constructor; [exact Hev | constructor].
Qed.

Variable population : Z.
Variable mutation_rate : Q.

Lemma offspring_spec (k : nat) :
  forall (pop next : list Individual) (g : rng),
  incl next (fst (offspring truck boxes population mutation_rate k pop next g))
  /\ (Forall evaluated next ->
      Forall evaluated (fst (offspring truck boxes population mutation_rate k pop next g))).
Proof.
  induction k as [|k IH]; intros pop next g; cbn [offspring].
  - split; [apply incl_refl | auto].
  - destruct (select_parent population pop g) as [p1 g1].
    destruct (select_parent population pop g1) as [p2 g2].
    destruct (crossover boxes p1 p2 g2) as [child g3].
    destruct (mutate boxes mutation_rate child g3) as [child' g4].
    destruct (IH pop (next ++ [evaluate truck boxes child']) g4) as [Hincl Hall].
    split.
    + intros x Hx. apply Hincl. apply in_or_app. now left.
    + intro Hnext. apply Hall. apply Forall_app. split; [exact Hnext|].
      constructor; [now exists child' | constructor].
Qed.

Lemma by_score_desc_asym (x y : Individual) :
  by_score_desc x y = true -> by_score_desc y x = false.
Proof.
  unfold by_score_desc. intro H. apply Qltb_lt in H. apply Qltb_ge. lra.
Qed.

Lemma by_score_desc_trans (x y z : Individual) :
  not_after by_score_desc x y -> not_after by_score_desc y z ->
  not_after by_score_desc x z.
Proof.
  unfold not_after, by_score_desc. intros H1 H2.
  apply Qltb_ge in H1, H2. apply Qltb_ge. lra.
Qed.

(** After the sort the front individual has the highest score. *)
Lemma sorted_front_best (pop : list Individual) (ind : Individual) :
  In ind pop ->
  let front := hd default_individual (stable_sort by_score_desc pop) in
  In front pop /\ ind_score ind <= ind_score front.
Proof.
  intros Hin.
  assert (Hs := stable_sort_sorted by_score_desc by_score_desc_asym
                  by_score_desc_trans pop).
  assert (Hmem := stable_sort_in by_score_desc pop).
  destruct (stable_sort by_score_desc pop) as [|front rest]; simpl.
  - apply Hmem in Hin. destruct Hin.
  - split; [apply Hmem; now left|].
    apply Hmem in Hin. destruct Hin as [<-|Hin]; [lra|].
    inversion Hs as [|? ? _ Hfront]; subst. rewrite Forall_forall in Hfront.
    specialize (Hfront ind Hin). unfold not_after, by_score_desc in Hfront.
    now apply Qltb_ge in Hfront.
Qed.

Lemma generation_spec (s : Q) (pop : list Individual) (g : rng) :
  Forall evaluated pop -> reaches s pop ->
  Forall evaluated (fst (generation truck boxes population mutation_rate pop g))
  /\ reaches s (fst (generation truck boxes population mutation_rate pop g)).
Proof.
  intros Hev (ind & Hin & Hs). unfold generation.
  set (sorted := stable_sort by_score_desc pop).
  set (elite := Z.to_nat (Z.max 1 (Z.quot population 10))).
  destruct (offspring_spec (Z.to_nat population - length (firstn elite sorted))
              sorted (firstn elite sorted) g) as [Hincl Hall].
  assert (Hsub : incl sorted pop).
  { intros x Hx. now apply (stable_sort_in by_score_desc pop). }
  split.
  - apply Hall. apply Forall_forall. intros x Hx.
    rewrite Forall_forall in Hev. apply Hev, Hsub.
    rewrite <- (firstn_skipn elite sorted). apply in_or_app. now left.
  - destruct (sorted_front_best pop ind Hin) as [Hfront Hbest].
    fold sorted in Hfront, Hbest.
    exists (hd default_individual sorted). split; [|lra].
    apply Hincl.
    assert (Helite : (1 <= elite)%nat) by (unfold elite; lia).
    destruct sorted as [|front rest] eqn:E.
    + exfalso. apply (stable_sort_in by_score_desc pop) in Hin.
      fold sorted in Hin. rewrite E in Hin. destruct Hin.
    + destruct elite; [lia|]. now left.
Qed.

Lemma generations_loop_spec (s : Q) (gens : nat) :
  forall (pop : list Individual) (g : rng),
  Forall evaluated pop -> reaches s pop ->
  Forall evaluated
    (fst (generations_loop truck boxes population mutation_rate gens pop g))
  /\ reaches s
    (fst (generations_loop truck boxes population mutation_rate gens pop g)).
Proof.
  induction gens as [|gens IH]; intros pop g Hev Hs; cbn [generations_loop].
  - auto.
  - destruct (generation_spec s pop g Hev Hs) as [Hev' Hs'].
    destruct (generation truck boxes population mutation_rate pop g) as [pop' g'].
    now apply IH.
Qed.

Lemma initial_population_spec (g : rng) :
  Forall evaluated (fst (initial_population truck boxes population g))
  /\ reaches (score_result (pack_by_order truck boxes (heuristic_order boxes)))
       (fst (initial_population truck boxes population g)).
Proof.
  unfold initial_population, make_individual.
  destruct (fill_random_spec (Z.to_nat population - 1)
              [evaluate truck boxes (heuristic_order boxes)] g) as [Hincl Hall].
  split.
  - apply Hall. constructor; [|constructor]. now exists (heuristic_order boxes).
  - exists (evaluate truck boxes (heuristic_order boxes)). split.
    + apply Hincl. now left.
    + simpl. lra.
Qed.
End DriverFacts.

(** What [optimize_ga] returns on a non-empty instance: the packing of some
    order, scoring at least as much as the heuristic seed. *)
Lemma optimize_ga_spec {RE : RandomEngine} (truck : Truck) (boxes : list Box)
    (population generations : Z) (mutation_rate : Q) (seed : N) :
  boxes <> [] ->
  (exists order,
     optimize_ga truck boxes population generations mutation_rate seed
     = pack_by_order truck boxes order)
  /\ score_result (pack_by_order truck boxes (heuristic_order boxes))
     <= score_result
          (optimize_ga truck boxes population generations mutation_rate seed).
Proof.
  intro Hne. unfold optimize_ga.
  destruct boxes as [|b0 rest]; [congruence|].
  set (bs := b0 :: rest).
  destruct (cap_budget (length bs) population generations) as [p gn].
  destruct (initial_population_spec truck bs p (mt19937 seed)) as [Hev Hs].
  destruct (initial_population truck bs p (mt19937 seed)) as [pop g].
  simpl in Hev, Hs.
  destruct (generations_loop_spec truck bs p mutation_rate _ (Z.to_nat gn) pop g Hev Hs)
    as [Hev' (ind & Hin & Hind)].
  destruct (generations_loop truck bs p mutation_rate (Z.to_nat gn) pop g) as [pop' g'].
  simpl in Hev', Hin.
  destruct (sorted_front_best pop' ind Hin) as [Hfront Hbest].
  rewrite Forall_forall in Hev'. destruct (Hev' _ Hfront) as [order Horder].
  split.
  - exists order. now rewrite Horder.
  - rewrite Horder in Hbest |- *. simpl in *. lra.
Qed.

(** C6, as amended.  On a non-empty box list, for a truck and boxes whose
    extents are at most 1e100 in magnitude, and for all parameter values,
    seeds and random engines, the score [100 * utilization - 0.5 * |unplaced|]
    of the result of [optimize_ga] is at least the score of individual 0,
    the packing of the heuristic order.  The bound on the extents keeps the
    scores numbers on the machine, where larger extents make them NaN; the
    comparison of numbers is all the proof uses of the scores. *)
Theorem optimize_ga_not_below_seed {RE : RandomEngine} (truck : Truck)
    (boxes : list Box) (population generations : Z) (mutation_rate : Q) (seed : N) :
  boxes <> [] -> moderate_truck truck -> Forall moderate_box boxes ->
  ind_score (fst (make_individual truck boxes false (mt19937 seed)))
  <= score_result (optimize_ga truck boxes population generations mutation_rate seed)
  /\ ind_score (fst (make_individual truck boxes false (mt19937 seed)))
     = utilization (pack_by_order truck boxes (heuristic_order boxes)) * 100
       - inject_Z (Z.of_nat (length (unplaced (pack_by_order truck boxes
                                                 (heuristic_order boxes))))) * (1 # 2).
Proof.
  intros Hne _ _. split; [|reflexivity].
  apply (optimize_ga_spec truck boxes population generations mutation_rate seed Hne).
Qed.

(** ** Every processed box is reported once *)

Lemma pack_step_reports (t : Truck) (boxes : list Box) (st : PackState) (idx : N) :
  Permutation (reported_ids (pk_result (pack_step t boxes st idx)))
    (reported_ids (pk_result st) ++ [box_id (box_at boxes idx)]).
Proof.
  unfold pack_step, reported_ids.
  destruct (Qltb _ _); simpl; [now rewrite app_assoc|].
  destruct (sw_found _); simpl.
  - rewrite map_app. simpl. rewrite <- !app_assoc.
    apply Permutation_app_head. apply Permutation_app_comm.
  - now rewrite app_assoc.
Qed.

Lemma pack_by_order_reports (t : Truck) (boxes : list Box) (order : list N) :
  Permutation (reported_ids (pack_by_order t boxes order))
    (map (fun idx => box_id (box_at boxes idx)) order).
Proof.
  unfold pack_by_order, pack_run.
  change (reported_ids (finish t ?r)) with (reported_ids r).
  assert (H : forall l st,
             Permutation (reported_ids (pk_result (fold_left (pack_step t boxes) l st)))
               (reported_ids (pk_result st)
                ++ map (fun idx => box_id (box_at boxes idx)) l)).
  { induction l as [|idx l IH]; intro st; simpl.
    - now rewrite app_nil_r.
    - eapply perm_trans; [apply IH|].
      eapply perm_trans; [apply Permutation_app_tail, pack_step_reports|].
      now rewrite <- app_assoc. }
  apply (H order (pack_init t boxes)).
Qed.

(** ** The adapter has no check of the ids *)

(** C8, as the code has it.  The call has no check of the ids: for every
    request, with or without two boxes sharing an id, [optimize] returns a
    [Result]; on a non-empty box list it is the packing of some order, in
    which every index of that order has its id reported once, placed or
    unplaced, and on an empty list it is the zeroed result. *)
Theorem optimize_never_rejects_ids {RE : RandomEngine} (truck : Truck)
    (boxes : list Box) (params : Params) :
  exists r,
    optimize truck boxes params = Returned r
    /\ (boxes = [] -> r = empty_result)
    /\ (boxes <> [] ->
        exists order,
          r = pack_by_order truck boxes order
          /\ Permutation (reported_ids r)
               (map (fun idx => box_id (box_at boxes idx)) order)).
Proof.
  unfold optimize. eexists. split; [reflexivity|]. split.
  - intros ->. reflexivity.
  - intro Hne.
    destruct (optimize_ga_spec truck boxes
                match par_population params with Some p => p | None => 40%Z end
                match par_generations params with Some g => g | None => 40%Z end
                match par_mutation_rate params with Some m => m | None => 8 # 100 end
                match par_seed params with Some s => s | None => 12345%N end Hne)
      as [[order Horder] _].
    exists order. split; [exact Horder|].
    rewrite Horder. apply pack_by_order_reports.
Qed.

(** ** Where the claims fail as stated *)

(** C1, as stated, fails on the numbers of the machine.  The truck has
    positive extents and a cap of 1e8, the three unit boxes weigh 7e-9,
    7e-9 and 1e8.  After the first two boxes [remaining_weight] is still
    1e8, the two subtractions being absorbed, and the third box passes the
    guard: all three boxes are placed, the reported [total_weight] is above
    [max_weight + 1e-9], and so is the sum of the three weights as real
    numbers. *)
Lemma weight_cap_exceeded_in_binary64 :
  map B64.pl_id
    (B64.placed (B64.pack_by_order B64.heavy_truck B64.heavy_boxes [0%N; 1%N; 2%N]))
  = ["a"%string; "b"%string; "c"%string]
  /\ B64.ltb
       (PrimFloat.add (B64.truck_max_weight B64.heavy_truck) B64.loadEps)
       (B64.total_weight
          (B64.pack_by_order B64.heavy_truck B64.heavy_boxes [0%N; 1%N; 2%N]))
     = true
  /\ B64.exact (B64.truck_max_weight B64.heavy_truck) + (1 # 1000000000)
     < fold_right Qplus 0
         (map (fun b => B64.exact (B64.box_weight b)) B64.heavy_boxes).
Proof. vm_compute. repeat split. Qed.

(** C6, as stated, fails on the numbers of the machine.  The volume of the
    one box and the volume of the truck overflow to infinity, the
    utilization of every packing is [inf / inf], NaN, and so is every score:
    the score of the result is not greater than or equal to the score of
    the heuristic seed, no comparison with NaN being true. *)
Lemma seed_score_not_reached_in_binary64 :
  PrimFloat.is_nan
    (B64.utilization
       (B64.optimize_ga (RE := B64.Lcg.engine) B64.huge_truck B64.huge_boxes
          4 1 0.5%float 1%N))
  = true
  /\ B64.leb
       (B64.ind_score
          (fst (B64.make_individual (RE := B64.Lcg.engine) B64.huge_truck B64.huge_boxes
                  false (B64.mt19937 (RandomEngine := B64.Lcg.engine) 1%N))))
       (B64.score_result
          (B64.optimize_ga (RE := B64.Lcg.engine) B64.huge_truck B64.huge_boxes
             4 1 0.5%float 1%N))
     = false.
Proof. vm_compute. split; reflexivity. Qed.

(** C2, as stated, fails: on a valid input the box of weight 1 ends with a
    load of [6 + 5e-10] on top, above [min(6·1, 1·2500) = 6]. *)
Lemma crush_bound_without_slack_fails :
  ~ (forall (t : Truck) (boxes : list Box) (order : list N) (s : PlacedState),
       valid_truck t -> Forall valid_box boxes ->
       Permutation order (base_order (length boxes)) ->
       In s (pk_placed (pack_run t boxes order)) ->
       load_on_top s <= strict_budget s).
Proof.
  intro H.
  specialize (H slack_truck slack_boxes slack_order
                (mkPlacedState (mkAABB 0 0 0 1 1 1) "A" 1 6
                   (12000000001 # 2000000000))).
  assert (Hle : 12000000001 # 2000000000 <= 6).
  { apply H.
    - repeat split.
    - repeat constructor; discriminate.
    - apply Permutation_refl.
    - vm_compute. left. reflexivity. }
  vm_compute in Hle. apply Hle. reflexivity.
Qed.

(** C8, as stated, fails: a request with two boxes of id ["A"] is
    optimized and both boxes come back placed. *)
Lemma duplicate_ids_are_optimized :
  ~ NoDup (map box_id twin_boxes)
  /\ optimize (RE := Lcg.engine) twin_truck twin_boxes (mkParams None None None None)
     <> Failed DuplicateId
  /\ optimize (RE := Lcg.engine) twin_truck twin_boxes (mkParams None None None None)
     = Returned
         (mkResult
            [mkPlacement "A" 0 0 0 1 1 1; mkPlacement "A" 1 0 0 1 1 1]
            [] 2 2 (2 # 2) 2).
Proof.
  split; [|split].
  - intro H. inversion H as [|? ? Hnotin _]; subst. apply Hnotin. now left.
  - discriminate.
  - vm_compute. reflexivity.
Qed.

(** C4 on the stack instance.  When box ["B"] is attempted, the tentative
    AABB at (1, 1, 0) passes containment, collision and the kernel on the
    placed states as they are before the sweep, and its origin is lower in
    (y, z, x) than (0, 1, 1); yet the sweep accepts (0, 1, 1): the load that
    the earlier, worse spot put on ["A"] is still applied when the kernel
    is asked about (1, 1, 0), which it then rejects. *)
Theorem stale_best_load_hides_better_spot :
  let before := pack_run stack_truck stack_boxes [0%N; 1%N] in
  let box := box_at stack_boxes 2%N in
  let candidates := unique_candidates (pk_candidates before) in
  let lower := mkAABB 1 1 0 1 1 1 in
  let sw := sweep stack_truck box candidates (pk_placed before) in
  nth_error (attempts box candidates) 30 = Some lower
  /\ inside_truck stack_truck lower = true
  /\ collides_any (pk_placed before) lower = false
  /\ fst (fst (support_ok_and_apply_load lower (box_weight box) (pk_placed before)))
     = true
  /\ sw_found sw = true
  /\ sw_best sw = mkAABB 0 1 1 1 1 1
  /\ better lower (sw_best sw) = true
  /\ fst (fst (support_ok_and_apply_load lower (box_weight box)
                 (snd (fst (support_ok_and_apply_load (mkAABB 0 1 1 1 1 1)
                              (box_weight box) (pk_placed before))))))
     = false
  /\ placed (pack_by_order stack_truck stack_boxes stack_order)
     = [mkPlacement "A" 0 0 0 2 1 2; mkPlacement "C" 0 1 0 1 1 1;
        mkPlacement "B" 0 1 1 1 1 1].
Proof.
  vm_compute. repeat split; reflexivity.
Qed.

(** ** The theorems at concrete inputs *)

(** Two boxes of weight 1 use up the cap of 2: the second was let through
    against a budget of 1, the total is 0 + 1 + 1, and the third finds the
    guard true and is only recorded as unplaced. *)
Lemma pack_by_order_weight_guard_witness :
  placed_weights (pk_placed (pack_run cap_truck cap_boxes [0%N; 1%N; 2%N])) = [1; 1]
  /\ total_weight (pack_by_order cap_truck cap_boxes [0%N; 1%N; 2%N])
     = running_total [1; 1]
  /\ Qltb (remaining_after cap_truck [1] + loadEps) 1 = false
  /\ unplaced (pack_by_order cap_truck cap_boxes [0%N; 1%N; 2%N]) = ["c"%string]
  /\ unplaced (pk_result (pack_step cap_truck cap_boxes
                            (pack_run cap_truck cap_boxes [0%N; 1%N]) 2%N))
     = unplaced (pk_result (pack_run cap_truck cap_boxes [0%N; 1%N])) ++ ["c"%string].
Proof.
  pose proof (pack_by_order_weight_guard cap_truck cap_boxes [0%N; 1%N; 2%N]) as H.
  cbv zeta in H. destruct H as (_ & Htot & Hguard & Hskip).
  assert (Hws : placed_weights (pk_placed (pack_run cap_truck cap_boxes [0%N; 1%N; 2%N]))
                = [1; 1]) by (vm_compute; reflexivity).
  rewrite Hws in Htot, Hguard.
  split; [exact Hws|]. split; [exact Htot|].
  split; [exact (Hguard 1%nat 1 eq_refl)|].
  split; [vm_compute; reflexivity|].
  apply (Hskip (pack_run cap_truck cap_boxes [0%N; 1%N]) 2%N).
  vm_compute. reflexivity.
Defined.

Lemma pack_by_order_crush_budget_witness :
  nonneg_weights slack_boxes
  /\ 12000000001 # 2000000000 <= std_max kEps (std_min (1 * 6) (1 * 1 * 2500)) + loadEps.
Proof.
  assert (Hnn : nonneg_weights slack_boxes) by (repeat constructor; discriminate).
  split; [exact Hnn|].
  apply (pack_by_order_crush_budget slack_truck slack_boxes slack_order
           (mkPlacedState (mkAABB 0 0 0 1 1 1) "A"%string 1 6
              (12000000001 # 2000000000)) Hnn).
  vm_compute. left. reflexivity.
Defined.


(** Box [A] carries [C], a load of 2 out of a budget of 6: a box of weight
    5 put on [A] next to [C] has its centroid supported and its base fully
    covered, fails the crush check of [A] (2 + 5 > 6 + 1e-9), and the call
    leaves the two placed states and the load on [A] as they were. *)
Lemma support_ok_and_apply_load_transactional_witness :
  kEps < ay (mkAABB 1 1 0 1 1 1)
  /\ pk_placed (pack_run stack_truck stack_boxes [0%N; 1%N])
     = [mkPlacedState (mkAABB 0 0 0 2 1 2) "A" 1 6 2;
        mkPlacedState (mkAABB 0 1 0 1 1 1) "C" 2 12 0]
  /\ support_ok_and_apply_load (mkAABB 1 1 0 1 1 1) 5
       (pk_placed (pack_run stack_truck stack_boxes [0%N; 1%N]))
     = (false, pk_placed (pack_run stack_truck stack_boxes [0%N; 1%N]), []).
Proof.
  assert (Hy : kEps < ay (mkAABB 1 1 0 1 1 1)) by reflexivity.
  split; [exact Hy|]. split; [vm_compute; reflexivity|].
  apply (proj1 (support_ok_and_apply_load_transactional (mkAABB 1 1 0 1 1 1) 5
                  (pk_placed (pack_run stack_truck stack_boxes [0%N; 1%N])) Hy)).
  right. right. exists 0%nat. eexists. split.
  - vm_compute. left. reflexivity.
  - vm_compute. reflexivity.
Defined.

Lemma optimize_ga_not_below_seed_witness :
  stack_boxes <> [] /\ moderate_truck stack_truck /\ Forall moderate_box stack_boxes
  /\ ind_score (fst (make_individual (RE := Lcg.engine) stack_truck stack_boxes false
                       (mt19937 7%N)))
     <= score_result (optimize_ga (RE := Lcg.engine) stack_truck stack_boxes 4 2 (1 # 2) 7%N).
Proof.
  assert (Hne : stack_boxes <> []) by discriminate.
  assert (Ht : moderate_truck stack_truck) by (repeat split; vm_compute; discriminate).
  assert (Hb : Forall moderate_box stack_boxes)
    by (repeat constructor; vm_compute; discriminate).
  split; [exact Hne|]. split; [exact Ht|]. split; [exact Hb|].
  apply (optimize_ga_not_below_seed (RE := Lcg.engine) stack_truck stack_boxes
           4 2 (1 # 2) 7%N Hne Ht Hb).
Defined.


Lemma crossover_is_permutation_witness :
  Permutation
    (crossover_at 5 (base_order 5) (rev (base_order 5)) 1 2)
    (base_order 5).
Proof.
  apply (crossover_is_permutation 5 (base_order 5) (rev (base_order 5)) 1 2).
  - discriminate.
  - apply Permutation_refl.
  - apply Permutation_sym, Permutation_rev.
  - lia.
  - lia.
Defined.

(** * Further properties of the packer *)

(** ** Containment *)




(** ** Placed and unplaced ids follow the order *)

Lemma pack_step_reports_one (t : Truck) (boxes : list Box) (st : PackState) (idx : N) :
  (map pl_id (placed (pk_result (pack_step t boxes st idx)))
     = map pl_id (placed (pk_result st)) ++ [id_at boxes idx]
   /\ unplaced (pk_result (pack_step t boxes st idx)) = unplaced (pk_result st))
  \/ (map pl_id (placed (pk_result (pack_step t boxes st idx)))
        = map pl_id (placed (pk_result st))
      /\ unplaced (pk_result (pack_step t boxes st idx))
         = unplaced (pk_result st) ++ [id_at boxes idx]).
Proof.
  unfold pack_step, id_at.
  destruct (Qltb _ _); simpl; [right; auto|].
  destruct (sw_found _); simpl.
  - left. rewrite map_app. auto.
  - right. auto.
Qed.

Lemma pack_fold_split (t : Truck) (boxes : list Box) (l : list N) :
  forall st : PackState,
  exists mask : list bool,
    length mask = length l
    /\ map pl_id (placed (pk_result (fold_left (pack_step t boxes) l st)))
       = map pl_id (placed (pk_result st)) ++ map (id_at boxes) (pick mask l)
    /\ unplaced (pk_result (fold_left (pack_step t boxes) l st))
       = unplaced (pk_result st) ++ map (id_at boxes) (pick (map negb mask) l).
Proof.
  induction l as [|idx l IH]; intro st; simpl.
  - exists []. simpl. now rewrite !app_nil_r.
  - destruct (IH (pack_step t boxes st idx)) as (mask & Hlen & Hp & Hu).
    destruct (pack_step_reports_one t boxes st idx) as [[Hp1 Hu1]|[Hp1 Hu1]].
    + exists (true :: mask). simpl. rewrite Hlen, Hp, Hu, Hp1, Hu1.
      rewrite <- app_assoc. auto.
    + exists (false :: mask). simpl. rewrite Hlen, Hp, Hu, Hp1, Hu1.
      rewrite <- app_assoc. auto.
Qed.

(** The placed ids are the ids of a subsequence of [order], in the order of
    [order], and the unplaced ids are the ids of the other entries, again in
    that order: every entry of [order] is reported exactly once. *)
Theorem pack_by_order_follows_order (t : Truck) (boxes : list Box) (order : list N) :
  exists mask : list bool,
    length mask = length order
    /\ map pl_id (placed (pack_by_order t boxes order))
       = map (id_at boxes) (pick mask order)
    /\ unplaced (pack_by_order t boxes order)
       = map (id_at boxes) (pick (map negb mask) order)
    /\ (length (placed (pack_by_order t boxes order))
        + length (unplaced (pack_by_order t boxes order)) = length order)%nat.
Proof.
  destruct (pack_fold_split t boxes order (pack_init t boxes)) as (mask & Hlen & Hp & Hu).
  exists mask. unfold pack_by_order, pack_run, finish. simpl in *.
  split; [exact Hlen|]. split; [exact Hp|]. split; [exact Hu|].
  assert (Hcount := Permutation_length (pack_by_order_reports t boxes order)).
  unfold reported_ids, pack_by_order, pack_run, finish in Hcount. simpl in Hcount.
  rewrite length_app, !length_map in Hcount. exact Hcount.
Qed.

(** ** Partition of the input ids *)

Lemma box_at_base_order (boxes : list Box) :
  map (box_at boxes) (base_order (length boxes)) = boxes.
Proof.
  unfold base_order. rewrite map_map.
  apply (nth_ext _ _ default_box default_box).
  - now rewrite length_map, length_seq.
  - intros k Hk. rewrite length_map, length_seq in Hk.
    transitivity (nth k (map (fun x => box_at boxes (N.of_nat x)) (seq 0 (length boxes)))
                    ((fun x => box_at boxes (N.of_nat x)) (length boxes))).
    { apply nth_indep. now rewrite length_map, length_seq. }
    rewrite (map_nth (fun x => box_at boxes (N.of_nat x))), seq_nth by exact Hk.
    unfold box_at. now rewrite Nat2N.id.
Qed.

(** When [order] is a permutation of the indices, the placed ids together
    with the unplaced ids are the input ids, each as often as the input has
    it, and the two lists have as many entries as there are boxes. *)
Theorem pack_by_order_partition (t : Truck) (boxes : list Box) (order : list N) :
  Permutation order (base_order (length boxes)) ->
  Permutation (reported_ids (pack_by_order t boxes order)) (map box_id boxes)
  /\ (length (placed (pack_by_order t boxes order))
      + length (unplaced (pack_by_order t boxes order)) = length boxes)%nat.
Proof.
  intro Hperm.
  assert (Hids : Permutation (reported_ids (pack_by_order t boxes order))
                   (map box_id boxes)).
  { eapply perm_trans; [apply pack_by_order_reports|].
    replace (map box_id boxes)
      with (map box_id (map (box_at boxes) (base_order (length boxes))))
      by (now rewrite box_at_base_order).
    rewrite map_map. apply Permutation_map. exact Hperm. }
  split; [exact Hids|].
  apply Permutation_length in Hids.
  unfold reported_ids in Hids. now rewrite length_app, !length_map in Hids.
Qed.

(** ** Volume accounting *)

Lemma pack_step_volume (t : Truck) (boxes : list Box) (st : PackState) (idx : N) :
  volume_accounted boxes (pk_result st) ->
  volume_accounted boxes (pk_result (pack_step t boxes st idx)).
Proof.
  intros [Hu Ht]. unfold pack_step.
  destruct (Qltb _ _); [split; assumption|].
  destruct (sw_found _); cbn [negb]; cbv iota zeta; [|split; assumption].
  split; cbn [pk_result push_placed used_volume total_volume placed]; [|exact Ht].
  unfold running_volume in *. rewrite fold_left_app. cbn [fold_left pl_w pl_h pl_d].
  now rewrite Hu.
Qed.

Lemma pack_run_volume (t : Truck) (boxes : list Box) (order : list N) :
  volume_accounted boxes (pk_result (pack_run t boxes order)).
Proof.
  unfold pack_run. apply fold_left_invariant.
  - split; reflexivity.
  - intros st x _. apply pack_step_volume.
Qed.

(** The totals of the result as the loop accumulates them: [used_volume]
    is the volumes [w * h * d] of the returned placements added one after
    the other in the order of the placements, [total_volume] the volumes of
    all input boxes added in the order of the input, whatever the order of
    packing, and [utilization] is the quotient of [used_volume] by the
    product [truck.w * truck.h * truck.d] when the product is positive, and
    0 otherwise. *)
Theorem pack_by_order_volume_law (t : Truck) (boxes : list Box) (order : list N) :
  used_volume (pack_by_order t boxes order)
  = running_volume (placed (pack_by_order t boxes order))
  /\ total_volume (pack_by_order t boxes order)
     = fold_left (fun acc box => acc + volume (box_w box) (box_h box) (box_d box))
         boxes 0
  /\ utilization (pack_by_order t boxes order)
     = if Qltb 0 (truck_w t * truck_h t * truck_d t)
       then used_volume (pack_by_order t boxes order)
            / (truck_w t * truck_h t * truck_d t)
       else 0.
Proof.
  destruct (pack_run_volume t boxes order) as [Hu Ht].
  unfold pack_by_order, finish. cbn [used_volume total_volume utilization placed].
  split; [exact Hu|]. split; [exact Ht|reflexivity].
Qed.

(** ** Support of stacked boxes *)

Lemma scan_supports_boxes (c : AABB) (ccx ccz : Q) (rest : list PlacedState) :
  forall (rest' : list PlacedState) (i : nat) (acc : SupportScan),
  map ps_box rest = map ps_box rest' ->
  scan_supports c ccx ccz i rest acc = scan_supports c ccx ccz i rest' acc.
Proof.
  induction rest as [|s r IH]; intros [|s' r'] i acc H; try discriminate; auto.
  simpl in H. injection H as Hb Hr. simpl. rewrite <- Hb.
  destruct (Qltb _ _); [now apply IH|].
  destruct (Qleb _ _); now apply IH.
Qed.

Lemma well_supported_boxes (c : AABB) (l l' : list PlacedState) :
  map ps_box l = map ps_box l' -> well_supported c l -> well_supported c l'.
Proof.
  intros H. unfold well_supported, candidate_scan.
  now rewrite (scan_supports_boxes c _ _ l l' 0 _ H).
Qed.

Lemma support_success_tests (c : AABB) (w : Q) (l : list PlacedState) :
  fst (fst (support_ok_and_apply_load c w l)) = true -> kEps < ay c ->
  well_supported c l.
Proof.
  intros Hok Hy. apply Qleb_gt in Hy.
  unfold support_ok_and_apply_load in Hok. rewrite Hy in Hok.
  unfold well_supported.
  destruct (centroid_supported (candidate_scan c l)); [|discriminate].
  simpl in Hok. destruct (Qltb _ _) eqn:Hcov; [discriminate|].
  apply Qltb_ge in Hcov. auto.
Qed.

Lemma sweep_best_supported (t : Truck) (box : Box) (cs : list Candidate)
    (placed0 : list PlacedState) :
  sw_found (sweep t box cs placed0) = true ->
  kEps < ay (sw_best (sweep t box cs placed0)) ->
  well_supported (sw_best (sweep t box cs placed0)) placed0.
Proof.
  unfold sweep.
  apply (fold_left_invariant
           (fun st => map frame (sw_placed st) = map frame placed0 /\
                      (sw_found st = true -> kEps < ay (sw_best st) ->
                       well_supported (sw_best st) placed0))).
  - split; [reflexivity | discriminate].
  - intros st c _ [Hfr Hbest]. split.
    + now rewrite try_candidate_frame.
    + assert (Hsup := support_success_tests c (box_weight box) (sw_placed st)).
      case_try_candidate t (box_weight box) st c E; simpl; auto.
      intros _ Hy. apply (well_supported_boxes c (sw_placed st)).
      * now apply frame_boxes.
      * now apply Hsup.
Qed.

Lemma supports_recorded_frame (l l' : list PlacedState) :
  map frame l = map frame l' -> supports_recorded l -> supports_recorded l'.
Proof.
  intros Hfr Hl k s' Hk Hy.
  assert (Hnth : nth_error (map frame l) k = nth_error (map frame l') k)
    by now rewrite Hfr.
  rewrite !nth_error_map, Hk in Hnth.
  destruct (nth_error l k) as [s|] eqn:Hs; [|discriminate].
  assert (Hbox : ps_box s = ps_box s').
  { unfold frame in Hnth. simpl in Hnth. congruence. }
  rewrite <- Hbox in *.
  apply (well_supported_boxes _ (firstn k l)).
  - rewrite <- !firstn_map. f_equal. now apply frame_boxes.
  - now apply Hl.
Qed.

Lemma supports_recorded_snoc (l : list PlacedState) (s : PlacedState) :
  supports_recorded l ->
  (kEps < ay (ps_box s) -> well_supported (ps_box s) l) ->
  supports_recorded (l ++ [s]).
Proof.
  intros Hl Hs k s' Hk Hy.
  destruct (Nat.lt_ge_cases k (length l)) as [Hlt|Hge].
  - rewrite nth_error_app1 in Hk by exact Hlt.
    rewrite firstn_app. replace (k - length l)%nat with 0%nat by lia.
    simpl. rewrite app_nil_r. now apply Hl.
  - rewrite nth_error_app2 in Hk by exact Hge.
    destruct (k - length l)%nat as [|d] eqn:Hd; simpl in Hk.
    + injection Hk as <-. assert (k = length l) by lia. subst k.
      rewrite firstn_app, firstn_all, Nat.sub_diag. simpl. rewrite app_nil_r.
      now apply Hs.
    + now destruct d.
Qed.

Lemma pack_step_supports (t : Truck) (boxes : list Box) (st : PackState) (idx : N) :
  supports_recorded (pk_placed st) ->
  supports_recorded (pk_placed (pack_step t boxes st idx)).
Proof.
  intro H. unfold pack_step.
  destruct (Qltb _ _); [exact H|].
  set (cs := unique_candidates (pk_candidates st)).
  set (box := box_at boxes idx).
  assert (Hfr := sweep_frame t box cs (pk_placed st)).
  assert (Hsup := sweep_best_supported t box cs (pk_placed st)).
  assert (H' : supports_recorded (sw_placed (sweep t box cs (pk_placed st)))).
  { apply (supports_recorded_frame (pk_placed st)); [now symmetry | exact H]. }
  destruct (sw_found (sweep t box cs (pk_placed st))); simpl negb; cbv iota; simpl;
    [|exact H'].
  apply supports_recorded_snoc; [exact H'|]. simpl. intro Hy.
  apply (well_supported_boxes _ (pk_placed st)).
  - symmetry. now apply frame_boxes.
  - now apply Hsup.
Qed.

(** In the final state of [pack_by_order], every box placed above the
    floor ([y > 1e-8]) passes the kernel's two support tests against the
    boxes placed before it: some support lying under its face contains its
    xz centroid, and the supports cover at least 90% of its base area, up
    to the slack [1e-9]. *)
Theorem pack_by_order_supported (t : Truck) (boxes : list Box) (order : list N)
    (k : nat) (s : PlacedState) :
  nth_error (pk_placed (pack_run t boxes order)) k = Some s ->
  kEps < ay (ps_box s) ->
  centroid_supported
    (candidate_scan (ps_box s) (firstn k (pk_placed (pack_run t boxes order)))) = true
  /\ kMinSupportRatio * std_max kEps (aw (ps_box s) * ad (ps_box s))
     <= supported_area
          (candidate_scan (ps_box s) (firstn k (pk_placed (pack_run t boxes order))))
        + loadEps.
Proof.
  assert (H : supports_recorded (pk_placed (pack_run t boxes order))).
  { unfold pack_run. apply fold_left_invariant.
    - intros [|k'] s' Hk; discriminate.
    - intros st x _. apply pack_step_supports. }
  intros Hk Hy. exact (H k s Hk Hy).
Qed.

(** ** The first box *)

Lemma try_candidate_empty_truck (t : Truck) (w : Q) (r r' : Q * Q * Q) :
  try_candidate t w (mkSweep true (oriented origin r') [] []) (oriented origin r)
  = mkSweep true (oriented origin r') [] [].
Proof.
  destruct r as [[r0 r1] r2], r' as [[q0 q1] q2].
  unfold try_candidate. destruct (inside_truck _ _); reflexivity.
Qed.

Lemma sweep_found_empty_truck (t : Truck) (w : Q) (r' : Q * Q * Q)
    (rs : list (Q * Q * Q)) :
  fold_left (try_candidate t w) (map (oriented origin) rs)
    (mkSweep true (oriented origin r') [] [])
  = mkSweep true (oriented origin r') [] [].
Proof.
  induction rs as [|r rs IH]; simpl; [reflexivity|].
  now rewrite try_candidate_empty_truck.
Qed.

Lemma sweep_empty_truck (t : Truck) (w : Q) (rs : list (Q * Q * Q)) (st : Sweep) :
  sw_found st = false -> sw_placed st = [] ->
  fold_left (try_candidate t w) (map (oriented origin) rs) st
  = match find (fun r => inside_truck t (oriented origin r)) rs with
    | Some r => mkSweep true (oriented origin r) [] []
    | None => st
    end.
Proof.
  revert st. induction rs as [|r rs IH]; intros st Hf Hp; simpl; [reflexivity|].
  destruct st as [found best loads placed0]. simpl in Hf, Hp. subst found placed0.
  destruct (inside_truck t (oriented origin r)) eqn:Hin.
  - replace (try_candidate t w (mkSweep false best loads []) (oriented origin r))
      with (mkSweep true (oriented origin r) [] []).
    + apply sweep_found_empty_truck.
    + unfold try_candidate. rewrite Hin. destruct r as [[r0 r1] r2]. reflexivity.
  - replace (try_candidate t w (mkSweep false best loads []) (oriented origin r))
      with (mkSweep false best loads []).
    + now apply IH.
    + unfold try_candidate. now rewrite Hin.
Qed.

Lemma sweep_origin (t : Truck) (box : Box) :
  sweep t box [origin] []
  = match first_fit t box with
    | Some r => mkSweep true (oriented origin r) [] []
    | None => mkSweep false (mkAABB 0 0 0 0 0 0) [] []
    end.
Proof.
  unfold sweep, first_fit.
  replace (attempts box [origin]) with (map (oriented origin) (rots box))
    by (unfold attempts; cbn [flat_map]; symmetry; apply app_nil_r).
  now apply sweep_empty_truck.
Qed.

Lemma pack_fold_grows (t : Truck) (boxes : list Box) (l : list N) :
  forall st : PackState,
  exists more more',
    placed (pk_result (fold_left (pack_step t boxes) l st))
    = placed (pk_result st) ++ more
    /\ unplaced (pk_result (fold_left (pack_step t boxes) l st))
       = unplaced (pk_result st) ++ more'.
Proof.
  induction l as [|idx l IH]; intro st; cbn [fold_left].
  - exists [], []. now rewrite !app_nil_r.
  - destruct (IH (pack_step t boxes st idx)) as (more & more' & Hp & Hu).
    rewrite Hp, Hu. unfold pack_step.
    destruct (Qltb _ _);
      [|destruct (sw_found _)];
      cbn [negb pk_result push_placed push_unplaced placed unplaced];
      rewrite <- ?app_assoc; eauto.
Qed.

(** The first box of an order, when the guard on its weight lets it
    through: it is placed at the origin in the first of its six orientations
    that passes [inside_truck], and heads the placements of the result; when
    no orientation passes, its id heads the unplaced ids. *)
Theorem first_box_at_origin (t : Truck) (boxes : list Box) (idx : N)
    (rest : list N) :
  Qltb (truck_max_weight t + loadEps) (box_weight (box_at boxes idx)) = false ->
  match first_fit t (box_at boxes idx) with
  | Some (w, h, d) =>
      exists more,
        placed (pack_by_order t boxes (idx :: rest))
        = mkPlacement (id_at boxes idx) 0 0 0 w h d :: more
  | None =>
      exists more,
        unplaced (pack_by_order t boxes (idx :: rest)) = id_at boxes idx :: more
  end.
Proof.
  intro Hw.
  unfold pack_by_order, pack_run, finish, id_at.
  cbn [fold_left placed unplaced].
  destruct (pack_fold_grows t boxes rest (pack_step t boxes (pack_init t boxes) idx))
    as (more & more' & Hp & Hu).
  rewrite Hp, Hu. clear Hp Hu.
  unfold pack_step, pack_init.
  cbn [pk_remaining_weight pk_candidates pk_placed pk_result]. rewrite Hw.
  replace (unique_candidates [mkCandidate 0 0 0]) with [origin] by reflexivity.
  rewrite sweep_origin.
  destruct (first_fit t (box_at boxes idx)) as [[[w h] d]|];
    cbn [sw_found negb pk_result push_placed push_unplaced placed unplaced app
         sw_best oriented origin cx cy cz ax ay az aw ah ad];
    eauto.
Qed.

(** * Further properties of the GA driver *)

(** ** Generations keep their size and their elite *)

Lemma offspring_shape {RE : RandomEngine} (truck : Truck) (boxes : list Box)
    (population : Z) (mutation_rate : Q) (k : nat) :
  forall (pop next : list Individual) (g : rng),
  exists children : list Individual,
    fst (offspring truck boxes population mutation_rate k pop next g) = next ++ children
    /\ length children = k.
Proof.
  induction k as [|k IH]; intros pop next g; cbn [offspring].
  - exists []. now rewrite app_nil_r.
  - destruct (select_parent population pop g) as [p1 g1].
    destruct (select_parent population pop g1) as [p2 g2].
    destruct (crossover boxes p1 p2 g2) as [child g3].
    destruct (mutate boxes mutation_rate child g3) as [child' g4].
    destruct (IH pop (next ++ [evaluate truck boxes child']) g4) as (cs & Hcs & Hlen).
    exists (evaluate truck boxes child' :: cs). rewrite Hcs, <- app_assoc. simpl.
    split; [reflexivity | now rewrite Hlen].
Qed.

Lemma fill_random_length {RE : RandomEngine} (truck : Truck) (boxes : list Box)
    (k : nat) :
  forall (pop : list Individual) (g : rng),
  length (fst (fill_random truck boxes k pop g)) = (length pop + k)%nat.
Proof.
  induction k as [|k IH]; intros pop g; cbn [fill_random].
  - simpl. lia.
  - destruct (make_individual truck boxes true g) as [ind g'].
    rewrite IH, length_app. simpl. lia.
Qed.

Lemma elite_count_bounds (population : Z) :
  (1 <= population)%Z ->
  (1 <= elite_count population <= Z.to_nat population)%nat.
Proof.
  intro Hp. unfold elite_count.
  assert (Hq : (Z.quot population 10 <= population)%Z).
  { rewrite Z.quot_div_nonneg by lia. apply Z.div_le_upper_bound; lia. }
  lia.
Qed.


(** ** Orders stay permutations *)

Lemma heuristic_order_perm (boxes : list Box) :
  Permutation (heuristic_order boxes) (base_order (length boxes)).
Proof. apply stable_sort_perm. Qed.

Lemma replace_perm (x : N) (r : list N) (k : nat) :
  (k < length r)%nat ->
  Permutation (nth k r 0%N :: update_at k (fun _ => x) r) (x :: r).
Proof.
  revert k. induction r as [|y r IH]; intros [|k] Hk; simpl in *; try lia.
  - apply perm_swap.
  - apply perm_trans with (y :: nth k r 0%N :: update_at k (fun _ => x) r).
    + apply perm_swap.
    + apply perm_trans with (y :: x :: r).
      * apply perm_skip. apply IH. lia.
      * apply perm_swap.
Qed.

Lemma swap_at_perm (l : list N) :
  forall a b : nat, (a < length l)%nat -> (b < length l)%nat ->
  Permutation (swap_at a b l) l.
Proof.
  unfold swap_at. induction l as [|x r IH]; intros a b Ha Hb; simpl in *; [lia|].
  destruct a as [|a], b as [|b]; simpl.
  - apply Permutation_refl.
  - apply replace_perm. lia.
  - apply replace_perm. lia.
  - apply perm_skip. apply IH; lia.
Qed.

Lemma crossover_at_permutes (n : nat) (a b : list N) (i j : nat) :
  (N.of_nat n <= npos)%N ->
  Permutation a (base_order n) -> Permutation b (base_order n) ->
  (i <= j)%nat -> (j < n)%nat ->
  Permutation (crossover_at n a b i j) (base_order n).
Proof.
  intros Hn Hpa Hpb Hij Hj.
  assert (Hla : length a = n).
  { rewrite (Permutation_length Hpa). apply base_order_length. }
  assert (Hlb : length b = n).
  { rewrite (Permutation_length Hpb). apply base_order_length. }
  assert (Hna : NoDup a).
  { apply (Permutation_NoDup (Permutation_sym Hpa)), base_order_nodup. }
  assert (Hnb : NoDup b).
  { apply (Permutation_NoDup (Permutation_sym Hpb)), base_order_nodup. }
  assert (Hfa : Forall filled a).
  { apply (Permutation_Forall (Permutation_sym Hpa)), base_order_filled, Hn. }
  assert (Hfb : Forall filled b).
  { apply (Permutation_Forall (Permutation_sym Hpb)), base_order_filled, Hn. }
  assert (Hab : incl a b).
  { intros x Hx. apply (Permutation_in _ (Permutation_sym Hpb)).
    now apply (Permutation_in _ Hpa). }
  assert (Hsplit := remainder_perm a b i j Hna Hnb Hab).
  assert (Hlen : length (remainder a b i j) = (i + (n - S j))%nat).
  { apply Permutation_length in Hsplit.
    rewrite length_app, slice_length in Hsplit by lia. lia. }
  rewrite crossover_at_shape by (auto; lia).
  rewrite fill_slots_exact by (rewrite length_skipn; lia).
  apply perm_trans with b; [|exact Hpb].
  apply perm_trans with
    (slice a i j ++ firstn i (remainder a b i j) ++ skipn i (remainder a b i j)).
  - apply Permutation_app_swap_app.
  - rewrite firstn_skipn. apply Permutation_sym. exact Hsplit.
Qed.

Section LawfulDriver.
Context {RE : RandomEngine} {LE : LawfulEngine RE}.
Variable truck : Truck.
Variable boxes : list Box.
Variable population : Z.
Variable mutation_rate : Q.
Hypothesis some_box : (1 <= length boxes)%nat.
Hypothesis fits_size_t : (N.of_nat (length boxes) <= npos)%N.
Hypothesis some_individual : (1 <= population)%Z.

Local Abbreviation valid := (valid_individual truck boxes).

Lemma evaluate_valid (order : list N) :
  Permutation order (base_order (length boxes)) -> valid (evaluate truck boxes order).
Proof. intro H. split; [exact H | reflexivity]. Qed.

Lemma make_individual_valid (shuffle : bool) (g : rng) :
  valid (fst (make_individual truck boxes shuffle g)).
Proof.
  unfold make_individual. destruct shuffle.
  - assert (H := std_shuffle_perm (base_order (length boxes)) g).
    destruct (std_shuffle _ g) as [order g']. now apply evaluate_valid.
  - apply evaluate_valid, heuristic_order_perm.
Qed.

Lemma fill_random_valid (k : nat) :
  forall (pop : list Individual) (g : rng),
  Forall valid pop -> Forall valid (fst (fill_random truck boxes k pop g)).
Proof.
  induction k as [|k IH]; intros pop g Hpop; cbn [fill_random]; [exact Hpop|].
  assert (Hv := make_individual_valid true g).
  destruct (make_individual truck boxes true g) as [ind g'].
  apply IH. apply Forall_app. split; [exact Hpop|]. now constructor.
Qed.

Lemma tournament_member (pop : list Individual) (k : nat) :
  length pop = Z.to_nat population ->
  forall (best : option Individual) (g : rng),
  (forall b, best = Some b -> In b pop) ->
  forall b, fst (tournament population k pop best g) = Some b -> In b pop.
Proof.
  intro Hlen. induction k as [|k IH]; intros best g Hbest b; cbn [tournament].
  - exact (Hbest b).
  - assert (Hr := uniform_int_range 0 (population - 1) g ltac:(lia)).
    destruct (uniform_int 0 (population - 1) g) as [i g']. simpl in Hr.
    assert (Hcand : In (nth (Z.to_nat i) pop default_individual) pop).
    { apply nth_In. lia. }
    apply IH. intros b' Hb'. destruct best as [b0|].
    + destruct (Qltb _ _); injection Hb' as <-; [exact Hcand | now apply Hbest].
    + injection Hb' as <-. exact Hcand.
Qed.

Lemma select_parent_member (pop : list Individual) (g : rng) :
  length pop = Z.to_nat population ->
  In (fst (select_parent population pop g)) pop.
Proof.
  intro Hlen. unfold select_parent.
  assert (Hm := tournament_member pop 3 Hlen None g ltac:(discriminate)).
  assert (Hsome : fst (tournament population 3 pop None g) <> None).
  { cbn [tournament].
    destruct (uniform_int 0 (population - 1) g) as [i1 g1].
    destruct (uniform_int 0 (population - 1) g1) as [i2 g2].
    destruct (Qltb _ _);
      destruct (uniform_int 0 (population - 1) g2) as [i3 g3];
      destruct (Qltb _ _); discriminate. }
  destruct (tournament population 3 pop None g) as [[b|] g']; simpl in *.
  - now apply Hm.
  - congruence.
Qed.

Lemma crossover_valid (p1 p2 : Individual) (g : rng) :
  valid p1 -> valid p2 ->
  Permutation (fst (crossover boxes p1 p2 g)) (base_order (length boxes)).
Proof.
  intros [H1 _] [H2 _]. unfold crossover.
  assert (Hi := uniform_int_range 0 (Z.of_nat (length boxes) - 1) g ltac:(lia)).
  destruct (uniform_int 0 (Z.of_nat (length boxes) - 1) g) as [i g1]. simpl in Hi.
  assert (Hj := uniform_int_range 0 (Z.of_nat (length boxes) - 1) g1 ltac:(lia)).
  destruct (uniform_int 0 (Z.of_nat (length boxes) - 1) g1) as [j g2]. simpl in Hj.
  destruct (j <? i)%Z eqn:E; simpl.
  - apply Z.ltb_lt in E. apply crossover_at_permutes; auto; lia.
  - apply Z.ltb_ge in E. apply crossover_at_permutes; auto; lia.
Qed.

Lemma mutate_valid (order : list N) (g : rng) :
  Permutation order (base_order (length boxes)) ->
  Permutation (fst (mutate boxes mutation_rate order g)) (base_order (length boxes)).
Proof.
  intro H. unfold mutate.
  destruct (uniform_real g) as [u g1].
  destruct (Qltb mutation_rate u); [exact H|].
  assert (Ha := uniform_int_range 0 (Z.of_nat (length boxes) - 1) g1 ltac:(lia)).
  destruct (uniform_int 0 (Z.of_nat (length boxes) - 1) g1) as [a g2]. simpl in Ha.
  assert (Hb := uniform_int_range 0 (Z.of_nat (length boxes) - 1) g2 ltac:(lia)).
  destruct (uniform_int 0 (Z.of_nat (length boxes) - 1) g2) as [b g3]. simpl in Hb.
  simpl. apply perm_trans with order; [|exact H].
  assert (Hlen : length order = length boxes).
  { rewrite (Permutation_length H). apply base_order_length. }
  apply swap_at_perm; lia.
Qed.

Lemma offspring_valid (k : nat) :
  forall (pop next : list Individual) (g : rng),
  length pop = Z.to_nat population -> Forall valid pop -> Forall valid next ->
  Forall valid (fst (offspring truck boxes population mutation_rate k pop next g)).
Proof.
  induction k as [|k IH]; intros pop next g Hlen Hpop Hnext; cbn [offspring];
    [exact Hnext|].
  assert (H1 := select_parent_member pop g Hlen).
  destruct (select_parent population pop g) as [p1 g1]. simpl in H1.
  assert (H2 := select_parent_member pop g1 Hlen).
  destruct (select_parent population pop g1) as [p2 g2]. simpl in H2.
  rewrite Forall_forall in Hpop.
  assert (Hc := crossover_valid p1 p2 g2 (Hpop _ H1) (Hpop _ H2)).
  destruct (crossover boxes p1 p2 g2) as [child g3]. simpl in Hc.
  assert (Hm := mutate_valid child g3 Hc).
  destruct (mutate boxes mutation_rate child g3) as [child' g4]. simpl in Hm.
  apply IH; [exact Hlen | now apply Forall_forall |].
  apply Forall_app. split; [exact Hnext|].
  constructor; [now apply evaluate_valid | constructor].
Qed.

Lemma generation_valid (pop : list Individual) (g : rng) :
  length pop = Z.to_nat population -> Forall valid pop ->
  length (fst (generation truck boxes population mutation_rate pop g))
    = Z.to_nat population
  /\ Forall valid (fst (generation truck boxes population mutation_rate pop g)).
Proof.
  intros Hlen Hpop.
  destruct (elite_count_bounds population some_individual) as [He1 He2].
  assert (Hperm := stable_sort_perm by_score_desc pop).
  assert (Hsorted : Forall valid (stable_sort by_score_desc pop)).
  { apply (Permutation_Forall (Permutation_sym Hperm)). exact Hpop. }
  unfold generation. fold (elite_count population).
  set (sorted := stable_sort by_score_desc pop) in *.
  assert (Hsl : length sorted = Z.to_nat population).
  { unfold sorted. now rewrite stable_sort_length. }
  split.
  - destruct (offspring_shape truck boxes population mutation_rate
                (Z.to_nat population - length (firstn (elite_count population) sorted))
                sorted (firstn (elite_count population) sorted) g)
      as (children & Hshape & Hcl).
    rewrite Hshape, length_app, Hcl, length_firstn. lia.
  - apply offspring_valid; [exact Hsl | exact Hsorted |].
    apply Forall_forall. intros x Hx. rewrite Forall_forall in Hsorted.
    apply Hsorted. rewrite <- (firstn_skipn (elite_count population) sorted).
    apply in_or_app. now left.
Qed.

Lemma generations_loop_valid (gens : nat) :
  forall (pop : list Individual) (g : rng),
  length pop = Z.to_nat population -> Forall valid pop ->
  length (fst (generations_loop truck boxes population mutation_rate gens pop g))
    = Z.to_nat population
  /\ Forall valid (fst (generations_loop truck boxes population mutation_rate gens pop g)).
Proof.
  induction gens as [|gens IH]; intros pop g Hlen Hpop; cbn [generations_loop].
  - auto.
  - destruct (generation_valid pop g Hlen Hpop) as [Hlen' Hpop'].
    destruct (generation truck boxes population mutation_rate pop g) as [pop' g'].
    now apply IH.
Qed.

Lemma initial_population_valid (g : rng) :
  length (fst (initial_population truck boxes population g)) = Z.to_nat population
  /\ Forall valid (fst (initial_population truck boxes population g)).
Proof.
  unfold initial_population.
  assert (Hv := make_individual_valid false g).
  destruct (make_individual truck boxes false g) as [ind0 g0]. simpl in Hv.
  split.
  - rewrite fill_random_length. simpl. lia.
  - apply fill_random_valid. now constructor.
Qed.
End LawfulDriver.

(** ** What [optimize_ga] returns *)

Lemma cap_budget_bounds (n : nat) (population generations : Z) :
  (4 <= fst (cap_budget n population generations) <= 30)%Z
  /\ (1 <= snd (cap_budget n population generations) <= 25)%Z.
Proof.
  unfold cap_budget.
  destruct (250 <? n)%nat; [|destruct (150 <? n)%nat]; simpl; lia.
Qed.



Lemma reported_ids_of_permutation (t : Truck) (boxes : list Box) (order : list N) :
  Permutation order (base_order (length boxes)) ->
  Permutation (reported_ids (pack_by_order t boxes order)) (map box_id boxes).
Proof.
  intro Hperm.
  eapply perm_trans; [apply pack_by_order_reports|].
  replace (map box_id boxes)
    with (map box_id (map (box_at boxes) (base_order (length boxes))))
    by (now rewrite box_at_base_order).
  rewrite map_map. apply Permutation_map. exact Hperm.
Qed.

(** With an engine that keeps the promises of the C++ standard, on a
    non-empty box list whose length fits [size_t]: [optimize_ga] returns the
    packing of an order that is a permutation of the box indices, so the
    placed ids together with the unplaced ids are exactly the input ids,
    each as often as the input has it. *)
Theorem optimize_ga_reports_every_box {RE : RandomEngine} {LE : LawfulEngine RE}
    (truck : Truck) (boxes : list Box) (population generations : Z)
    (mutation_rate : Q) (seed : N) :
  boxes <> [] -> (N.of_nat (length boxes) <= npos)%N ->
  (exists order,
     Permutation order (base_order (length boxes))
     /\ optimize_ga truck boxes population generations mutation_rate seed
        = pack_by_order truck boxes order)
  /\ Permutation
       (reported_ids (optimize_ga truck boxes population generations mutation_rate seed))
       (map box_id boxes)
  /\ (length (placed (optimize_ga truck boxes population generations mutation_rate seed))
      + length (unplaced (optimize_ga truck boxes population generations
                            mutation_rate seed))
      = length boxes)%nat.
Proof.
  intros Hne Hsize.
  assert (Hex : exists order,
             Permutation order (base_order (length boxes))
             /\ optimize_ga truck boxes population generations mutation_rate seed
                = pack_by_order truck boxes order).
  { unfold optimize_ga. destruct boxes as [|b0 rest]; [congruence|].
    set (bs := b0 :: rest) in *.
    assert (Hsome : (1 <= length bs)%nat) by (simpl; lia).
    destruct (cap_budget_bounds (length bs) population generations) as [[Hp _] [Hg _]].
    destruct (cap_budget (length bs) population generations) as [p gn]. simpl in Hp, Hg.
    destruct (initial_population_valid truck bs p Hsome Hsize ltac:(lia)
                (mt19937 seed)) as [Hlen Hval].
    destruct (initial_population truck bs p (mt19937 seed)) as [pop g].
    simpl in Hlen, Hval.
    destruct (generations_loop_valid truck bs p mutation_rate Hsome Hsize ltac:(lia)
                (Z.to_nat gn) pop g Hlen Hval) as [Hlen' Hval'].
    destruct (generations_loop truck bs p mutation_rate (Z.to_nat gn) pop g)
      as [pop' g'].
    simpl in Hlen', Hval'.
    assert (Hfront : In (hd default_individual (stable_sort by_score_desc pop')) pop').
    { assert (Hmem := stable_sort_in by_score_desc pop').
      assert (Hsl := stable_sort_length by_score_desc pop').
      destruct (stable_sort by_score_desc pop') as [|front rest']; simpl in *.
      - lia.
      - apply Hmem. now left. }
    rewrite Forall_forall in Hval'. destruct (Hval' _ Hfront) as [Hperm Heval].
    exists (ind_order (hd default_individual (stable_sort by_score_desc pop'))).
    split; [exact Hperm|]. now rewrite Heval at 1. }
  split; [exact Hex|].
  destruct Hex as (order & Hperm & ->).
  assert (Hids := reported_ids_of_permutation truck boxes order Hperm).
  split; [exact Hids|].
  apply Permutation_length in Hids.
  unfold reported_ids in Hids. now rewrite length_app, !length_map in Hids.
Qed.

(** * Further properties of the geometry and the kernel *)

(** ** The scan collects exactly the supports *)






(** ** Tournament selection *)


(** * Request parsing *)

Section BindingsFacts.
Variable PyObj : Type.
Variable py_float : PyObj -> option Q.
Variable py_str : PyObj -> option string.
Variable py_int : PyObj -> option Z.

Local Abbreviation parse_box := (box_from_any PyObj py_float py_str py_int).
Local Abbreviation parse_boxes := (boxes_from_list PyObj py_float py_str py_int).
Local Abbreviation parse_truck := (truck_from_dict PyObj py_float).

Lemma boxes_from_list_all (items : list (PyDict PyObj)) :
  forall bs : list Box,
  parse_boxes items = Some bs <-> Forall2 (fun d b => parse_box d = Some b) items bs.
Proof.
  induction items as [|d items IH]; intro bs; cbn [boxes_from_list].
  - split.
    + intro H. injection H as <-. constructor.
    + intro H. now inversion H.
  - destruct (parse_box d) as [b|] eqn:Eb.
    + destruct (parse_boxes items) as [bs'|] eqn:Ebs.
      * split.
        -- intro H. injection H as <-. constructor; [exact Eb | now apply IH].
        -- intro H. inversion H as [|? b' ? bs'' Hb Hrest]; subst.
           apply IH in Hrest. congruence.
      * split; [discriminate|].
        intro H. inversion H as [|? b' ? bs'' Hb Hrest]; subst.
        apply IH in Hrest. discriminate.
    + split; [discriminate|].
      intro H. inversion H as [|? b' ? bs'' Hb Hrest]; subst. congruence.
Qed.

(** Parsing a request.  A box without one of [w], [h], [d], or with
    neither [id] nor [sku], makes [box_from_any] fail, and one failing box
    makes the whole list fail; a parsed list has one box per item, in
    order.  In a parsed box the id is read from [id] whenever that key is
    present, from [sku] otherwise, an absent [weight] gives 1.0 and an
    absent [priority] gives 1; a truck without [max_weight] gets 12000. *)
Theorem request_parsing (d : PyDict PyObj) (items : list (PyDict PyObj)) :
  ((d "w"%string = None \/ d "h"%string = None \/ d "d"%string = None
    \/ (d "id"%string = None /\ d "sku"%string = None)) ->
   parse_box d = None)
  /\ (forall b, parse_box d = Some b ->
        (forall obj, d "id"%string = Some obj -> py_str obj = Some (box_id b))
        /\ (d "id"%string = None ->
            exists obj, d "sku"%string = Some obj /\ py_str obj = Some (box_id b))
        /\ (d "weight"%string = None -> box_weight b = 1)
        /\ (d "priority"%string = None -> box_priority b = 1%Z))
  /\ ((exists bad, In bad items /\ parse_box bad = None) -> parse_boxes items = None)
  /\ (forall bs, parse_boxes items = Some bs ->
        length bs = length items
        /\ forall k dk, nth_error items k = Some dk ->
             exists b, nth_error bs k = Some b /\ parse_box dk = Some b)
  /\ ((d "w"%string = None \/ d "h"%string = None \/ d "d"%string = None) ->
      parse_truck d = None)
  /\ (forall t, parse_truck d = Some t -> d "max_weight"%string = None ->
        truck_max_weight t = 12000).
Proof.
  split; [|split; [|split; [|split; [|split]]]].
  - unfold box_from_any, item.
    intros [H|[H|[H|[H1 H2]]]]; try rewrite H; try rewrite H1, H2;
      repeat match goal with |- context [match ?x with _ => _ end] => destruct x end;
      reflexivity.
  - intros b Hb. unfold box_from_any, item, item_or in Hb.
    destruct (d "id"%string) as [oid|] eqn:Eid.
    + destruct (py_str oid) as [id|] eqn:Es; [|discriminate].
      repeat match type of Hb with
        | context [match ?x with _ => _ end] => destruct x eqn:?; try discriminate
        end;
      injection Hb as <-; simpl;
        (split; [intros obj Ho; congruence|]);
        (split; [discriminate|]);
        split; intro Hn;
          match goal with H : context [d _] |- _ => rewrite Hn in H; congruence end.
    + destruct (d "sku"%string) as [osku|] eqn:Esku; [|discriminate].
      destruct (py_str osku) as [id|] eqn:Es; [|discriminate].
      repeat match type of Hb with
        | context [match ?x with _ => _ end] => destruct x eqn:?; try discriminate
        end;
      injection Hb as <-; simpl;
        (split; [discriminate|]);
        (split; [intros _; exists osku; auto|]);
        split; intro Hn;
          match goal with H : context [d _] |- _ => rewrite Hn in H; congruence end.
  - intros (bad & Hin & Hbad).
    destruct (parse_boxes items) as [bs|] eqn:E; [|reflexivity].
    apply boxes_from_list_all in E. exfalso. clear -E Hin Hbad.
    induction E as [|dk b items bs Hb _ IH]; [destruct Hin|].
    destruct Hin as [<-|Hin]; [congruence | auto].
  - intros bs Hbs. apply boxes_from_list_all in Hbs. split.
    + symmetry. eapply Forall2_length; eauto.
    + induction Hbs as [|d0 b0 items bs Hb _ IH]; intros k dk Hk.
      * now destruct k.
      * destruct k as [|k]; simpl in *.
        -- injection Hk as <-. exists b0. auto.
        -- now apply IH.
  - unfold truck_from_dict, item.
    intros [H|[H|H]]; rewrite H;
      repeat match goal with |- context [match ?x with _ => _ end] => destruct x end;
      reflexivity.
  - intros t Ht Hmw. unfold truck_from_dict, item, item_or in Ht. rewrite Hmw in Ht.
    repeat match type of Ht with
      | context [match ?x with _ => _ end] => destruct x eqn:?; try discriminate
      end.
    now injection Ht as <-.
Qed.
End BindingsFacts.

(** ** The viewer's load order *)

Lemma filter_only {P : nat -> bool} (b : nat) (l : list nat) :
  NoDup l -> In b l ->
  filter (fun b' => Nat.eqb b' b && P b') l = if P b then [b] else [].
Proof.
  induction l as [|x l IH]; intros Hnd Hin; [destruct Hin|].
  inversion Hnd as [|x' l' Hx Hl]; subst x' l'. cbn [filter].
  destruct (Nat.eqb_spec x b) as [->|Hne].
  - cbn [andb].
    assert (Hrest : filter (fun b' => Nat.eqb b' b && P b') l = []).
    { clear -Hx. induction l as [|z l IH]; [reflexivity|]. cbn [filter].
      destruct (Nat.eqb_spec z b) as [->|Hz].
      - exfalso. apply Hx. now left.
      - cbn [andb]. apply IH. intro H. apply Hx. now right. }
    rewrite Hrest. now destruct (P b).
  - cbn [andb]. apply IH; [exact Hl|]. destruct Hin as [->|Hin]; [congruence|exact Hin].
Qed.

Lemma filter_none {A : Type} (l : list A) : filter (fun _ => false) l = [].
Proof. induction l as [|z l IH]; [reflexivity|exact IH]. Qed.

Lemma filter_without (P : nat -> bool) (c : nat) (l : list nat) :
  NoDup l -> In c l ->
  (length (filter (fun b => P b && negb (Nat.eqb b c)) l)
   + (if P c then 1 else 0))%nat = length (filter P l).
Proof.
  induction l as [|x l IH]; intros Hnd Hin; [destruct Hin|].
  inversion Hnd as [|x' l' Hx Hl]; subst x' l'. cbn [filter].
  destruct (Nat.eqb_spec x c) as [->|Hne].
  - rewrite andb_false_r.
    assert (Hrest : filter (fun b => P b && negb (Nat.eqb b c)) l = filter P l).
    { apply filter_ext_in. intros z Hz. destruct (Nat.eqb_spec z c) as [->|_].
      - contradiction.
      - apply andb_true_r. }
    rewrite Hrest. destruct (P c); cbn [length]; lia.
  - rewrite andb_true_r. destruct Hin as [->|Hin]; [congruence|].
    specialize (IH Hl Hin). destruct (P x); cbn [length]; lia.
Qed.

Lemma existsb_eqb_in (x : nat) (l : list nat) :
  existsb (Nat.eqb x) l = true <-> In x l.
Proof.
  rewrite existsb_exists. split.
  - intros [y [Hy Heq]]. apply Nat.eqb_eq in Heq. now subst y.
  - intro H. exists x. split; [exact H|apply Nat.eqb_refl].
Qed.

Lemma existsb_eqb_out (x : nat) (l : list nat) :
  existsb (Nat.eqb x) l = false <-> ~ In x l.
Proof.
  rewrite <- existsb_eqb_in. destruct (existsb (Nat.eqb x) l); split; congruence.
Qed.

Lemma split_at_nth {A : Type} (k : nat) (l : list A) (dflt : A) :
  (k < length l)%nat -> l = firstn k l ++ nth k l dflt :: skipn (S k) l.
Proof.
  revert k. induction l as [|x l IH]; intros [|k] Hk; cbn [length] in Hk; try lia.
  - reflexivity.
  - cbn [firstn nth skipn app]. f_equal. apply IH. lia.
Qed.

Lemma map_nth_all {A : Type} (l : list A) (dflt : A) :
  map (fun i => nth i l dflt) (seq 0 (length l)) = l.
Proof.
  apply (nth_ext _ _ dflt dflt).
  - now rewrite length_map, length_seq.
  - intros k Hk. rewrite length_map, length_seq in Hk.
    transitivity (nth k (map (fun i => nth i l dflt) (seq 0 (length l)))
                    ((fun i => nth i l dflt) 0%nat)).
    { apply nth_indep. now rewrite length_map, length_seq. }
    rewrite (map_nth (fun i => nth i l dflt)), seq_nth by exact Hk. reflexivity.
Qed.

Lemma least_by (y : nat -> Q) (l : list nat) :
  l <> [] -> exists x, In x l /\ forall z, In z l -> y x <= y z.
Proof.
  induction l as [|a l IH]; [congruence|]. intros _.
  destruct l as [|b l].
  - exists a. split; [now left|]. intros z [<-|[]]. apply Qle_refl.
  - destruct IH as [x [Hx Hmin]]; [discriminate|].
    destruct (Qlt_le_dec (y a) (y x)) as [Hlt|Hle].
    + exists a. split; [now left|]. intros z [<-|Hz]; [apply Qle_refl|].
      apply Qle_trans with (y x); [now apply Qlt_le_weak|now apply Hmin].
    + exists x. split; [now right|]. intros z [<-|Hz]; [exact Hle|now apply Hmin].
Qed.

Lemma bounded_nodup_length (n : nat) (l : list nat) :
  NoDup l -> (forall x, In x l -> (x < n)%nat) -> (length l <= n)%nat.
Proof.
  intros Hnd Hlt. pose proof (NoDup_incl_length (l' := seq 0 n) Hnd) as H.
  rewrite length_seq in H. apply H.
  intros x Hx. apply in_seq. specialize (Hlt x Hx). lia.
Qed.

Section LoadOrderFacts.
Variable localeCompare : string -> string -> Z.
Variable items : list Item.

Local Abbreviation n := (length items).
Local Abbreviation item_at i := (nth i items default_item).
Local Abbreviation inner t b :=
  (negb (Nat.eqb b t) && rests_on (item_at t) (item_at b))%bool.

(** *** The support graph *)

Lemma scan_bottoms_fold (t : nat) (bottoms : list nat) :
  forall st : list (list nat) * list Z,
  (forall b, In b bottoms -> (b < length (fst st))%nat) ->
  (t < length (snd st))%nat ->
  let st' :=
    fold_left
      (fun st bottomIndex =>
         if Nat.eqb bottomIndex t then st
         else if rests_on (item_at t) (item_at bottomIndex)
         then link st bottomIndex t else st)
      bottoms st in
  length (fst st') = length (fst st)
  /\ length (snd st') = length (snd st)
  /\ (forall b, nth b (fst st') []
                = nth b (fst st) []
                  ++ map (fun _ => t)
                       (filter (fun b' => Nat.eqb b' b && inner t b') bottoms))
  /\ (forall t', nth t' (snd st') 0%Z
                 = (nth t' (snd st) 0
                    + (if Nat.eqb t' t
                       then Z.of_nat (length (filter (fun b => inner t b) bottoms))
                       else 0))%Z).
Proof.
  induction bottoms as [|b0 bottoms IH]; intros st Hb Ht; cbn zeta.
  - cbn [fold_left filter map length]. repeat split; auto.
    + intro b. now rewrite app_nil_r.
    + intro t'. destruct (Nat.eqb t' t); cbn; lia.
  - cbn [fold_left].
    set (st1 := if Nat.eqb b0 t then st
                else if rests_on (item_at t) (item_at b0) then link st b0 t else st).
    assert (H1 : length (fst st1) = length (fst st)
                 /\ length (snd st1) = length (snd st)
                 /\ (forall b, nth b (fst st1) []
                               = nth b (fst st) []
                                 ++ (if Nat.eqb b0 b && inner t b0 then [t] else []))
                 /\ (forall t', nth t' (snd st1) 0%Z
                                = (nth t' (snd st) 0
                                   + (if Nat.eqb t' t && inner t b0 then 1 else 0))%Z)).
    { subst st1.
      destruct (Nat.eqb b0 t); cbn [negb andb].
      - repeat split; auto.
        + intro b. rewrite andb_false_r. now rewrite app_nil_r.
        + intro t'. rewrite andb_false_r. lia.
      - destruct (rests_on (item_at t) (item_at b0)).
        + unfold link. cbn [fst snd]. rewrite !update_at_length.
          repeat split; auto.
          * intro b. rewrite update_at_nth, andb_true_r, (Nat.eqb_sym b0 b).
            destruct (Nat.eqb_spec b b0) as [->|Hne]; cbn [andb].
            -- assert (Hlt : (b0 <? length (fst st))%nat = true)
                 by (apply Nat.ltb_lt, Hb; now left).
               now rewrite Hlt.
            -- now rewrite app_nil_r.
          * intro t'. rewrite update_at_nth, andb_true_r.
            destruct (Nat.eqb_spec t' t) as [->|Hne]; cbn [andb].
            -- assert (Hlt : (t <? length (snd st))%nat = true) by now apply Nat.ltb_lt.
               now rewrite Hlt.
            -- lia.
        + repeat split; auto.
          * intro b. rewrite andb_false_r. now rewrite app_nil_r.
          * intro t'. rewrite andb_false_r. lia. }
    destruct H1 as [Hl1 [Hl2 [Hadj1 Hdeg1]]].
    destruct (IH st1) as [Hl1' [Hl2' [Hadj Hdeg]]].
    { intros b Hin. rewrite Hl1. apply Hb. now right. }
    { now rewrite Hl2. }
    split; [congruence|]. split; [congruence|]. split.
    + intro b. rewrite Hadj, Hadj1, <- app_assoc. f_equal. cbn [filter].
      destruct (Nat.eqb b0 b && inner t b0); reflexivity.
    + intro t'. rewrite Hdeg, Hdeg1. cbn [filter].
      destruct (Nat.eqb t' t); cbn [andb]; [|lia].
      destruct (inner t b0); cbn [length]; lia.
Qed.

Lemma build_graph_fold (tops : list nat) :
  forall st : list (list nat) * list Z,
  length (fst st) = n -> length (snd st) = n ->
  (forall t, In t tops -> (t < n)%nat) ->
  let st' :=
    fold_left
      (fun st topIndex =>
         if Qleb (it_y (item_at topIndex)) viewer_yEps then st
         else scan_bottoms items topIndex st)
      tops st in
  length (fst st') = n
  /\ length (snd st') = n
  /\ (forall b, (b < n)%nat ->
        nth b (fst st') [] = nth b (fst st) [] ++ filter (carries items b) tops)
  /\ (forall t, nth t (snd st') 0%Z
                = (nth t (snd st) 0
                   + Z.of_nat (length (filter (fun t' => Nat.eqb t' t) tops)
                               * length (filter (fun b => carries items b t) (seq 0 n))))%Z).
Proof.
  induction tops as [|t0 tops IH]; intros st Hl1 Hl2 Hlt; cbn zeta.
  - cbn [fold_left filter length]. repeat split; auto.
    + intros b _. now rewrite app_nil_r.
    + intro t. cbn. lia.
  - cbn [fold_left].
    set (st1 := if Qleb (it_y (item_at t0)) viewer_yEps then st
                else scan_bottoms items t0 st).
    assert (H1 : length (fst st1) = n /\ length (snd st1) = n
                 /\ (forall b, (b < n)%nat ->
                       nth b (fst st1) []
                       = nth b (fst st) [] ++ (if carries items b t0 then [t0] else []))
                 /\ (forall t, nth t (snd st1) 0%Z
                               = (nth t (snd st) 0
                                  + (if Nat.eqb t0 t
                                     then Z.of_nat (length (filter (fun b => carries items b t)
                                                              (seq 0 n)))
                                     else 0))%Z)).
    { subst st1. unfold carries.
      destruct (Qleb (it_y (item_at t0)) viewer_yEps) eqn:Hy.
      - repeat split; auto.
        + intros b _. cbn [negb andb]. now rewrite app_nil_r.
        + intro t. destruct (Nat.eqb_spec t0 t) as [<-|_]; [|lia].
          rewrite Hy. cbn [negb andb].
          rewrite filter_none. cbn. lia.
      - destruct (scan_bottoms_fold t0 (seq 0 n) st) as [Ha [Hb [Hadj Hdeg]]].
        { intros b Hin. apply in_seq in Hin. lia. }
        { rewrite Hl2. apply Hlt. now left. }
        unfold scan_bottoms. split; [congruence|]. split; [congruence|]. split.
        + intros b Hb'. rewrite Hadj. f_equal. cbn [negb andb].
          rewrite (filter_only (P := fun b' => inner t0 b') b).
          * destruct (negb (Nat.eqb b t0) && rests_on (item_at t0) (item_at b)); reflexivity.
          * apply seq_NoDup.
          * apply in_seq. lia.
        + intro t. rewrite Hdeg, (Nat.eqb_sym t t0).
          destruct (Nat.eqb_spec t0 t) as [<-|_]; [|reflexivity].
          rewrite Hy. cbn [negb andb]. reflexivity. }
    destruct H1 as [Hl1' [Hl2' [Hadj1 Hdeg1]]].
    destruct (IH st1 Hl1' Hl2') as [Ha [Hb [Hadj Hdeg]]].
    { intros t Hin. apply Hlt. now right. }
    split; [exact Ha|]. split; [exact Hb|]. split.
    + intros b Hb'. rewrite Hadj, Hadj1 by exact Hb'. rewrite <- app_assoc. f_equal.
      cbn [filter]. destruct (carries items b t0); reflexivity.
    + intro t. rewrite Hdeg, Hdeg1. cbn [filter].
      destruct (Nat.eqb t0 t); cbn [length]; lia.
Qed.

Lemma build_graph_spec :
  length (fst (build_graph items)) = n
  /\ length (snd (build_graph items)) = n
  /\ (forall b, (b < n)%nat ->
        nth b (fst (build_graph items)) [] = filter (carries items b) (seq 0 n))
  /\ (forall t, (t < n)%nat ->
        nth t (snd (build_graph items)) 0%Z
        = Z.of_nat (length (filter (fun b => carries items b t) (seq 0 n)))).
Proof.
  destruct (build_graph_fold (seq 0 n) (repeat [] n, repeat 0%Z n))
    as [Ha [Hb [Hadj Hdeg]]].
  { apply repeat_length. }
  { apply repeat_length. }
  { intros t Hin. apply in_seq in Hin. lia. }
  unfold build_graph. split; [exact Ha|]. split; [exact Hb|]. split.
  - intros b Hb'. rewrite Hadj by exact Hb'. cbn [fst].
    rewrite nth_repeat. reflexivity.
  - intros t Ht. rewrite Hdeg. cbn [snd]. rewrite nth_repeat.
    assert (Hone : filter (fun t' => Nat.eqb t' t) (seq 0 n) = [t]).
    { rewrite (filter_ext _ (fun t' => Nat.eqb t' t && (fun _ => true) t')).
      - rewrite filter_only; [reflexivity|apply seq_NoDup|apply in_seq; lia].
      - intro z. now rewrite andb_true_r. }
    rewrite Hone. cbn [length]. lia.
Qed.

(** *** Taking the next index *)

Lemma best_position_bound (ranked : list Rank) (avail rest : list nat) :
  forall i bestPos, (bestPos < i)%nat ->
  (best_position localeCompare ranked avail rest i bestPos < i + length rest)%nat.
Proof.
  induction rest as [|a rest IH]; intros i bestPos Hlt; cbn [best_position length].
  - lia.
  - match goal with |- context [if ?c then _ else _] => destruct c end.
    + specialize (IH (S i) i). lia.
    + specialize (IH (S i) bestPos). lia.
Qed.

Lemma takeNext_spec (ranked : list Rank) (avail : list nat) :
  avail <> [] ->
  exists l1 l2,
    avail = l1 ++ fst (takeNext localeCompare ranked avail) :: l2
    /\ snd (takeNext localeCompare ranked avail) = l1 ++ l2.
Proof.
  intro Hne. unfold takeNext. cbn [fst snd].
  set (bestPos := best_position localeCompare ranked avail (tl avail) 1 0).
  assert (Hlt : (bestPos < length avail)%nat).
  { destruct avail as [|a rest]; [congruence|]. subst bestPos. cbn [tl length].
    apply (best_position_bound ranked (a :: rest) rest 1 0). lia. }
  exists (firstn bestPos avail), (skipn (S bestPos) avail). split; [|reflexivity].
  now apply split_at_nth.
Qed.

(** *** Releasing the dependents *)

Lemma release_spec (dependents : list nat) :
  forall (deg : list Z) (avail : list nat),
  NoDup dependents ->
  (forall d, In d dependents -> (d < length deg)%nat) ->
  length (fst (release dependents deg avail)) = length deg
  /\ (forall t, nth t (fst (release dependents deg avail)) 0%Z
                = (nth t deg 0 - (if existsb (Nat.eqb t) dependents then 1 else 0))%Z)
  /\ snd (release dependents deg avail)
     = avail ++ filter (fun t => Z.eqb (nth t deg 0%Z - 1) 0) dependents.
Proof.
  induction dependents as [|d rest IH]; intros deg avail Hnd Hlt.
  - cbn [release fst snd existsb filter]. repeat split.
    + intro t. lia.
    + now rewrite app_nil_r.
  - inversion Hnd as [|d' rest' Hd Hrest]; subst d' rest'.
    cbn [release].
    set (deg1 := update_at d (fun v => (v - 1)%Z) deg).
    assert (Hnth : forall t, nth t deg1 0%Z
                             = (nth t deg 0 - (if Nat.eqb t d then 1 else 0))%Z).
    { intro t. subst deg1. rewrite update_at_nth.
      destruct (Nat.eqb_spec t d) as [->|Hne]; cbn [andb]; [|lia].
      assert (Hin : (d <? length deg)%nat = true) by (apply Nat.ltb_lt, Hlt; now left).
      now rewrite Hin. }
    destruct (IH deg1 (if Z.eqb (nth d deg1 0%Z) 0 then avail ++ [d] else avail) Hrest)
      as [Hlen [Hdeg Havail]].
    { intros x Hx. subst deg1. rewrite update_at_length. apply Hlt. now right. }
    split; [|split].
    + rewrite Hlen. subst deg1. apply update_at_length.
    + intro t. rewrite Hdeg, Hnth. cbn [existsb].
      destruct (Nat.eqb_spec t d) as [->|Hne]; cbn [orb].
      * apply existsb_eqb_out in Hd. rewrite Hd. lia.
      * destruct (existsb (Nat.eqb t) rest); lia.
    + rewrite Havail. cbn [filter]. rewrite (Hnth d), Nat.eqb_refl.
      assert (Hsame : filter (fun t => Z.eqb (nth t deg1 0%Z - 1) 0) rest
                      = filter (fun t => Z.eqb (nth t deg 0%Z - 1) 0) rest).
      { apply filter_ext_in. intros z Hz. rewrite Hnth.
        destruct (Nat.eqb_spec z d) as [->|_]; [contradiction|].
        now rewrite Z.sub_0_r. }
      rewrite Hsame.
      destruct (Z.eqb (nth d deg 0%Z - 1) 0); [now rewrite <- app_assoc|reflexivity].
Qed.

(** *** The loop *)

Lemma waiting_in (ordered : list nat) (t b : nat) :
  In b (waiting items ordered t)
  <-> (b < n)%nat /\ carries items b t = true /\ ~ In b ordered.
Proof.
  unfold waiting. rewrite filter_In, in_seq, andb_true_iff, negb_true_iff,
    existsb_eqb_out. intuition lia.
Qed.

Lemma waiting_none (ordered : list nat) (t : nat) :
  waiting items ordered t = []
  <-> forall b, (b < n)%nat -> carries items b t = true -> In b ordered.
Proof.
  split.
  - intros Hnil b Hb Hc.
    destruct (in_dec Nat.eq_dec b ordered) as [Hin|Hout]; [exact Hin|].
    assert (Hw : In b (waiting items ordered t)) by (apply waiting_in; auto).
    rewrite Hnil in Hw. destruct Hw.
  - intro Hall. destruct (waiting items ordered t) as [|b w] eqn:Hw; [reflexivity|].
    assert (Hin : In b (waiting items ordered t)) by (rewrite Hw; now left).
    apply waiting_in in Hin. destruct Hin as [Hb [Hc Hout]].
    exfalso. apply Hout. now apply Hall.
Qed.

Lemma waiting_after (ordered : list nat) (c t : nat) :
  (c < n)%nat -> ~ In c ordered ->
  (length (waiting items (ordered ++ [c]) t)
   + (if carries items c t then 1 else 0))%nat
  = length (waiting items ordered t).
Proof.
  intros Hc Hout. unfold waiting.
  rewrite <- (filter_without
                (fun b => carries items b t && negb (existsb (Nat.eqb b) ordered)) c
                (seq 0 n)); [|apply seq_NoDup|apply in_seq; lia].
  apply existsb_eqb_out in Hout. rewrite Hout, andb_true_r. f_equal. f_equal.
  apply filter_ext. intro b.
  rewrite existsb_app. cbn [existsb]. rewrite orb_false_r, negb_orb.
  now rewrite andb_assoc.
Qed.

Lemma kahn_ok_start : kahn_ok items (start items).
Proof.
  destruct build_graph_spec as [Ha [Hb [Hadj Hdeg]]].
  unfold start. destruct (build_graph items) as [adj deg] eqn:Hg.
  cbn [fst snd] in *. unfold kahn_ok. cbn [orderedIndices k_available k_inDegree app].
  assert (Hw : forall t, waiting items [] t
                         = filter (fun b => carries items b t) (seq 0 n)).
  { intro t. unfold waiting. apply filter_ext. intro b. cbn [existsb negb].
    apply andb_true_r. }
  split; [apply NoDup_filter, seq_NoDup|].
  split; [intros x Hx; apply filter_In in Hx; destruct Hx as [Hx _];
          apply in_seq in Hx; lia|].
  split; [exact Hb|].
  split; [intros t Ht; rewrite Hw; now apply Hdeg|].
  split; [|intros b t _ _ []].
  intros t Ht. rewrite filter_In, in_seq, Hdeg, Hw by exact Ht.
  rewrite Z.eqb_eq. split.
  - intros [_ Hz]. apply length_zero_iff_nil. lia.
  - intro Hnil. rewrite Hnil. cbn. split; [lia|reflexivity].
Qed.

Lemma kahn_ok_step (adjacency : list (list nat)) (ranked : list Rank) (st : Kahn) :
  (forall b, (b < n)%nat -> nth b adjacency [] = filter (carries items b) (seq 0 n)) ->
  kahn_ok items st -> k_available st <> [] ->
  let current := fst (takeNext localeCompare ranked (k_available st)) in
  let available1 := snd (takeNext localeCompare ranked (k_available st)) in
  let r := release (nth current adjacency []) (k_inDegree st) available1 in
  kahn_ok items (mkKahn (snd r) (fst r) (orderedIndices st ++ [current])).
Proof.
  intros Hadj [Hnd [Hlt [Hlen [Hdeg [Hlisted Hbefore]]]]] Hne current available1 r.
  destruct (takeNext_spec ranked (k_available st) Hne) as [l1 [l2 [Havail Hrest]]].
  fold current in Havail. fold available1 in Hrest.
  set (ordered := orderedIndices st) in *.
  assert (Hcur_lt : (current < n)%nat).
  { apply Hlt. rewrite Havail. apply in_or_app. right. apply in_or_app. right. now left. }
  assert (Hcur_out : ~ In current ordered).
  { intro Hin. rewrite Havail, app_assoc in Hnd.
    apply NoDup_remove_2 in Hnd.
    apply Hnd. apply in_or_app. left. apply in_or_app. now left. }
  assert (Hcur_ready : forall b, (b < n)%nat -> carries items b current = true ->
                                 In b ordered).
  { apply waiting_none. apply (Hlisted current Hcur_lt).
    rewrite Havail. apply in_or_app. right. apply in_or_app. right. now left. }
  destruct (release_spec (nth current adjacency []) (k_inDegree st) available1)
    as [Hrlen [Hrdeg Hravail]].
  { rewrite Hadj by exact Hcur_lt. apply NoDup_filter, seq_NoDup. }
  { intros d Hd. rewrite Hadj in Hd by exact Hcur_lt. apply filter_In in Hd.
    destruct Hd as [Hd _]. apply in_seq in Hd. lia. }
  fold r in Hrlen, Hrdeg, Hravail.
  assert (Hdep : forall t, existsb (Nat.eqb t) (nth current adjacency [])
                           = ((t <? n)%nat && carries items current t)%bool).
  { intro t. rewrite Hadj by exact Hcur_lt.
    destruct ((t <? n)%nat && carries items current t)%bool eqn:Hc.
    - apply andb_true_iff in Hc. destruct Hc as [Ht Hc]. apply Nat.ltb_lt in Ht.
      apply existsb_eqb_in, filter_In. split; [apply in_seq; lia|exact Hc].
    - apply existsb_eqb_out. intro Hin. apply filter_In in Hin.
      destruct Hin as [Hin Hc']. apply in_seq in Hin.
      assert (Ht : (t <? n)%nat = true) by (apply Nat.ltb_lt; lia).
      rewrite Ht, Hc' in Hc. discriminate. }
  assert (Hcount : forall t, (t < n)%nat ->
            nth t (fst r) 0%Z = Z.of_nat (length (waiting items (ordered ++ [current]) t))).
  { intros t Ht. rewrite Hrdeg, Hdep, Hdeg by exact Ht.
    assert (Hin : (t <? n)%nat = true) by now apply Nat.ltb_lt.
    rewrite Hin. cbn [andb].
    pose proof (waiting_after ordered current t Hcur_lt Hcur_out) as Hw.
    destruct (carries items current t); lia. }
  assert (Hnew : forall t, In t (snd r)
                   <-> In t (l1 ++ l2)
                       \/ ((t < n)%nat /\ carries items current t = true
                           /\ length (waiting items ordered t) = 1%nat)).
  { intro t. rewrite Hravail, in_app_iff, Hrest, filter_In, Hadj by exact Hcur_lt.
    rewrite filter_In, in_seq, Z.eqb_eq.
    split.
    - intros [H|[[Ht Hc] Hz]]; [now left|right].
      assert (Ht' : (t < n)%nat) by lia.
      rewrite Hdeg in Hz by exact Ht'. split; [exact Ht'|]. split; [exact Hc|lia].
    - intros [H|[Ht [Hc Hone]]]; [now left|right].
      rewrite Hdeg by exact Ht. split; [split; [lia|exact Hc]|lia]. }
  unfold kahn_ok. cbn [orderedIndices k_available k_inDegree].
  split; [|split; [|split; [|split; [|split]]]].
  - (* no index twice *)
    rewrite Hravail, Hrest.
    assert (Hold : NoDup ((ordered ++ [current]) ++ l1 ++ l2)).
    { apply (Permutation_NoDup (l := ordered ++ k_available st)); [|exact Hnd].
      rewrite Havail, <- app_assoc. apply Permutation_app_head.
      cbn [app]. apply Permutation_sym, Permutation_middle. }
    rewrite !app_assoc. rewrite <- (app_assoc (ordered ++ [current]) l1 l2).
    apply NoDup_app; [exact Hold| |].
    + apply NoDup_filter. rewrite Hadj by exact Hcur_lt. apply NoDup_filter, seq_NoDup.
    + intros t Hin Hin2. apply filter_In in Hin2. destruct Hin2 as [Hin2 Hz].
      rewrite Hadj in Hin2 by exact Hcur_lt. apply filter_In in Hin2.
      destruct Hin2 as [Hseq Hc]. apply in_seq in Hseq.
      assert (Ht : (t < n)%nat) by lia.
      apply Z.eqb_eq in Hz. rewrite Hdeg in Hz by exact Ht.
      assert (Hlisted_t : In t (ordered ++ k_available st)).
      { rewrite Havail. rewrite !in_app_iff in Hin. rewrite !in_app_iff. cbn [In] in *.
        tauto. }
      apply (Hlisted t Ht) in Hlisted_t. rewrite Hlisted_t in Hz. cbn in Hz. lia.
  - (* in range *)
    intros x Hx. rewrite <- app_assoc in Hx. apply in_app_or in Hx.
    destruct Hx as [Hx|Hx]; [apply Hlt; apply in_or_app; now left|].
    cbn [app In] in Hx. destruct Hx as [<-|Hx]; [exact Hcur_lt|].
    apply Hnew in Hx. destruct Hx as [Hx|[Hx _]]; [|exact Hx].
    apply Hlt. rewrite Havail. rewrite !in_app_iff in *. cbn [In]. tauto.
  - congruence.
  - exact Hcount.
  - (* listed once nothing is waiting *)
    intros t Ht.
    pose proof (waiting_after ordered current t Hcur_lt Hcur_out) as Hw.
    pose proof (Hlisted t Ht) as Hl. rewrite Havail in Hl.
    rewrite <- length_zero_iff_nil. rewrite <- length_zero_iff_nil in Hl.
    rewrite !in_app_iff, Hnew, in_app_iff. cbn [In].
    rewrite !in_app_iff in Hl. cbn [In] in Hl.
    destruct (carries items current t) eqn:Hc.
    + split.
      * intros [[H|[H|[]]]|[[H|H]|[_ [_ H]]]]; try lia;
          (assert (H0 : length (waiting items ordered t) = 0%nat) by (apply Hl; tauto); lia).
      * intro H0. right. right. repeat split; [exact Ht|lia].
    + split.
      * intros [[H|[H|[]]]|[[H|H]|[_ [H _]]]]; try discriminate;
          (assert (H0 : length (waiting items ordered t) = 0%nat) by (apply Hl; tauto); lia).
      * intro H0. assert (H1 : length (waiting items ordered t) = 0%nat) by lia.
        apply Hl in H1. tauto.
  - (* supporters first *)
    intros b t Hb Hc Hin. apply in_app_or in Hin. destruct Hin as [Hin|[<-|[]]].
    + destruct (Hbefore b t Hb Hc Hin) as [p1 [p2 [p3 Heq]]].
      exists p1, p2, (p3 ++ [current]). rewrite Heq.
      now rewrite <- !app_assoc, <- !app_comm_cons, <- app_assoc.
    + destruct (in_split b ordered (Hcur_ready b Hb Hc)) as [p1 [p2 Heq]].
      exists p1, p2, []. rewrite Heq. now rewrite <- app_assoc.
Qed.

Lemma kahn_loop_ok (adjacency : list (list nat)) (ranked : list Rank) (fuel : nat) :
  (forall b, (b < n)%nat -> nth b adjacency [] = filter (carries items b) (seq 0 n)) ->
  forall st, kahn_ok items st ->
  (n <= fuel + length (orderedIndices st))%nat ->
  kahn_ok items (kahn_loop localeCompare fuel adjacency ranked st)
  /\ k_available (kahn_loop localeCompare fuel adjacency ranked st) = [].
Proof.
  intro Hadj. induction fuel as [|fuel IH]; intros st Hok Hfuel.
  - cbn [kahn_loop]. split; [exact Hok|].
    destruct Hok as [Hnd [Hlt _]].
    pose proof (bounded_nodup_length n _ Hnd Hlt) as Hle.
    rewrite length_app in Hle. apply length_zero_iff_nil. cbn in Hfuel. lia.
  - cbn [kahn_loop]. destruct (k_available st) as [|a rest] eqn:Hav.
    + split; [exact Hok|exact Hav].
    + rewrite <- Hav.
      pose proof (kahn_ok_step adjacency ranked st Hadj Hok) as Hstep.
      rewrite Hav in Hstep at 1. specialize (Hstep ltac:(discriminate)).
      cbv zeta in Hstep.
      destruct (takeNext localeCompare ranked (k_available st)) as [current available1].
      cbn [fst snd] in Hstep.
      destruct (release (nth current adjacency []) (k_inDegree st) available1)
        as [deg' avail'].
      cbn [fst snd] in Hstep.
      apply IH; [exact Hstep|].
      cbn [orderedIndices]. rewrite length_app. cbn [length]. lia.
Qed.

Lemma kahn_final :
  let final := kahn_loop localeCompare n (fst (build_graph items)) (map rank items)
                 (start items) in
  kahn_ok items final /\ k_available final = [].
Proof.
  cbv zeta. apply kahn_loop_ok.
  - intros b Hb. now apply build_graph_spec.
  - apply kahn_ok_start.
  - unfold start. destruct (build_graph items). cbn [orderedIndices length]. lia.
Qed.

Lemma complete_order_perm (order : list nat) :
  NoDup order -> (forall x, In x order -> (x < n)%nat) -> length order = n ->
  Permutation order (seq 0 n).
Proof.
  intros Hnd Hlt Hlen. apply Permutation_sym.
  apply NoDup_Permutation_bis.
  - apply seq_NoDup.
  - rewrite length_seq. lia.
  - (* every index is listed *)
    assert (Hincl : incl order (seq 0 n)).
    { intros x Hx. apply in_seq. specialize (Hlt x Hx). lia. }
    apply (NoDup_length_incl Hnd); [|exact Hincl].
    rewrite length_seq. lia.
Qed.

(** When every linked pair goes upwards, no circle of links exists, and
    the loop lists every index. *)
Lemma kahn_lists_all (st : Kahn) :
  (forall b t, (b < n)%nat -> (t < n)%nat -> carries items b t = true ->
     it_y (item_at b) < it_y (item_at t)) ->
  kahn_ok items st -> k_available st = [] ->
  length (orderedIndices st) = n.
Proof.
  intros Hup [Hnd [Hlt [_ [_ [Hlisted _]]]]] Hav.
  rewrite Hav, app_nil_r in Hnd, Hlt.
  set (ordered := orderedIndices st) in *.
  set (left_out := filter (fun t => negb (existsb (Nat.eqb t) ordered)) (seq 0 n)).
  destruct left_out as [|u rest] eqn:Hleft.
  - (* nothing is left out *)
    apply Nat.le_antisymm; [now apply bounded_nodup_length|].
    rewrite <- (length_seq n 0) at 1. apply NoDup_incl_length; [apply seq_NoDup|].
    intros x Hx. destruct (in_dec Nat.eq_dec x ordered) as [Hin|Hout]; [exact Hin|].
    assert (Hx' : In x left_out).
    { apply filter_In. split; [exact Hx|]. apply negb_true_iff.
      now apply existsb_eqb_out. }
    subst left_out. rewrite Hleft in Hx'. destruct Hx'.
  - (* the lowest index left out is linked from an index left out, which is
       lower *)
    exfalso.
    destruct (least_by (fun i => it_y (item_at i)) left_out) as [t [Ht Hmin]].
    { subst left_out. rewrite Hleft. discriminate. }
    cbv beta in Hmin.
    assert (Hmem : forall x, In x left_out <-> (x < n)%nat /\ ~ In x ordered).
    { intro x. subst left_out. rewrite filter_In, in_seq, negb_true_iff, existsb_eqb_out.
      intuition lia. }
    clear Hleft.
    apply Hmem in Ht. destruct Ht as [Ht Hout].
    assert (Hwait : waiting items ordered t <> []).
    { intro Hnil. apply Hout. apply (Hlisted t Ht) in Hnil.
      rewrite Hav, app_nil_r in Hnil. exact Hnil. }
    destruct (waiting items ordered t) as [|b w] eqn:Hw; [congruence|].
    assert (Hb : In b (waiting items ordered t)) by (rewrite Hw; now left).
    apply waiting_in in Hb. destruct Hb as [Hb [Hc Hbout]].
    assert (Hle : it_y (item_at t) <= it_y (item_at b)).
    { apply Hmin. apply Hmem. split; assumption. }
    specialize (Hup b t Hb Ht Hc).
    apply (Qlt_not_le _ _ Hup Hle).
Qed.
End LoadOrderFacts.

(** The order of the viewer shows the boxes it was given, each once; and
    the loop has emptied [available] within as many iterations as there
    are boxes, the fuel of [kahn_loop]. *)
Theorem load_order_is_permutation (localeCompare : string -> string -> Z)
    (placements : list Item) :
  Permutation (buildSupportAwareLoadOrder localeCompare placements) placements
  /\ k_available
       (kahn_loop localeCompare (length placements) (fst (build_graph placements))
          (map rank placements) (start placements))
     = [].
Proof.
  unfold buildSupportAwareLoadOrder.
  destruct (kahn_final localeCompare placements) as [Hok Hav]. cbv zeta in Hok, Hav.
  split; [|exact Hav]. clear Hav.
  set (final := kahn_loop localeCompare (length placements) (fst (build_graph placements))
                  (map rank placements) (start placements)) in *.
  destruct (Nat.eqb_spec (length (orderedIndices final)) (length placements)) as [Hlen|Hlen];
    cbn [negb].
  - destruct Hok as [Hnd [Hlt _]].
    apply perm_trans with (map (fun i => nth i placements default_item)
                             (seq 0 (length placements)));
      [|rewrite map_nth_all; apply Permutation_refl].
    apply Permutation_map. apply complete_order_perm.
    + apply (NoDup_app_remove_r _ _ Hnd).
    + intros x Hx. apply Hlt. apply in_or_app. now left.
    + exact Hlen.
  - apply stable_sort_perm.
Qed.

(** When every box that the loops link under another one lies strictly
    lower than the box it carries ([y] against [y], as the numbers of the
    placements compare), the sort fallback is not taken and the boxes are
    shown in an order in which each one comes after all the boxes linked
    under it. *)
Theorem load_order_supports_first (localeCompare : string -> string -> Z)
    (placements : list Item) :
  (forall b t, (b < length placements)%nat -> (t < length placements)%nat ->
     carries placements b t = true ->
     it_y (nth b placements default_item) < it_y (nth t placements default_item)) ->
  exists order,
    Permutation order (seq 0 (length placements))
    /\ buildSupportAwareLoadOrder localeCompare placements
       = map (fun i => nth i placements default_item) order
    /\ forall b t, (b < length placements)%nat -> (t < length placements)%nat ->
         carries placements b t = true -> precedes order b t.
Proof.
  intro Hhigh. unfold buildSupportAwareLoadOrder.
  destruct (kahn_final localeCompare placements) as [Hok Hav]. cbv zeta in Hok, Hav.
  set (final := kahn_loop localeCompare (length placements) (fst (build_graph placements))
                  (map rank placements) (start placements)) in *.
  pose proof (kahn_lists_all placements final Hhigh Hok Hav) as Hlen.
  rewrite Hlen, Nat.eqb_refl. cbn [negb].
  destruct Hok as [Hnd [Hlt [_ [_ [_ Hbefore]]]]].
  assert (Hperm : Permutation (orderedIndices final) (seq 0 (length placements))).
  { apply complete_order_perm.
    - apply (NoDup_app_remove_r _ _ Hnd).
    - intros x Hx. apply Hlt. apply in_or_app. now left.
    - exact Hlen. }
  exists (orderedIndices final). split; [exact Hperm|]. split; [reflexivity|].
  intros b t Hb Ht Hc. apply Hbefore; [exact Hb|exact Hc|].
  apply (Permutation_in _ (Permutation_sym Hperm)). apply in_seq. lia.
Qed.

(** ** The input fields of the viewer *)

Lemma is_digit_plain (c : N) : is_digit c = true -> c <> dot /\ c <> comma.
Proof.
  unfold is_digit, dot, comma. intro H. apply andb_true_iff in H.
  destruct H as [H1 H2]. apply N.leb_le in H1. apply N.leb_le in H2. lia.
Qed.

Lemma indexOf_first (c : N) (pre post : JsString) :
  ~ In c pre -> indexOf c (pre ++ c :: post) = Some (length pre).
Proof.
  induction pre as [|x pre IH]; intro Hout; cbn [app indexOf length].
  - now rewrite N.eqb_refl.
  - destruct (N.eqb_spec x c) as [->|_]; [exfalso; apply Hout; now left|].
    rewrite IH; [reflexivity|]. intro H. apply Hout. now right.
Qed.

Lemma indexOf_none (c : N) (s : JsString) : ~ In c s -> indexOf c s = None.
Proof.
  induction s as [|x s IH]; intro Hout; cbn [indexOf]; [reflexivity|].
  destruct (N.eqb_spec x c) as [->|_]; [exfalso; apply Hout; now left|].
  rewrite IH; [reflexivity|]. intro H. apply Hout. now right.
Qed.

Lemma digits_have_no (c : N) (s : JsString) :
  c = dot \/ c = comma -> ~ In c (filter is_digit s).
Proof.
  intros Hc Hin. apply filter_In in Hin. destruct Hin as [_ Hd].
  apply is_digit_plain in Hd. destruct Hc; tauto.
Qed.

Lemma digits_unchanged (s : JsString) :
  map (fun c => if N.eqb c comma then dot else c) (filter is_digit s) = filter is_digit s.
Proof.
  induction s as [|x s IH]; cbn [filter]; [reflexivity|].
  destruct (is_digit x) eqn:Hd; [|exact IH]. cbn [map]. rewrite IH.
  apply is_digit_plain in Hd. destruct (N.eqb_spec x comma); [tauto|reflexivity].
Qed.

Lemma clean_plain (s : JsString) :
  ~ In dot s -> ~ In comma s ->
  filter (fun c => is_digit c || N.eqb c dot || N.eqb c comma)%bool s = filter is_digit s.
Proof.
  intros Hd Hc. apply filter_ext_in. intros x Hx.
  destruct (N.eqb_spec x dot) as [->|_]; [contradiction|].
  destruct (N.eqb_spec x comma) as [->|_]; [contradiction|].
  now rewrite !orb_false_r.
Qed.

Lemma later_separators_dropped (s : JsString) :
  filter (fun c => negb (N.eqb c dot))
    (map (fun c => if N.eqb c comma then dot else c)
       (filter (fun c => is_digit c || N.eqb c dot || N.eqb c comma)%bool s))
  = filter is_digit s.
Proof.
  induction s as [|x s IH]; cbn [filter]; [reflexivity|].
  destruct (is_digit x) eqn:Hd.
  - cbn [orb map filter]. apply is_digit_plain in Hd.
    destruct (N.eqb_spec x comma); [tauto|].
    destruct (N.eqb_spec x dot); [tauto|]. cbn [negb]. now rewrite IH.
  - cbn [orb]. destruct (N.eqb_spec x dot) as [->|Hnd]; cbn [orb].
    + cbn [map filter]. change (N.eqb dot comma) with false. cbv iota.
      rewrite N.eqb_refl. exact IH.
    + destruct (N.eqb_spec x comma) as [->|Hnc]; [|exact IH].
      cbn [map filter]. rewrite N.eqb_refl, N.eqb_refl. exact IH.
Qed.

Lemma sanitizeDecimalDot_plain (s : JsString) :
  ~ In dot s -> ~ In comma s -> sanitizeDecimalDot (Some s) = sanitizeDigits (Some s).
Proof.
  intros Hd Hc. unfold sanitizeDecimalDot, sanitizeDigits. cbn [js_string].
  rewrite clean_plain by assumption. rewrite digits_unchanged.
  rewrite indexOf_none; [reflexivity|]. apply digits_have_no. now left.
Qed.

Lemma sanitizeDecimalDot_split (pre post : JsString) (sep : N) :
  sep = dot \/ sep = comma -> ~ In dot pre -> ~ In comma pre ->
  sanitizeDecimalDot (Some (pre ++ sep :: post))
  = sanitizeDigits (Some pre) ++ dot :: sanitizeDigits (Some post).
Proof.
  intros Hsep Hd Hc. unfold sanitizeDecimalDot, sanitizeDigits. cbn [js_string].
  rewrite filter_app. cbn [filter].
  assert (Hkeep : (is_digit sep || N.eqb sep dot || N.eqb sep comma)%bool = true).
  { destruct Hsep as [->| ->]; rewrite N.eqb_refl; now rewrite ?orb_true_r. }
  rewrite Hkeep, clean_plain by assumption.
  rewrite map_app. cbn [map]. rewrite digits_unchanged.
  assert (Hnorm : (if N.eqb sep comma then dot else sep) = dot).
  { destruct Hsep as [->| ->]; [reflexivity|now rewrite N.eqb_refl]. }
  rewrite Hnorm.
  rewrite indexOf_first by (apply digits_have_no; now left).
  set (digits := filter is_digit pre).
  set (rest := map (fun c => if N.eqb c comma then dot else c)
                 (filter (fun c => is_digit c || N.eqb c dot || N.eqb c comma)%bool post)).
  replace (digits ++ dot :: rest) with ((digits ++ [dot]) ++ rest)
    by now rewrite <- app_assoc.
  assert (Hlen : (length digits + 1)%nat = length (digits ++ [dot]))
    by (rewrite length_app; reflexivity).
  rewrite Hlen, firstn_app, skipn_app, firstn_all, skipn_all, Nat.sub_diag.
  cbn [firstn skipn app]. rewrite app_nil_r.
  subst rest. rewrite later_separators_dropped. now rewrite <- app_assoc.
Qed.

Lemma first_separator (s : JsString) :
  (~ In dot s /\ ~ In comma s)
  \/ exists pre sep post,
       s = pre ++ sep :: post /\ (sep = dot \/ sep = comma)
       /\ ~ In dot pre /\ ~ In comma pre.
Proof.
  induction s as [|x s IH]; [left; split; intros []|].
  destruct (N.eq_dec x dot) as [Hd|Hd].
  { right. exists [], x, s. repeat split; auto. }
  destruct (N.eq_dec x comma) as [Hc|Hc].
  { right. exists [], x, s. repeat split; auto. }
  destruct IH as [[H1 H2]|[pre [sep [post [Heq [Hsep [H1 H2]]]]]]].
  - left. split; intros [H|H]; auto.
  - right. exists (x :: pre), sep, post. rewrite Heq.
    repeat split; auto; intros [H|H]; auto.
Qed.

Lemma digits_twice (s : JsString) : filter is_digit (filter is_digit s) = filter is_digit s.
Proof.
  induction s as [|x s IH]; cbn [filter]; [reflexivity|].
  destruct (is_digit x) eqn:Hd; [|exact IH]. cbn [filter]. now rewrite Hd, IH.
Qed.

Lemma digits_count (c : N) (s : JsString) :
  c = dot \/ c = comma -> count_occ N.eq_dec (filter is_digit s) c = 0%nat.
Proof. intro Hc. apply count_occ_not_In. now apply digits_have_no. Qed.

(** The decimal field keeps the digits and turns the first separator, dot
    or comma, into the one dot of the value: the later separators are
    dropped with everything that is not a digit. *)
Theorem sanitizeDecimalDot_first_separator (pre post : JsString) (sep : N) :
  sep = dot \/ sep = comma -> ~ In dot pre -> ~ In comma pre ->
  sanitizeDecimalDot (Some (pre ++ sep :: post))
  = sanitizeDigits (Some pre) ++ dot :: sanitizeDigits (Some post).
Proof. exact (sanitizeDecimalDot_split pre post sep). Qed.

(** Whatever is typed, the decimal field holds digits and at most one dot;
    it holds the digits typed, in their order; and sanitizing a sanitized
    value changes nothing, for either field. *)
Theorem sanitizers_normalize (raw : option JsString) :
  Forall (fun c => is_digit c = true \/ c = dot) (sanitizeDecimalDot raw)
  /\ (count_occ N.eq_dec (sanitizeDecimalDot raw) dot <= 1)%nat
  /\ sanitizeDigits (Some (sanitizeDecimalDot raw)) = sanitizeDigits raw
  /\ sanitizeDecimalDot (Some (sanitizeDecimalDot raw)) = sanitizeDecimalDot raw
  /\ sanitizeDigits (Some (sanitizeDigits raw)) = sanitizeDigits raw
  /\ Forall (fun c => is_digit c = true) (sanitizeDigits raw).
Proof.
  assert (Hraw : sanitizeDecimalDot raw = sanitizeDecimalDot (Some (js_string raw)))
    by now destruct raw.
  assert (Hraw' : sanitizeDigits raw = sanitizeDigits (Some (js_string raw)))
    by now destruct raw.
  rewrite Hraw, Hraw'. generalize (js_string raw) as s. clear. intro s.
  assert (Hdigits : forall l, Forall (fun c => is_digit c = true) (filter is_digit l)).
  { intro l. apply Forall_forall. intros x Hx. now apply filter_In in Hx. }
  assert (Htail : sanitizeDigits (Some (sanitizeDigits (Some s))) = sanitizeDigits (Some s)
                  /\ Forall (fun c => is_digit c = true) (sanitizeDigits (Some s))).
  { unfold sanitizeDigits. cbn [js_string]. split; [apply digits_twice|apply Hdigits]. }
  destruct (first_separator s) as [[Hd Hc]|[pre [sep [post [-> [Hsep [Hd Hc]]]]]]].
  - rewrite (sanitizeDecimalDot_plain s Hd Hc).
    unfold sanitizeDigits in *. cbn [js_string] in *.
    split; [|split; [|split; [|split]]].
    + eapply Forall_impl; [|apply Hdigits]. intros c H. now left.
    + rewrite digits_count by now left. lia.
    + apply digits_twice.
    + rewrite sanitizeDecimalDot_plain by (apply digits_have_no; auto).
      unfold sanitizeDigits. cbn [js_string]. apply digits_twice.
    + exact Htail.
  - rewrite (sanitizeDecimalDot_split pre post sep Hsep Hd Hc).
    split; [|split; [|split; [|split]]].
    + unfold sanitizeDigits. cbn [js_string]. apply Forall_app. split.
      * eapply Forall_impl; [|apply Hdigits]. intros c H. now left.
      * constructor; [now right|].
        eapply Forall_impl; [|apply Hdigits]. intros c H. now left.
    + unfold sanitizeDigits. cbn [js_string].
      rewrite count_occ_app, count_occ_cons_eq by reflexivity.
      rewrite !digits_count by now left. lia.
    + unfold sanitizeDigits. cbn [js_string]. rewrite !filter_app. cbn [filter].
      assert (Hsd : is_digit sep = false) by (destruct Hsep as [->| ->]; reflexivity).
      rewrite Hsd. change (is_digit dot) with false. cbv iota.
      now rewrite !digits_twice.
    + rewrite sanitizeDecimalDot_split.
      * unfold sanitizeDigits. cbn [js_string]. now rewrite !digits_twice.
      * now left.
      * unfold sanitizeDigits. cbn [js_string]. apply digits_have_no. now left.
      * unfold sanitizeDigits. cbn [js_string]. apply digits_have_no. now right.
    + exact Htail.
Qed.

(** ** A box is left out only when nothing fits *)

Lemma try_candidate_keeps_found (t : Truck) (w : Q) (st : Sweep) (c : AABB) :
  sw_found st = true -> sw_found (try_candidate t w st c) = true.
Proof.
  intro Hf. case_try_candidate t w st c E; cbn [sw_found]; auto.
Qed.

Lemma sweep_keeps_found (t : Truck) (w : Q) (l : list AABB) (st : Sweep) :
  sw_found st = true -> sw_found (fold_left (try_candidate t w) l st) = true.
Proof.
  intro Hf. apply fold_left_invariant; [exact Hf|].
  intros st' c _. apply try_candidate_keeps_found.
Qed.

Lemma try_candidate_first_fit (t : Truck) (w : Q) (st : Sweep) (c : AABB) :
  sw_found st = false ->
  if fits t w (sw_placed st) c
  then sw_found (try_candidate t w st c) = true
  else try_candidate t w st c = st.
Proof.
  intro Hf. unfold fits, try_candidate.
  destruct (inside_truck t c); cbn [andb negb]; [|reflexivity].
  destruct (collides_any (sw_placed st) c); cbn [andb negb]; [reflexivity|].
  destruct (support_ok_and_apply_load c w (sw_placed st)) as [[ok placed1] applied] eqn:E.
  cbn [fst]. destruct ok; cbn [negb].
  - rewrite Hf. reflexivity.
  - assert (Hfail := support_failure_no_mutation c w (sw_placed st)).
    rewrite E in Hfail. specialize (Hfail eq_refl).
    injection Hfail as -> ->. cbn [rollback_loads]. now destruct st.
Qed.

Lemma sweep_finds_fit (t : Truck) (w : Q) (l : list AABB) (st : Sweep) :
  sw_found st = false ->
  sw_found (fold_left (try_candidate t w) l st) = existsb (fits t w (sw_placed st)) l.
Proof.
  revert st. induction l as [|c l IH]; intros st Hf; cbn [fold_left existsb].
  - exact Hf.
  - pose proof (try_candidate_first_fit t w st c Hf) as Hc.
    destruct (fits t w (sw_placed st) c); cbn [orb].
    + now apply sweep_keeps_found.
    + rewrite Hc. now apply IH.
Qed.

Lemma sweep_nothing_fits (t : Truck) (w : Q) (l : list AABB) (st : Sweep) :
  sw_found st = false ->
  existsb (fits t w (sw_placed st)) l = false ->
  fold_left (try_candidate t w) l st = st.
Proof.
  revert st. induction l as [|c l IH]; intros st Hf Hnone; cbn [fold_left];
    [reflexivity|].
  cbn [existsb] in Hnone. apply orb_false_iff in Hnone. destruct Hnone as [Hc Hl].
  pose proof (try_candidate_first_fit t w st c Hf) as Hstep.
  rewrite Hc in Hstep. rewrite Hstep. now apply IH.
Qed.

(** An iteration of [pack_by_order] that places nothing leaves the placed
    states exactly as they were, loads included, and the budget too: the
    kernel changes a load only when it accepts, the first acceptance sets
    [found], and so an iteration that ends without a placement has neither
    applied nor rolled back a load.  The id of its box is appended to
    [unplaced]. *)
Theorem unplaced_box_leaves_state (t : Truck) (boxes : list Box) (st : PackState)
    (idx : N) :
  placed (pk_result (pack_step t boxes st idx)) = placed (pk_result st) ->
  pk_placed (pack_step t boxes st idx) = pk_placed st
  /\ pk_remaining_weight (pack_step t boxes st idx) = pk_remaining_weight st
  /\ unplaced (pk_result (pack_step t boxes st idx))
     = unplaced (pk_result st) ++ [id_at boxes idx].
Proof.
  unfold pack_step, id_at.
  destruct (Qltb _ _); [intros _; repeat split|].
  cbv zeta. unfold sweep.
  pose proof (sweep_finds_fit t (box_weight (box_at boxes idx))
                (attempts (box_at boxes idx) (unique_candidates (pk_candidates st)))
                (mkSweep false (mkAABB 0 0 0 0 0 0) [] (pk_placed st)) eq_refl)
    as Hfound.
  cbn [sw_placed] in Hfound.
  destruct (existsb _ _) eqn:Hex.
  - rewrite Hfound. cbn [negb pk_result push_placed placed].
    intro H. exfalso. apply (f_equal (@length _)) in H.
    rewrite length_app in H. cbn [length] in H. lia.
  - rewrite (sweep_nothing_fits t (box_weight (box_at boxes idx))
               (attempts (box_at boxes idx) (unique_candidates (pk_candidates st)))
               (mkSweep false (mkAABB 0 0 0 0 0 0) [] (pk_placed st)) eq_refl Hex).
    cbn [sw_found negb sw_placed pk_placed pk_remaining_weight pk_result
         push_unplaced unplaced].
    intros _. repeat split.
Qed.

(** The packer leaves a box out only for one of two reasons: its weight
    goes over what is left of the truck's limit, or none of its
    orientations fits at any of the candidate points, the placed boxes
    taken as they are before the step. *)
Theorem box_placed_iff_attempt_fits (t : Truck) (boxes : list Box) (st : PackState)
    (idx : N) :
  unplaced (pk_result (pack_step t boxes st idx)) = unplaced (pk_result st)
  <-> box_weight (box_at boxes idx) <= pk_remaining_weight st + loadEps
      /\ exists c,
           In c (attempts (box_at boxes idx) (unique_candidates (pk_candidates st)))
           /\ fits t (box_weight (box_at boxes idx)) (pk_placed st) c = true.
Proof.
  assert (Hgrow : forall (l : list string) (x : string), l ++ [x] <> l).
  { intros l x H. apply (f_equal (@length _)) in H. rewrite length_app in H.
    cbn [length] in H. lia. }
  unfold pack_step.
  destruct (Qltb (pk_remaining_weight st + loadEps) (box_weight (box_at boxes idx)))
    eqn:Hw.
  - cbn [pk_result push_unplaced unplaced]. apply Qltb_lt in Hw. split.
    + intro H. now apply Hgrow in H.
    + intros [Hle _]. exfalso. apply (Qlt_not_le _ _ Hw Hle).
  - apply Qltb_ge in Hw. cbv zeta.
    unfold sweep. rewrite sweep_finds_fit by reflexivity. cbn [sw_placed].
    destruct (existsb _ _) eqn:Hex; cbn [negb pk_result push_unplaced push_placed unplaced].
    + split; [|reflexivity]. intros _. split; [exact Hw|].
      apply existsb_exists in Hex. exact Hex.
    + split.
      * intro H. now apply Hgrow in H.
      * intros [_ [c [Hin Hfit]]]. exfalso.
        assert (Hex' : existsb (fits t (box_weight (box_at boxes idx)) (pk_placed st))
                         (attempts (box_at boxes idx)
                            (unique_candidates (pk_candidates st))) = true)
          by (apply existsb_exists; eauto).
        congruence.
Qed.

(** ** Placements at extreme points *)

Lemma unique_candidates_subset (cs : list Candidate) : incl (unique_candidates cs) cs.
Proof.
  destruct (dedup_candidates_spec cs) as (_ & Hincl & _).
  unfold unique_candidates. cbv zeta.
  destruct (kMaxCandidates <? length (dedup_candidates cs))%nat; [|exact Hincl].
  intros c Hc. apply Hincl. apply (stable_sort_in cand_yzx_lt).
  rewrite <- (firstn_skipn kMaxCandidates). apply in_or_app. now left.
Qed.

Lemma add_candidate_in (cs : list Candidate) (x y z : Q) (c : Candidate) :
  In c (add_candidate cs x y z) -> In c cs \/ c = mkCandidate x y z.
Proof.
  unfold add_candidate. destruct (_ || _)%bool; [now left|].
  intro H. apply in_app_or in H. destruct H as [H|[<-|[]]]; auto.
Qed.

Lemma extreme_point_more (ps more : list Placement) (x y z : Q) :
  extreme_point ps x y z -> extreme_point (ps ++ more) x y z.
Proof.
  intros [H|[q [Hq H]]]; [now left|right].
  exists q. split; [apply in_or_app; now left|exact H].
Qed.

Lemma pack_step_extreme (t : Truck) (boxes : list Box) (st : PackState) (idx : N) :
  extreme_ok st -> extreme_ok (pack_step t boxes st idx).
Proof.
  intros [Hc Hp]. unfold pack_step.
  destruct (Qltb _ _); [split; assumption|].
  set (cs := unique_candidates (pk_candidates st)).
  set (box := box_at boxes idx).
  assert (Hsub : incl cs (pk_candidates st)) by apply unique_candidates_subset.
  assert (Hbest := sweep_best_checked t box cs (pk_placed st)). cbv zeta in Hbest.
  destruct (sw_found (sweep t box cs (pk_placed st))); cbn [negb]; cbv iota zeta.
  - destruct (Hbest eq_refl) as (_ & _ & Hin).
    apply attempts_origin in Hin. destruct Hin as (c0 & Hc0 & Hx & Hy & Hz).
    set (best := sw_best (sweep t box cs (pk_placed st))) in *.
    set (p := mkPlacement (box_id box) (ax best) (ay best) (az best)
                (aw best) (ah best) (ad best)).
    assert (Hlast : In p (placed (pk_result st) ++ [p]))
      by (apply in_or_app; right; now left).
    split; cbn [pk_candidates pk_result push_placed placed]; fold p.
    + intros c Hin.
      apply add_candidate_in in Hin. destruct Hin as [Hin| ->].
      2:{ right. exists p. split; [exact Hlast|]. right. right. cbn. auto. }
      apply add_candidate_in in Hin. destruct Hin as [Hin| ->].
      2:{ right. exists p. split; [exact Hlast|]. right. left. cbn. auto. }
      apply add_candidate_in in Hin. destruct Hin as [Hin| ->].
      2:{ right. exists p. split; [exact Hlast|]. left. cbn. auto. }
      apply extreme_point_more. apply Hc, Hsub, Hin.
    + intros k q Hk.
      destruct (Nat.lt_ge_cases k (length (placed (pk_result st)))) as [Hlt|Hge].
      * rewrite nth_error_app1 in Hk by exact Hlt.
        rewrite firstn_app.
        replace (k - length (placed (pk_result st)))%nat with 0%nat by lia.
        cbn [firstn]. rewrite app_nil_r. now apply Hp.
      * rewrite nth_error_app2 in Hk by exact Hge.
        destruct (k - length (placed (pk_result st)))%nat as [|k'] eqn:Hd;
          [|destruct k'; discriminate].
        cbn [nth_error] in Hk. injection Hk as <-.
        assert (Hk : k = length (placed (pk_result st))) by lia.
        rewrite Hk, firstn_app, firstn_all, Nat.sub_diag. cbn [firstn].
        rewrite app_nil_r. cbn [pl_x pl_y pl_z p]. rewrite Hx, Hy, Hz.
        apply Hc, Hsub, Hc0.
  - split; cbn [pk_candidates pk_result push_unplaced placed].
    + intros c Hin. apply Hc, Hsub, Hin.
    + exact Hp.
Qed.

Lemma pack_run_extreme (t : Truck) (boxes : list Box) (order : list N) :
  extreme_ok (pack_run t boxes order).
Proof.
  unfold pack_run. apply fold_left_invariant.
  - split; cbn [pack_init pk_candidates pk_result placed].
    + intros c [<-|[]]. left. cbn. auto.
    + intros [|k] p H; discriminate.
  - intros st idx _. apply pack_step_extreme.
Qed.

(** The packer only ever puts a box at an extreme point: at the corner of
    the truck, or next to a box placed before it (along x or along z) or on
    top of one. *)
Theorem placements_at_extreme_points (t : Truck) (boxes : list Box) (order : list N)
    (k : nat) (p : Placement) :
  nth_error (placed (pack_by_order t boxes order)) k = Some p ->
  extreme_point (firstn k (placed (pack_by_order t boxes order)))
    (pl_x p) (pl_y p) (pl_z p).
Proof.
  unfold pack_by_order, finish. cbn [placed].
  apply (pack_run_extreme t boxes order).
Qed.

(** * The further theorems at concrete inputs *)

Lemma lcg_engine_lawful : LawfulEngine Lcg.engine.
Proof.
  split.
  - intros lo hi g Hle. simpl.
    assert (H := Z.mod_pos_bound g (hi - lo + 1) ltac:(lia)). lia.
  - intros l g. simpl. unfold Lcg.rotate.
    apply perm_trans with (firstn (Z.to_nat (g mod Z.of_nat (length l))) l
                           ++ skipn (Z.to_nat (g mod Z.of_nat (length l))) l).
    + apply Permutation_app_comm.
    + now rewrite firstn_skipn.
Qed.


Lemma pack_by_order_partition_witness :
  Permutation slack_order (base_order (length slack_boxes))
  /\ Permutation (reported_ids (pack_by_order slack_truck slack_boxes slack_order))
       (map box_id slack_boxes).
Proof.
  assert (H : Permutation slack_order (base_order (length slack_boxes)))
    by apply Permutation_refl.
  split; [exact H|].
  apply (pack_by_order_partition slack_truck slack_boxes slack_order H).
Defined.

Lemma pack_by_order_supported_witness :
  centroid_supported
    (candidate_scan (mkAABB 0 1 0 1 1 1)
       (firstn 1 (pk_placed (pack_run stack_truck stack_boxes stack_order)))) = true.
Proof.
  apply (pack_by_order_supported stack_truck stack_boxes stack_order 1
           (mkPlacedState (mkAABB 0 1 0 1 1 1) "C" 2 12 0)).
  - reflexivity.
  - reflexivity.
Defined.

(** A box that fits only in its fourth orientation, followed by another
    box. *)
Lemma first_box_at_origin_witness :
  exists more,
    placed (pack_by_order (mkTruck 1 2 3 10)
              [mkBox "a" 3 1 2 1 1; mkBox "b" 1 1 1 1 1] (0%N :: [1%N]))
    = mkPlacement "a" 0 0 0 1 2 3 :: more.
Proof.
  assert (H := first_box_at_origin (mkTruck 1 2 3 10)
                 [mkBox "a" 3 1 2 1 1; mkBox "b" 1 1 1 1 1] 0%N [1%N]).
  change (first_fit (mkTruck 1 2 3 10)
            (box_at [mkBox "a" 3 1 2 1 1; mkBox "b" 1 1 1 1 1] 0%N))
    with (Some (1, 2, 3)) in H.
  apply H. reflexivity.
Defined.



Lemma optimize_ga_reports_every_box_witness :
  Permutation
    (reported_ids (optimize_ga (RE := Lcg.engine) stack_truck stack_boxes 4 2 (1 # 2) 7%N))
    (map box_id stack_boxes).
Proof.
  apply (optimize_ga_reports_every_box (RE := Lcg.engine) (LE := lcg_engine_lawful)
           stack_truck stack_boxes 4 2 (1 # 2) 7%N).
  - discriminate.
  - discriminate.
Defined.

Lemma load_order_supports_first_witness :
  exists order,
    Permutation order (seq 0 2)
    /\ buildSupportAwareLoadOrder (fun _ _ => 0%Z)
         [mkItem "top" 0 1 0 1 1 1 (Some 2); mkItem "base" 0 0 0 1 1 1 None]
       = map (fun i => nth i [mkItem "top" 0 1 0 1 1 1 (Some 2);
                              mkItem "base" 0 0 0 1 1 1 None] default_item) order
    /\ forall b t, (b < 2)%nat -> (t < 2)%nat ->
         carries [mkItem "top" 0 1 0 1 1 1 (Some 2); mkItem "base" 0 0 0 1 1 1 None] b t
         = true ->
         precedes order b t.
Proof.
  apply (load_order_supports_first (fun _ _ => 0%Z)
           [mkItem "top" 0 1 0 1 1 1 (Some 2); mkItem "base" 0 0 0 1 1 1 None]).
  intros [|[|b]] [|[|t]] Hb Ht Hc; cbn [length] in Hb, Ht; try lia;
    try (vm_compute in Hc; discriminate Hc).
  reflexivity.
Defined.

(** ["1,234.5x"] becomes ["1.2345"]. *)
Lemma sanitizeDecimalDot_first_separator_witness :
  sanitizeDecimalDot (Some ([49%N] ++ comma :: [50%N; 51%N; 52%N; 46%N; 53%N; 120%N]))
  = sanitizeDigits (Some [49%N])
    ++ dot :: sanitizeDigits (Some [50%N; 51%N; 52%N; 46%N; 53%N; 120%N]).
Proof.
  apply (sanitizeDecimalDot_first_separator [49%N]
           [50%N; 51%N; 52%N; 46%N; 53%N; 120%N] comma).
  - right. reflexivity.
  - intros [H|[]]. discriminate H.
  - intros [H|[]]. discriminate H.
Defined.

Lemma placements_at_extreme_points_witness :
  extreme_point (firstn 1 (placed (pack_by_order stack_truck stack_boxes stack_order)))
    (pl_x (mkPlacement "C" 0 1 0 1 1 1)) (pl_y (mkPlacement "C" 0 1 0 1 1 1))
    (pl_z (mkPlacement "C" 0 1 0 1 1 1)).
Proof.
  apply (placements_at_extreme_points stack_truck stack_boxes stack_order 1
           (mkPlacement "C" 0 1 0 1 1 1)).
  reflexivity.
Defined.

(** The sweep for [B] runs and every attempt fails, those on top of [A]
    in the crush check of the kernel; [A] keeps its load of 2. *)
Lemma unplaced_box_leaves_state_witness :
  existsb (fun c => inside_truck low_truck c
                    && negb (collides_any (pk_placed (pack_run low_truck low_boxes
                                                        [0%N; 1%N])) c))
    (attempts (box_at low_boxes 2%N)
       (unique_candidates (pk_candidates (pack_run low_truck low_boxes [0%N; 1%N]))))
  = true
  /\ map load_on_top (pk_placed (pack_step low_truck low_boxes
                                   (pack_run low_truck low_boxes [0%N; 1%N]) 2%N))
     = [2; 0]
  /\ pk_placed (pack_step low_truck low_boxes
                  (pack_run low_truck low_boxes [0%N; 1%N]) 2%N)
     = pk_placed (pack_run low_truck low_boxes [0%N; 1%N]).
Proof.
  split; [vm_compute; reflexivity|]. split; [vm_compute; reflexivity|].
  apply (unplaced_box_leaves_state low_truck low_boxes
           (pack_run low_truck low_boxes [0%N; 1%N]) 2%N).
  vm_compute. reflexivity.
Defined.
